(** * videoml-player: composition time resolver and playback scheduler

    A shallow embedding of [src/xml.ts] (time expression language,
    [loadVideoFileFromXml], [applyVomPatchesInBrowser]) and of
    [src/runtime.ts] ([createTimeline], [computeSceneTimings],
    [handleTick]), with the properties of the specification proved or
    refuted against it.

    Conventions of the embedding.
    - A JavaScript number is a [number]: an exact rational [Fin q], or
      [NaN].  Arithmetic is exact (no binary rounding); a division by
      zero, which JavaScript answers with an infinity or with NaN, gives
      [NaN], the single non-finite value of the model.  Where a property
      depends on the rounding of binary64 (the wrap of the looping clock),
      the code is embedded a second time over the primitive floats:
      [Timeline64].
    - A DOM node is a [Node]: an element with its tag name, attributes in
      document order and child nodes, or a text node.  [DOMParser] and
      [XMLSerializer] are outside the repository: every function takes the
      parsed tree.
    - [throw] is the [Throw] constructor of [result]; the two exception
      classes of [xml.ts] are the two constructors of [Thrown].
    - [JSON.parse] is a parameter of the resolver. *)

From Stdlib Require Import QArith Qround ZArith Ascii String List Bool Lia.
From stdpp Require Import base option list gmap sets strings pretty.
From Stdlib Require Floats.PrimFloat Floats.SpecFloat Floats.FloatOps.

Local Open Scope string_scope.
Local Open Scope list_scope.
Set Warnings "-register-all,-clear-no-such-hyp".

(** ** JavaScript numbers *)

Module Num.

Inductive number : Type :=
| Fin (q : Q)
| NaN.

Definition of_Z (z : Z) : number := Fin (inject_Z z).
Definition of_nat (n : nat) : number := of_Z (Z.of_nat n).

Definition lift2 (f : Q -> Q -> Q) (a b : number) : number :=
  match a, b with
  | Fin x, Fin y => Fin (Qred (f x y))
  | _, _ => NaN
  end.

Definition add : number -> number -> number := lift2 Qplus.
Definition sub : number -> number -> number := lift2 Qminus.
Definition mul : number -> number -> number := lift2 Qmult.

Definition div (a b : number) : number :=
  match a, b with
  | Fin x, Fin y => if Qeq_bool y 0 then NaN else Fin (Qred (x / y))
  | _, _ => NaN
  end.

Definition neg (a : number) : number :=
  match a with
  | Fin x => Fin (Qred (- x))
  | NaN => NaN
  end.

(** [a % b]: the remainder takes the sign of the dividend. *)
Definition trunc (x : Q) : Z := Z.quot (Qnum x) (Zpos (Qden x)).

Definition rem (a b : number) : number :=
  match a, b with
  | Fin x, Fin y =>
      if Qeq_bool y 0 then NaN
      else Fin (Qred (x - y * inject_Z (trunc (x / y))))
  | _, _ => NaN
  end.

(** Comparisons: every comparison with [NaN] is false. *)
Definition le (a b : number) : bool :=
  match a, b with
  | Fin x, Fin y => Qle_bool x y
  | _, _ => false
  end.

Definition lt (a b : number) : bool :=
  match a, b with
  | Fin x, Fin y => negb (Qle_bool y x)
  | _, _ => false
  end.

Definition ge (a b : number) : bool := le b a.
Definition gt (a b : number) : bool := lt b a.

(** [a === b] on numbers. *)
Definition eqb (a b : number) : bool :=
  match a, b with
  | Fin x, Fin y => Qeq_bool x y
  | _, _ => false
  end.

Definition isFinite (a : number) : bool :=
  match a with
  | Fin _ => true
  | NaN => false
  end.

Definition floor (a : number) : number :=
  match a with
  | Fin x => Fin (inject_Z (Qfloor x))
  | NaN => NaN
  end.

(** [Math.round]: halves go up. *)
Definition round (a : number) : number :=
  match a with
  | Fin x => Fin (inject_Z (Qfloor (x + (1 # 2))))
  | NaN => NaN
  end.

Definition min2 (a b : number) : number :=
  match a, b with
  | Fin x, Fin y => if Qle_bool x y then a else b
  | _, _ => NaN
  end.

Definition max2 (a b : number) : number :=
  match a, b with
  | Fin x, Fin y => if Qle_bool x y then b else a
  | _, _ => NaN
  end.

(** [Math.min(...values)] and [Math.max(...values)] on a list with at least
    one element (the callers check the arity first). *)
Definition minList (x : number) (xs : list number) : number := foldl min2 x xs.
Definition maxList (x : number) (xs : list number) : number := foldl max2 x xs.

End Num.

Export Num(number, Fin, NaN).

Declare Scope num_scope.
Delimit Scope num_scope with num.
Bind Scope num_scope with number.
Infix "+" := Num.add : num_scope.
Infix "-" := Num.sub : num_scope.
Infix "*" := Num.mul : num_scope.
Infix "/" := Num.div : num_scope.
Infix ">=?" := Num.ge (at level 70) : num_scope.
Infix "<?" := Num.lt (at level 70) : num_scope.

(** ** Strings as JavaScript uses them *)

Module Str.

Definition dquote : string := String "034"%char "".
Definition backslash : ascii := "092"%char.

Definition quoted (s : string) : string := dquote +:+ s +:+ dquote.

Definition chars (s : string) : list ascii := list_ascii_of_string s.
Definition of_chars (l : list ascii) : string := string_of_list_ascii l.

Definition between (lo hi c : ascii) : bool :=
  (nat_of_ascii lo <=? nat_of_ascii c)%nat && (nat_of_ascii c <=? nat_of_ascii hi)%nat.

Definition isDigit (c : ascii) : bool := between "0" "9" c.
Definition isLower (c : ascii) : bool := between "a" "z" c.
Definition isUpper (c : ascii) : bool := between "A" "Z" c.
Definition isAlpha (c : ascii) : bool := isLower c || isUpper c.

(** White space that [trim] and [parseFloat] strip (the ASCII part). *)
Definition isSpace (c : ascii) : bool :=
  match nat_of_ascii c with
  | 9 | 10 | 11 | 12 | 13 | 32 => true
  | _ => false
  end.

Definition toUpperChar (c : ascii) : ascii :=
  if isLower c then ascii_of_nat (nat_of_ascii c - 32) else c.
Definition toLowerChar (c : ascii) : ascii :=
  if isUpper c then ascii_of_nat (nat_of_ascii c + 32) else c.

Definition toLowerCase (s : string) : string := of_chars (map toLowerChar (chars s)).

Fixpoint span (p : ascii -> bool) (l : list ascii) : list ascii * list ascii :=
  match l with
  | c :: r => if p c then let '(a, b) := span p r in (c :: a, b) else ([], l)
  | [] => ([], [])
  end.

Definition trimStart (l : list ascii) : list ascii := snd (span isSpace l).
Definition trimChars (l : list ascii) : list ascii :=
  rev (trimStart (rev (trimStart l))).
Definition trim (s : string) : string := of_chars (trimChars (chars s)).

Definition digitVal (c : ascii) : Z := Z.of_nat (nat_of_ascii c - 48).
Definition digitsVal (l : list ascii) : Z :=
  foldl (fun acc c => (10 * acc + digitVal c)%Z) 0%Z l.

(** [Number.parseFloat]: white space, a sign, then the longest prefix
    [digits [. digits] [e [sign] digits]] with a digit before or after the
    point; anything else (and [Infinity], which is not finite) is [NaN]. *)
Definition exponent (l : list ascii) : Z :=
  match l with
  | c :: r =>
      if (Ascii.eqb c "e" || Ascii.eqb c "E")%bool then
        let '(neg, r') :=
          match r with
          | s :: r'' =>
              if Ascii.eqb s "-" then (true, r'')
              else if Ascii.eqb s "+" then (false, r'') else (false, r)
          | [] => (false, r)
          end in
        let ds := fst (span isDigit r') in
        match ds with
        | [] => 0%Z
        | _ => if neg then (- digitsVal ds)%Z else digitsVal ds
        end
      else 0%Z
  | [] => 0%Z
  end.

Definition pow10 (e : Z) : Q :=
  match e with
  | Z0 => 1
  | Zpos p => inject_Z (10 ^ Zpos p)
  | Zneg p => 1 # Z.to_pos (10 ^ Zpos p)
  end.

Definition parseFloatChars (l : list ascii) : number :=
  let l := trimStart l in
  let '(neg, l) :=
    match l with
    | c :: r =>
        if Ascii.eqb c "-" then (true, r)
        else if Ascii.eqb c "+" then (false, r) else (false, l)
    | [] => (false, l)
    end in
  let '(ip, r) := span isDigit l in
  let '(fp, r) :=
    match r with
    | c :: r' => if Ascii.eqb c "." then span isDigit r' else ([], r)
    | [] => ([], r)
    end in
  match (ip ++ fp)%list with
  | [] => NaN
  | ds =>
      let m := (digitsVal ds # Z.to_pos (10 ^ Z.of_nat (length fp)))%Q in
      let v := (m * pow10 (exponent r))%Q in
      Fin (Qred (if neg then - v else v))
  end.

Definition parseFloat (s : string) : number := parseFloatChars (chars s).

(** Truthiness of a value that is a string or [null]. *)
Definition truthy (o : option string) : bool :=
  match o with
  | Some s => negb (String.eqb s "")
  | None => false
  end.

End Str.

(** ** The DOM tree *)

Inductive Node : Type :=
| Element (tagName : string) (attributes : list (string * string)) (childNodes : list Node)
| Text (data : string).

Module Dom.

Definition isElement (n : Node) : bool :=
  match n with
  | Element _ _ _ => true
  | Text _ => false
  end.

Definition tagName (n : Node) : string :=
  match n with
  | Element t _ _ => t
  | Text _ => ""
  end.

Definition attributes (n : Node) : list (string * string) :=
  match n with
  | Element _ a _ => a
  | Text _ => []
  end.

Definition childNodes (n : Node) : list Node :=
  match n with
  | Element _ _ c => c
  | Text _ => []
  end.

(** [el.children]: the child nodes that are elements. *)
Definition children (n : Node) : list Node := filter (fun c => isElement c = true) (childNodes n).

Fixpoint lookupAttr (name : string) (attrs : list (string * string)) : option string :=
  match attrs with
  | (k, v) :: r => if String.eqb k name then Some v else lookupAttr name r
  | [] => None
  end.

Definition getAttribute (n : Node) (name : string) : option string :=
  lookupAttr name (attributes n).

Definition hasAttribute (n : Node) (name : string) : bool :=
  bool_decide (is_Some (getAttribute n name)).

(** The elements below [n] in document order, each with its path from [n]
    (reversed: last step first) and its ancestors, nearest first. *)
Fixpoint descendants (n : Node) (here : list nat) (ancestors : list Node)
    : list (list nat * Node * list Node) :=
  match n with
  | Text _ => []
  | Element _ _ nodes =>
      (fix each (nodes : list Node) (i : nat) : list (list nat * Node * list Node) :=
         match nodes with
         | [] => []
         | c :: rest =>
             (if isElement c
              then (i :: here, c, n :: ancestors) :: descendants c (i :: here) (n :: ancestors)
              else []) ++ each rest (S i)
         end) nodes 0
  end.

Fixpoint textContent (n : Node) : string :=
  match n with
  | Text d => d
  | Element _ _ cs => foldr (fun c acc => textContent c +:+ acc) "" cs
  end.

End Dom.

(** ** Exceptions *)

Inductive Thrown : Type :=
| MissingTimeReferenceError (message : string)
| Error (message : string).

Inductive result (A : Type) : Type :=
| Ok (a : A)
| Throw (e : Thrown).
Arguments Ok {A} a.
Arguments Throw {A} e.

#[export] Instance result_ret : MRet result := fun A a => Ok a.
#[export] Instance result_bind : MBind result := fun A B f m =>
  match m with
  | Ok a => f a
  | Throw e => Throw e
  end.
#[export] Instance result_fmap : FMap result := fun A B f m =>
  match m with
  | Ok a => Ok (f a)
  | Throw e => Throw e
  end.

Definition isOk {A} (r : result A) : bool :=
  match r with
  | Ok _ => true
  | Throw _ => false
  end.

(** [xs.map(f)] for an [f] that may throw: left to right, stopping at the
    first exception. *)
Fixpoint mapM {A B} (f : A -> result B) (l : list A) : result (list B) :=
  match l with
  | [] => Ok []
  | x :: r => y ← f x; ys ← mapM f r; Ok (y :: ys)
  end.

(** ** Time expression language ([xml.ts], [tokenizeTime],
    [parseTimeExpression], [evalTimeAst]) *)

Module TimeExpr.

Inductive Unit : Type := UnitF | UnitS | UnitMs.
Inductive Op : Type := Plus | Minus | Times | Divide.

Inductive Token : Type :=
| TNumber (value : number) (unit : option Unit)
| TIdentifier (value : string)
| TOperator (value : Op)
| TParen (opening : bool)
| TDot
| TComma.

Inductive AstNode : Type :=
| ANumber (value : number) (unit : option Unit)
| AIdentifier (value : string)
| ABinary (op : Op) (left right : AstNode)
| AUnary (op : Op) (value : AstNode)
| ACall (name : string) (args : list AstNode)
| AProperty (target : AstNode) (prop : string).

Record TimeEvalContext : Type := {
  fps : number;
  getSceneStart : string -> option number;
  getSceneEnd : string -> option number;
  getCueStart : string -> option number;
  getPrevStart : option number;
  getPrevEnd : option number;
  getNextStart : option number;
}.

(** *** Tokens *)

Definition isNumberChar (c : ascii) : bool := Str.isDigit c || Ascii.eqb c ".".
Definition isIdentStart (c : ascii) : bool := Str.isAlpha c || Ascii.eqb c "_".
Definition isIdentChar (c : ascii) : bool :=
  Str.isAlpha c || Str.isDigit c || Ascii.eqb c "_" || Ascii.eqb c "-".

(** The unit suffix that follows the digits of a number, and its length. *)
Definition unitSuffix (after : list ascii) : option Unit * nat :=
  match after with
  | "m"%char :: "s"%char :: _ => (Some UnitMs, 2)
  | "f"%char :: _ => (Some UnitF, 1)
  | "s"%char :: _ => (Some UnitS, 1)
  | _ => (None, 0)
  end.

(** One iteration of the [while] loop of [tokenizeTime] at the character
    [ch] followed by [rest]: the token pushed, if any, and the number of
    characters after [ch] that the iteration consumes as well. *)
Definition tokenAt (ch : ascii) (rest : list ascii) : result (option Token * nat) :=
  if Ascii.eqb ch " " || Ascii.eqb ch "009" || Ascii.eqb ch "010" then Ok (None, 0)
  else if Ascii.eqb ch "+" then Ok (Some (TOperator Plus), 0)
  else if Ascii.eqb ch "-" then Ok (Some (TOperator Minus), 0)
  else if Ascii.eqb ch "*" then Ok (Some (TOperator Times), 0)
  else if Ascii.eqb ch "/" then Ok (Some (TOperator Divide), 0)
  else if Ascii.eqb ch "(" then Ok (Some (TParen true), 0)
  else if Ascii.eqb ch ")" then Ok (Some (TParen false), 0)
  else if Ascii.eqb ch "." then Ok (Some TDot, 0)
  else if Ascii.eqb ch "," then Ok (Some TComma, 0)
  else if Str.isDigit ch then
    let '(more, after) := Str.span isNumberChar rest in
    let '(unit, n) := unitSuffix after in
    Ok (Some (TNumber (Str.parseFloatChars (ch :: more)) unit), length more + n)
  else if isIdentStart ch then
    let '(more, _) := Str.span isIdentChar rest in
    Ok (Some (TIdentifier (Str.of_chars (ch :: more))), length more)
  else
    Throw (Error ("Unexpected character " +:+ Str.quoted (String ch "") +:+ " in time expression.")).

(** [skip] counts the characters that the previous iteration has already
    consumed. *)
Fixpoint tokenizeFrom (input : list ascii) (skip : nat) : result (list Token) :=
  match input with
  | [] => Ok []
  | ch :: rest =>
      match skip with
      | S k => tokenizeFrom rest k
      | O =>
          '(tok, n) ← tokenAt ch rest;
          toks ← tokenizeFrom rest n;
          Ok (match tok with Some t => t :: toks | None => toks end)
      end
  end.

Definition tokenizeTime (input : string) : result (list Token) :=
  tokenizeFrom (Str.chars input) 0.

(** *** Parser

    The recursive descent of [parseTimeExpression] over the remaining
    tokens.  Every function takes a bound on the depth of the calls still
    allowed and answers [None] below it; [parseTimeExpression] starts with a
    bound that the descent never reaches (lemma [parse_fuel_enough]). *)

Definition errEnd : Thrown := Error "Unexpected end of time expression.".
Definition errClosing : Thrown := Error "Expected closing ')' in time expression.".
Definition errProp : Thrown := Error "Expected property name after '.'.".
Definition errInvalid : Thrown := Error "Invalid time expression.".
Definition errToken : Thrown := Error "Unexpected token in time expression.".

Definition PResult : Type := option (result (AstNode * list Token)).

(** The [while (peek()?.type === "dot")] loop of [parsePrimary]. *)
Fixpoint parseProps (node : AstNode) (ts : list Token) : result (AstNode * list Token) :=
  match ts with
  | TDot :: TIdentifier p :: ts' => parseProps (AProperty node p) ts'
  | TDot :: _ => Throw errProp
  | _ => Ok (node, ts)
  end.

Definition expectClosing (ts : list Token) : result (list Token) :=
  match ts with
  | TParen false :: ts' => Ok ts'
  | _ => Throw errClosing
  end.

Fixpoint parseExpression (fuel : nat) (ts : list Token) {struct fuel} : PResult :=
  match fuel with
  | O => None
  | S f =>
      match parseTerm f ts with
      | Some (Ok (node, ts')) => parseExpressionLoop f node ts'
      | r => r
      end
  end
with parseExpressionLoop (fuel : nat) (node : AstNode) (ts : list Token) {struct fuel} : PResult :=
  match fuel with
  | O => None
  | S f =>
      match ts with
      | TOperator ((Plus | Minus) as op) :: ts' =>
          match parseTerm f ts' with
          | Some (Ok (rhs, ts'')) => parseExpressionLoop f (ABinary op node rhs) ts''
          | r => r
          end
      | _ => Some (Ok (node, ts))
      end
  end
with parseTerm (fuel : nat) (ts : list Token) {struct fuel} : PResult :=
  match fuel with
  | O => None
  | S f =>
      match parseUnary f ts with
      | Some (Ok (node, ts')) => parseTermLoop f node ts'
      | r => r
      end
  end
with parseTermLoop (fuel : nat) (node : AstNode) (ts : list Token) {struct fuel} : PResult :=
  match fuel with
  | O => None
  | S f =>
      match ts with
      | TOperator ((Times | Divide) as op) :: ts' =>
          match parseUnary f ts' with
          | Some (Ok (rhs, ts'')) => parseTermLoop f (ABinary op node rhs) ts''
          | r => r
          end
      | _ => Some (Ok (node, ts))
      end
  end
with parseUnary (fuel : nat) (ts : list Token) {struct fuel} : PResult :=
  match fuel with
  | O => None
  | S f =>
      match ts with
      | TOperator ((Plus | Minus) as op) :: ts' =>
          match parseUnary f ts' with
          | Some (Ok (v, ts'')) => Some (Ok (AUnary op v, ts''))
          | r => r
          end
      | _ => parsePrimary f ts
      end
  end
with parsePrimary (fuel : nat) (ts : list Token) {struct fuel} : PResult :=
  match fuel with
  | O => None
  | S f =>
      match ts with
      | [] => Some (Throw errEnd)
      | TNumber v u :: ts' => Some (Ok (ANumber v u, ts'))
      | TIdentifier name :: TParen true :: TParen false :: ts' =>
          Some (parseProps (ACall name []) ts')
      | TIdentifier name :: TParen true :: ts' =>
          match parseArgs f ts' with
          | Some (Ok (args, ts'')) =>
              Some (ts3 ← expectClosing ts''; parseProps (ACall name args) ts3)
          | Some (Throw e) => Some (Throw e)
          | None => None
          end
      | TIdentifier name :: ts' => Some (parseProps (AIdentifier name) ts')
      | TParen true :: ts' =>
          match parseExpression f ts' with
          | Some (Ok (expr, ts'')) => Some (ts3 ← expectClosing ts''; Ok (expr, ts3))
          | r => r
          end
      | _ => Some (Throw errInvalid)
      end
  end
with parseArgs (fuel : nat) (ts : list Token) {struct fuel}
    : option (result (list AstNode * list Token)) :=
  match fuel with
  | O => None
  | S f =>
      match parseExpression f ts with
      | Some (Ok (arg, TComma :: ts')) =>
          match parseArgs f ts' with
          | Some (Ok (args, ts'')) => Some (Ok (arg :: args, ts''))
          | r => r
          end
      | Some (Ok (arg, ts')) => Some (Ok ([arg], ts'))
      | Some (Throw e) => Some (Throw e)
      | None => None
      end
  end.

Definition parseFuel (ts : list Token) : nat := 6 * length ts + 6.

Definition parseTokens (ts : list Token) : PResult :=
  match parseExpression (parseFuel ts) ts with
  | Some (Ok (expr, [])) => Some (Ok (expr, []))
  | Some (Ok (_, _ :: _)) => Some (Throw errToken)
  | r => r
  end.

Definition parseTimeExpression (input : string) : result AstNode :=
  ts ← tokenizeTime input;
  match parseTokens ts with
  | Some r => fst <$> r
  | None => Throw errInvalid
  end.

(** A parser answer that leaves fewer tokens than it was given ([strict])
    or at most as many. *)
Definition shorter {A} (strict : bool) (r : option (result (A * list Token)))
    (ts : list Token) : Prop :=
  forall a rest, r = Some (Ok (a, rest)) ->
    if strict then (length rest < length ts)%nat else (length rest <= length ts)%nat.

(** *** Evaluation *)

Definition missing {A} (what : string) : result A := Throw (MissingTimeReferenceError what).
Definition fail {A} (msg : string) : result A := Throw (Error msg).

Definition lookupOr (what : string) (v : option number) : result number :=
  match v with
  | Some x => Ok x
  | None => missing what
  end.

(** The identifier argument of [scene(...)] and [cue(...)]. *)
Definition identArg (fn : string) (args : list AstNode) : result string :=
  match args with
  | AIdentifier v :: _ => Ok v
  | _ => fail (fn +:+ "() requires an identifier argument.")
  end.

Definition applyOp (op : Op) (l r : number) : number :=
  match op with
  | Plus => Num.add l r
  | Minus => Num.sub l r
  | Times => Num.mul l r
  | Divide => Num.div l r
  end.

Fixpoint evalTimeAst (node : AstNode) (ctx : TimeEvalContext) : result number :=
  match node with
  | ANumber value unit =>
      match unit with
      | None => Ok value
      | Some UnitF => Ok (Num.div value (fps ctx))
      | Some UnitMs => Ok (Num.div value (Num.of_Z 1000))
      | Some UnitS => Ok value
      end
  | AIdentifier value =>
      if String.eqb value "timeline"
      then fail "timeline requires a property (e.g. timeline.start)."
      else fail ("Unknown identifier " +:+ Str.quoted value +:+ " in time expression.")
  | AUnary op value =>
      val ← evalTimeAst value ctx;
      Ok (match op with Minus => Num.neg val | _ => val end)
  | ABinary op l r =>
      lhs ← evalTimeAst l ctx;
      rhs ← evalTimeAst r ctx;
      Ok (applyOp op lhs rhs)
  | ACall name args =>
      let evalArgs :=
        (fix go (l : list AstNode) : result (list number) :=
           match l with
           | [] => Ok []
           | a :: r => v ← evalTimeAst a ctx; vs ← go r; Ok (v :: vs)
           end) in
      if String.eqb name "min" || String.eqb name "max" then
        if (length args <? 2)%nat
        then fail (name +:+ " requires at least 2 arguments.")
        else
          values ← evalArgs args;
          match values with
          | v :: vs => Ok (if String.eqb name "min" then Num.minList v vs else Num.maxList v vs)
          | [] => Ok NaN
          end
      else if String.eqb name "clamp" then
        match args with
        | [a0; a1; a2] =>
            value ← evalTimeAst a0 ctx;
            min ← evalTimeAst a1 ctx;
            max ← evalTimeAst a2 ctx;
            Ok (Num.min2 max (Num.max2 min value))
        | _ => fail "clamp requires 3 arguments."
        end
      else if String.eqb name "snap" then
        match args with
        | [a0; a1] =>
            value ← evalTimeAst a0 ctx;
            grid ← evalTimeAst a1 ctx;
            Ok (if Num.eqb grid (Num.of_Z 0) then value
                else Num.mul (Num.round (Num.div value grid)) grid)
        | _ => fail "snap requires 2 arguments."
        end
      else if String.eqb name "scene" then
        id ← identArg "scene" args;
        lookupOr ("scene(" +:+ id +:+ ")") (getSceneStart ctx id)
      else if String.eqb name "cue" then
        id ← identArg "cue" args;
        lookupOr ("cue(" +:+ id +:+ ")") (getCueStart ctx id)
      else fail ("Unknown function " +:+ Str.quoted name +:+ ".")
  | AProperty target prop =>
      let unsupported : result number :=
        fail ("Unsupported property access " +:+ Str.quoted ("." +:+ prop) +:+ ".") in
      match target with
      | AIdentifier base =>
          if String.eqb base "prev" then
            if String.eqb prop "start" then lookupOr "prev.start" (getPrevStart ctx)
            else if String.eqb prop "end" then lookupOr "prev.end" (getPrevEnd ctx)
            else unsupported
          else if String.eqb base "next" then
            if String.eqb prop "start" then lookupOr "next.start" (getNextStart ctx)
            else unsupported
          else if String.eqb base "timeline" then
            if String.eqb prop "start" then Ok (Num.of_Z 0) else unsupported
          else unsupported
      | ACall name args =>
          if String.eqb name "scene" then
            id ← identArg "scene" args;
            if String.eqb prop "start"
            then lookupOr ("scene(" +:+ id +:+ ").start") (getSceneStart ctx id)
            else if String.eqb prop "end"
            then lookupOr ("scene(" +:+ id +:+ ").end") (getSceneEnd ctx id)
            else unsupported
          else unsupported
      | _ => unsupported
      end
  end.

Definition parseTimeValue (value : string) (ctx : TimeEvalContext) : result number :=
  expr ← parseTimeExpression (Str.trim value);
  evalTimeAst expr ctx.

End TimeExpr.

(** ** The resolver of [xml.ts]: element parsers *)

Module Xml.
Import TimeExpr.

Inductive Flow : Type := Sequence | Stack.

Inductive PropValue : Type :=
| PBool (b : bool)
| PNumber (n : number)
| PString (s : string).

Record Timing : Type := { startSec : option number; endSec : option number }.
Record ContainerTiming : Type := { cStartSec : number; cEndSec : option number }.
Record TimeRange : Type := { rangeStart : number; rangeEnd : option number }.

Inductive Pause : Type :=
| PauseFixed (seconds : number)
| PauseGaussian (mean std : number) (min max : option number).

Inductive Segment : Type :=
| SegText (text : string) (trimEndSec : option number)
| SegPause (pause : Pause).

Record Cue : Type := {
  cueId : string;
  cueLabel : string;
  cueSegments : list Segment;
  cueBullets : list string;
  cueProvider : option string;
  cueTime : option TimeRange;
}.

Inductive Item : Type :=
| ItemCue (cue : Cue)
| ItemPause (pause : Pause).

Definition allowedRoots : list string := ["videoml"; "video-ml"; "vml"].
Definition errRoot : Thrown := Error "XML root must be <vml>, <videoml>, or <video-ml>.".

Definition inList (s : string) (l : list string) : bool := existsb (String.eqb s) l.

Definition getAttr (el : Node) (name : string) : option string := Dom.getAttribute el name.

(** The attribute when it is there and not the empty string (the value of
    [raw] under [if (raw)] and [raw ? ... : ...]). *)
Definition attrIf (el : Node) (name : string) : option string :=
  match getAttr el name with
  | Some s => if String.eqb s "" then None else Some s
  | None => None
  end.

(** [/^[-+]?\\d+(\\.\\d+)?$/] as it is written in [parseNumber]: inside the
    regular expression literal [\\] is a backslash character and [d] the
    letter d, so the pattern reads: an optional sign, a backslash, one or
    more letters d, and optionally a backslash, any character but a line
    terminator, a backslash and one or more letters d. *)
Definition isLetterD (c : ascii) : bool := Ascii.eqb c "d".
Definition isLineTerminator (c : ascii) : bool := Ascii.eqb c "010" || Ascii.eqb c "013".

Definition backslashDs (l : list ascii) : option (list ascii) :=
  match l with
  | c :: r =>
      if Ascii.eqb c Str.backslash then
        match Str.span isLetterD r with
        | (_ :: _, r') => Some r'
        | ([], _) => None
        end
      else None
  | [] => None
  end.

Definition numberPattern (l : list ascii) : bool :=
  let l :=
    match l with
    | c :: r => if Ascii.eqb c "-" || Ascii.eqb c "+" then r else l
    | [] => l
    end in
  match backslashDs l with
  | Some [] => true
  | Some (b :: c :: r) =>
      if Ascii.eqb b Str.backslash && negb (isLineTerminator c) then
        match backslashDs r with
        | Some [] => true
        | _ => false
        end
      else false
  | _ => false
  end.

Definition parseNumber (value : option string) : option number :=
  match value with
  | None => None
  | Some v =>
      if String.eqb v "" then None
      else if negb (numberPattern (Str.chars v)) then None
      else Some (Str.parseFloat v)
  end.

(** [value.replace(/-([a-z])/g, (_, letter) => letter.toUpperCase())] *)
Fixpoint toCamelChars (l : list ascii) : list ascii :=
  match l with
  | c :: r =>
      match r with
      | d :: r' =>
          if Ascii.eqb c "-" && Str.isLower d
          then Str.toUpperChar d :: toCamelChars r'
          else c :: toCamelChars r
      | [] => [c]
      end
  | [] => []
  end.

Definition toCamelCase (value : string) : string :=
  Str.of_chars (toCamelChars (Str.chars value)).

(** [value.split("-").filter(Boolean).map(capitalise).join("")]: the dashes
    go and the first character of every part is put in upper case. *)
Fixpoint toPascalChars (l : list ascii) (partStart : bool) : list ascii :=
  match l with
  | c :: r =>
      if Ascii.eqb c "-" then toPascalChars r true
      else (if partStart then Str.toUpperChar c else c) :: toPascalChars r false
  | [] => []
  end.

Definition toPascalCase (value : string) : string :=
  Str.of_chars (toPascalChars (Str.chars value) true).

Definition reservedAttrs : list string :=
  ["id"; "visible"; "z"; "start"; "end"; "duration"; "styles"; "markup"; "props"].

Definition skippedTags : list string :=
  ["scene"; "cue"; "layer"; "pause"; "voice"; "bullet"; "voiceover"].

Definition isContainerTag (tag : string) : option Flow :=
  if String.eqb tag "sequence" then Some Sequence
  else if String.eqb tag "stack" then Some Stack
  else None.

Definition DEFAULT_SEQUENCE_CHILD_SECONDS : number := Num.of_Z 1.

(** [raw ? parseTimeValue(raw, ctx) : undefined] *)
Definition timeAttr (el : Node) (name : string) (ctx : TimeEvalContext) : result (option number) :=
  match attrIf el name with
  | Some raw => v ← parseTimeValue raw ctx; Ok (Some v)
  | None => Ok None
  end.

Definition parseContainerTiming (el : Node) (ctx : TimeEvalContext) : result ContainerTiming :=
  match attrIf el "start", attrIf el "end", attrIf el "duration" with
  | None, None, None => Ok {| cStartSec := Num.of_Z 0; cEndSec := None |}
  | startRaw, _, durationRaw =>
      start ← match startRaw with
              | Some raw => parseTimeValue raw ctx
              | None => Ok (Num.of_Z 0)
              end;
      end_ ← timeAttr el "end" ctx;
      match durationRaw, end_ with
      | Some raw, None =>
          duration ← parseTimeValue raw ctx;
          Ok {| cStartSec := start; cEndSec := Some (Num.add start duration) |}
      | _, _ => Ok {| cStartSec := start; cEndSec := end_ |}
      end
  end.

Definition parseTiming (el : Node) (ctx : TimeEvalContext) : result (option Timing) :=
  match attrIf el "start", attrIf el "end", attrIf el "duration" with
  | None, None, None => Ok None
  | startRaw, _, durationRaw =>
      start ← match startRaw, durationRaw with
              | Some raw, _ => v ← parseTimeValue raw ctx; Ok (Some v)
              | None, Some _ => Ok (Some (Num.of_Z 0))
              | None, None => Ok None
              end;
      end_ ← timeAttr el "end" ctx;
      match start, durationRaw, end_ with
      | Some s, Some raw, None =>
          duration ← parseTimeValue raw ctx;
          Ok (Some {| startSec := Some s; endSec := Some (Num.add s duration) |})
      | _, _, _ => Ok (Some {| startSec := start; endSec := end_ |})
      end
  end.

Definition parseTimeRange (el : Node) (ctx : TimeEvalContext) (label : string)
    : result (option TimeRange) :=
  match attrIf el "start", attrIf el "end", attrIf el "duration" with
  | None, None, None => Ok None
  | None, _, _ => fail (label +:+ " timing requires start when end or duration is provided.")
  | Some startRaw, _, durationRaw =>
      start ← parseTimeValue startRaw ctx;
      endExplicit ← timeAttr el "end" ctx;
      match durationRaw, endExplicit with
      | Some raw, None =>
          duration ← parseTimeValue raw ctx;
          Ok (Some {| rangeStart := start; rangeEnd := Some (Num.add start duration) |})
      | _, Some e => Ok (Some {| rangeStart := start; rangeEnd := Some e |})
      | None, None => Ok (Some {| rangeStart := start; rangeEnd := None |})
      end
  end.

Definition parsePause (el : Node) (ctx : TimeEvalContext) : result Pause :=
  match attrIf el "seconds" with
  | Some seconds => v ← parseTimeValue seconds ctx; Ok (PauseFixed v)
  | None =>
      match attrIf el "mean", attrIf el "std" with
      | Some mean, Some std =>
          m ← parseTimeValue mean ctx;
          s ← parseTimeValue std ctx;
          lo ← timeAttr el "min" ctx;
          hi ← timeAttr el "max" ctx;
          Ok (PauseGaussian m s lo hi)
      | _, _ => fail "pause requires seconds or mean+std."
      end
  end.

(** [text.replace(/\\s+/g, " ")]: as in [parseNumber] the pattern is a
    backslash followed by one or more letters s. *)
Definition isLetterS (c : ascii) : bool := Ascii.eqb c "s".

Fixpoint replaceBackslashS (l : list ascii) (skip : nat) : list ascii :=
  match l with
  | c :: r =>
      match skip with
      | S k => replaceBackslashS r k
      | O =>
          match Str.span isLetterS r with
          | (s :: ss, _) =>
              if Ascii.eqb c Str.backslash
              then " "%char :: replaceBackslashS r (length (s :: ss))
              else c :: replaceBackslashS r 0
          | ([], _) => c :: replaceBackslashS r 0
          end
      end
  | [] => []
  end.

Definition normaliseText (el : Node) : string :=
  Str.of_chars (Str.trimChars (replaceBackslashS (Str.chars (Dom.textContent el)) 0)).

(** The loop of [parseCue] over the children of the cue. *)
Fixpoint parseCueChildren (cs : list Node) (ctx : TimeEvalContext)
    : result (list Segment * list string) :=
  match cs with
  | [] => Ok ([], [])
  | child :: rest =>
      if String.eqb (Dom.tagName child) "voice" then
        let text := normaliseText child in
        if String.eqb text "" then parseCueChildren rest ctx
        else
          trimEnd ← timeAttr child "trim-end" ctx;
          '(segs, bullets) ← parseCueChildren rest ctx;
          Ok (SegText text trimEnd :: segs, bullets)
      else if String.eqb (Dom.tagName child) "pause" then
        pause ← parsePause child ctx;
        '(segs, bullets) ← parseCueChildren rest ctx;
        Ok (SegPause pause :: segs, bullets)
      else if String.eqb (Dom.tagName child) "bullet" then
        let bullet := normaliseText child in
        '(segs, bullets) ← parseCueChildren rest ctx;
        Ok (segs, if String.eqb bullet "" then bullets else bullet :: bullets)
      else parseCueChildren rest ctx
  end.

Definition parseCue (el : Node) (ctx : TimeEvalContext) : result Cue :=
  match attrIf el "id" with
  | None => fail "cue requires id."
  | Some id =>
      time ← parseTimeRange el ctx ("cue " +:+ Str.quoted id);
      '(segments, bullets) ← parseCueChildren (Dom.children el) ctx;
      Ok {| cueId := id;
            cueLabel := default id (getAttr el "label");
            cueSegments := segments;
            cueBullets := bullets;
            cueProvider := getAttr el "provider";
            cueTime := time |}
  end.

(** The [id] attributes of the cue elements that are children of a scene
    element, of those of all the scene elements of the root, and of the cue
    elements anywhere below the root. *)
Definition cueIdOf (el : Node) : option string :=
  if String.eqb (Dom.tagName el) "cue" then attrIf el "id" else None.

Definition sceneCueIds (sceneEl : Node) : list string := omap cueIdOf (Dom.children sceneEl).

Definition sceneElementsOf (root : Node) : list Node :=
  filter (fun child => Dom.tagName child = "scene") (Dom.children root).


Definition allCueIdAttrs (root : Node) : list string :=
  omap (fun d => cueIdOf d.1.2) (Dom.descendants root [] []).

(** *** Components, containers and layers

    [JSON.parse] is a parameter: [None] stands for the [SyntaxError] it
    throws on malformed text; [spread parent child] is [{...parent, ...child}]. *)

Section Resolver.
Context {Json : Type}.
Variable JSON_parse : string -> option Json.
Variable spread : Json -> Json -> Json.

Definition errJson (source : string) : Thrown := Error ("SyntaxError: " +:+ source).

(** [raw ? JSON.parse(raw) : undefined] *)
Definition jsonAttr (el : Node) (name : string) : result (option Json) :=
  match attrIf el name with
  | Some raw =>
      match JSON_parse raw with
      | Some j => Ok (Some j)
      | None => Throw (errJson raw)
      end
  | None => Ok None
  end.

Record Props : Type := {
  propsObject : option Json;
  propsAttrs : list (string * PropValue);
}.

Record Component : Type := {
  compId : string;
  compType : string;
  compProps : Props;
  compTiming : option Timing;
  compVisible : option bool;
  compZIndex : option number;
  compStyles : option Json;
  compMarkup : option Json;
}.

Record Layer : Type := {
  layerId : string;
  layerTiming : option Timing;
  layerVisible : option bool;
  layerZIndex : option number;
  layerStyles : option Json;
  layerMarkup : option Json;
  layerComponents : list Component;
}.

Record ContainerResult : Type := {
  crComponents : list Component;
  crComponentIndex : nat;
  crMaxEnd : option number;
}.

Definition propValue (value : string) : PropValue :=
  if String.eqb value "true" then PBool true
  else if String.eqb value "false" then PBool false
  else match parseNumber (Some value) with
       | Some num => PNumber num
       | None => PString value
       end.

Definition parseProps (el : Node) (reserved : list string) : result Props :=
  object ← jsonAttr el "props";
  Ok {| propsObject := object;
        propsAttrs :=
          omap (fun '(name, value) =>
                  if String.eqb name "props" || inList name reserved then None
                  else Some (toCamelCase name, propValue value))
               (Dom.attributes el) |}.

Definition visibleAttr (el : Node) : option bool :=
  (fun raw => String.eqb raw "true") <$> attrIf el "visible".

Definition zAttr (el : Node) : option number :=
  match attrIf el "z" with
  | Some raw => parseNumber (Some raw)
  | None => None
  end.

Definition parseComponentElement (el : Node) (ctx : TimeEvalContext) (componentIndex : nat)
    (timingOverride : option Timing) : result Component :=
  props ← parseProps el reservedAttrs;
  timing ← match timingOverride with
           | Some t => Ok (Some t)
           | None => parseTiming el ctx
           end;
  styles ← jsonAttr el "styles";
  markup ← jsonAttr el "markup";
  Ok {| compId := default (Dom.tagName el +:+ "-" +:+ pretty componentIndex) (getAttr el "id");
        compType := toPascalCase (Dom.tagName el);
        compProps := props;
        compTiming := timing;
        compVisible := visibleAttr el;
        compZIndex := zAttr el;
        compStyles := styles;
        compMarkup := markup |}.

Definition mergeCascaded (parent child : option Json) : option Json :=
  match parent, child with
  | None, _ => child
  | _, None => parent
  | Some p, Some c => Some (spread p c)
  end.

Definition maxOpt (maxEnd : option number) (e : number) : option number :=
  match maxEnd with
  | None => Some e
  | Some m => Some (Num.max2 m e)
  end.

Fixpoint parseContainerChildren (el : Node) (ctx : TimeEvalContext) (componentIndex : nat)
    (containerStart : number) (flow : Flow) (inheritedStyles inheritedMarkup : option Json)
    {struct el} : result ContainerResult :=
  containerStyles ← jsonAttr el "styles";
  containerMarkup ← jsonAttr el "markup";
  let cascadedStyles := mergeCascaded inheritedStyles containerStyles in
  let cascadedMarkup := mergeCascaded inheritedMarkup containerMarkup in
  match el with
  | Text _ => Ok {| crComponents := []; crComponentIndex := componentIndex; crMaxEnd := None |}
  | Element _ _ nodes =>
      (fix loop (nodes : list Node) (components : list Component) (componentIndex : nat)
           (cursor : number) (maxEnd : option number) {struct nodes} : result ContainerResult :=
         match nodes with
         | [] =>
             Ok {| crComponents := components;
                   crComponentIndex := componentIndex;
                   crMaxEnd := match flow with Sequence => Some cursor | Stack => maxEnd end |}
         | child :: rest =>
             if negb (Dom.isElement child) || inList (Dom.tagName child) skippedTags
             then loop rest components componentIndex cursor maxEnd
             else
               match isContainerTag (Dom.tagName child) with
               | Some childFlow =>
                   childTiming ← parseContainerTiming child ctx;
                   let childStart := Num.add containerStart (cStartSec childTiming) in
                   nested ← parseContainerChildren child ctx componentIndex
                              (match flow with Sequence => cursor | Stack => childStart end)
                              childFlow cascadedStyles cascadedMarkup;
                   match flow with
                   | Sequence =>
                       loop rest (components ++ crComponents nested)%list
                         (crComponentIndex nested)
                         (default cursor (crMaxEnd nested)) maxEnd
                   | Stack =>
                       loop rest (components ++ crComponents nested)%list
                         (crComponentIndex nested) cursor
                         (match (crMaxEnd nested) with
                          | Some e => maxOpt maxEnd e
                          | None => maxEnd
                          end)
                   end
               | None =>
                   startOffset ← timeAttr child "start" ctx;
                   endOffset ← timeAttr child "end" ctx;
                   durationValue ← timeAttr child "duration" ctx;
                   let baseStart := match flow with Sequence => cursor | Stack => containerStart end in
                   let childStart := Num.add baseStart (default (Num.of_Z 0) startOffset) in
                   let childEnd :=
                     match durationValue, endOffset, flow with
                     | Some d, _, _ => Some (Num.add childStart d)
                     | None, Some e, _ => Some (Num.add containerStart e)
                     | None, None, Sequence =>
                         Some (Num.add childStart DEFAULT_SEQUENCE_CHILD_SECONDS)
                     | None, None, Stack => None
                     end in
                   let timingOverride := {| startSec := Some childStart; endSec := childEnd |} in
                   parsed ← parseComponentElement child ctx componentIndex (Some timingOverride);
                   let parsedComponent :=
                     {| compId := compId parsed;
                        compType := compType parsed;
                        compProps := compProps parsed;
                        compTiming := compTiming parsed;
                        compVisible := compVisible parsed;
                        compZIndex := compZIndex parsed;
                        compStyles := mergeCascaded cascadedStyles (compStyles parsed);
                        compMarkup := mergeCascaded cascadedMarkup (compMarkup parsed) |} in
                   match flow with
                   | Sequence =>
                       loop rest (components ++ [parsedComponent])%list (S componentIndex)
                         (default cursor childEnd) maxEnd
                   | Stack =>
                       loop rest (components ++ [parsedComponent])%list (S componentIndex) cursor
                         (match childEnd with
                          | Some e => maxOpt maxEnd e
                          | None => maxEnd
                          end)
                   end
               end
         end) nodes [] componentIndex containerStart None
  end.

(** The body shared by the two places of [loadVideoFileFromXml] that handle
    a child which is neither a cue, a pause nor a layer: a container spreads
    its components, any other tag is one component. *)
Definition parseComponentOrContainer (child : Node) (ctx : TimeEvalContext) (componentIndex : nat)
    : result (list Component * nat) :=
  match isContainerTag (Dom.tagName child) with
  | Some flow =>
      containerTiming ← parseContainerTiming child ctx;
      parsed ← parseContainerChildren child ctx componentIndex (cStartSec containerTiming)
                 flow None None;
      Ok (crComponents parsed, crComponentIndex parsed)
  | None =>
      c ← parseComponentElement child ctx componentIndex None;
      Ok ([c], S componentIndex)
  end.

Fixpoint parseLayerChildren (cs : list Node) (ctx : TimeEvalContext)
    (layerComponents : list Component) (layerComponentIndex : nat) : result (list Component) :=
  match cs with
  | [] => Ok layerComponents
  | layerChild :: rest =>
      if inList (Dom.tagName layerChild) skippedTags
      then parseLayerChildren rest ctx layerComponents layerComponentIndex
      else
        '(cs', idx) ← parseComponentOrContainer layerChild ctx layerComponentIndex;
        parseLayerChildren rest ctx (layerComponents ++ cs')%list idx
  end.

Definition parseLayer (child : Node) (ctx : TimeEvalContext) : result Layer :=
  match attrIf child "id" with
  | None => fail "layer requires id."
  | Some layerId =>
      layerTiming ← parseTiming child ctx;
      layerComponents ← parseLayerChildren (Dom.children child) ctx [] 0;
      styles ← jsonAttr child "styles";
      markup ← jsonAttr child "markup";
      Ok {| layerId := layerId;
            layerTiming := layerTiming;
            layerVisible := visibleAttr child;
            layerZIndex := zAttr child;
            layerStyles := styles;
            layerMarkup := markup;
            layerComponents := layerComponents |}
  end.

(** *** The fixed-point loop of [loadVideoFileFromXml] *)

Record SceneTime : Type := { timeStart : option number; timeEnd : option number }.

Record SceneData : Type := {
  sceneId : string;
  sceneTitle : string;
  sceneTime : option SceneTime;
  sceneStyles : option Json;
  sceneMarkup : option Json;
  sceneItems : list Item;
  sceneLayers : option (list Layer);
  sceneComponents : option (list Component);
}.

(** The variables that the loop and the closures of the evaluation context
    share: [scenes] is the array that is filled by index, [pending] the
    [Set] of indices in its insertion order. *)
Record ResolverState : Type := {
  scenes : gmap nat SceneData;
  cueIds : gset string;
  sceneStartIndex : gmap string number;
  sceneEndIndex : gmap string number;
  cueStartIndex : gmap string number;
  pending : list nat;
  passes : nat;
}.

Definition initialState (sceneCount : nat) : ResolverState :=
  {| scenes := ∅; cueIds := ∅; sceneStartIndex := ∅; sceneEndIndex := ∅;
     cueStartIndex := ∅; pending := seq 0 sceneCount; passes := 0 |}.

Definition baseCtx (fps : number) : TimeEvalContext :=
  {| TimeExpr.fps := fps;
     getSceneStart := fun _ => None;
     getSceneEnd := fun _ => None;
     getCueStart := fun _ => None;
     getPrevStart := None;
     getPrevEnd := None;
     getNextStart := None |}.

Section Loop.
Variable fps : number.
Variable sceneElements : list Node.

(** The context built for the scene at [index]; its closures read the
    indices as they are at the time of the call. *)
Definition sceneCtx (st : ResolverState) (index : nat) : TimeEvalContext :=
  let prev := match index with
              | O => None
              | S i => scenes st !! i
              end in
  let next := sceneElements !! (index + 1)%nat in
  {| TimeExpr.fps := fps;
     getSceneStart := fun sceneId => sceneStartIndex st !! sceneId;
     getSceneEnd := fun sceneId => sceneEndIndex st !! sceneId;
     getCueStart := fun cueId => cueStartIndex st !! cueId;
     getPrevStart := p ← prev; sceneStartIndex st !! sceneId p;
     getPrevEnd := p ← prev; sceneEndIndex st !! sceneId p;
     getNextStart := n ← next; nextId ← attrIf n "id"; sceneStartIndex st !! nextId |}.

(** [cueIds.add(cue.id)] and, when the cue has a start,
    [cueStartIndex.set(cue.id, cue.time.start)]. *)
Definition registerCue (st : ResolverState) (cue : Cue) : ResolverState :=
  {| scenes := scenes st;
     cueIds := {[ cueId cue ]} ∪ cueIds st;
     sceneStartIndex := sceneStartIndex st;
     sceneEndIndex := sceneEndIndex st;
     cueStartIndex :=
       match cueTime cue with
       | Some t => <[ cueId cue := rangeStart t ]> (cueStartIndex st)
       | None => cueStartIndex st
       end;
     pending := pending st;
     passes := passes st |}.

Definition errDuplicateCue (id : string) : Thrown :=
  Error ("Duplicate cue id across scenes: " +:+ Str.quoted id +:+ ".").

Record SceneAcc : Type := {
  accItems : list Item;
  accLayers : list Layer;
  accComponents : list Component;
  accComponentIndex : nat;
}.

(** The loop over the children of a scene.  The state comes back whether
    the loop ends or throws: what it has registered stays registered. *)
Fixpoint sceneChildren (index : nat) (cs : list Node) (st : ResolverState) (acc : SceneAcc)
    : ResolverState * result SceneAcc :=
  match cs with
  | [] => (st, Ok acc)
  | child :: rest =>
      let ctx := sceneCtx st index in
      let tag := Dom.tagName child in
      if String.eqb tag "cue" then
        match parseCue child ctx with
        | Throw e => (st, Throw e)
        | Ok cue =>
            if bool_decide (cueId cue ∈ cueIds st) then (st, Throw (errDuplicateCue (cueId cue)))
            else sceneChildren index rest (registerCue st cue)
                   {| accItems := accItems acc ++ [ItemCue cue];
                      accLayers := accLayers acc;
                      accComponents := accComponents acc;
                      accComponentIndex := accComponentIndex acc |}
        end
      else if String.eqb tag "pause" then
        match parsePause child ctx with
        | Throw e => (st, Throw e)
        | Ok pause =>
            sceneChildren index rest st
              {| accItems := accItems acc ++ [ItemPause pause];
                 accLayers := accLayers acc;
                 accComponents := accComponents acc;
                 accComponentIndex := accComponentIndex acc |}
        end
      else if String.eqb tag "layer" then
        match parseLayer child ctx with
        | Throw e => (st, Throw e)
        | Ok layer =>
            sceneChildren index rest st
              {| accItems := accItems acc;
                 accLayers := accLayers acc ++ [layer];
                 accComponents := accComponents acc;
                 accComponentIndex := accComponentIndex acc |}
        end
      else
        match parseComponentOrContainer child ctx (accComponentIndex acc) with
        | Throw e => (st, Throw e)
        | Ok (cs', idx) =>
            sceneChildren index rest st
              {| accItems := accItems acc;
                 accLayers := accLayers acc;
                 accComponents := accComponents acc ++ cs';
                 accComponentIndex := idx |}
        end
  end.

Definition nonEmpty {A} (l : list A) : option (list A) :=
  match l with
  | [] => None
  | _ => Some l
  end.

(** The body of the [try] block up to the construction of [sceneData]. *)
Definition sceneBody (st : ResolverState) (index : nat) (sceneEl : Node)
    : ResolverState * result SceneData :=
  match attrIf sceneEl "id" with
  | None => (st, fail "scene requires id.")
  | Some sceneId =>
      match parseTiming sceneEl (sceneCtx st index) with
      | Throw e => (st, Throw e)
      | Ok sceneTiming =>
          let '(st', r) :=
            sceneChildren index (Dom.children sceneEl) st
              {| accItems := []; accLayers := []; accComponents := []; accComponentIndex := 0 |} in
          (st',
           acc ← r;
           styles ← jsonAttr sceneEl "styles";
           markup ← jsonAttr sceneEl "markup";
           Ok {| sceneId := sceneId;
                 sceneTitle := default sceneId (getAttr sceneEl "title");
                 sceneTime :=
                   (fun t => {| timeStart := startSec t; timeEnd := endSec t |}) <$> sceneTiming;
                 sceneStyles := styles;
                 sceneMarkup := markup;
                 sceneItems := accItems acc;
                 sceneLayers := nonEmpty (accLayers acc);
                 sceneComponents := nonEmpty (accComponents acc) |})
      end
  end.

Definition setOpt (key : string) (v : option number) (m : gmap string number) : gmap string number :=
  match v with
  | Some x => <[ key := x ]> m
  | None => m
  end.

(** The end of the [try] block: the scene is stored, its times are
    indexed and its index leaves [pending]. *)
Definition commitScene (st : ResolverState) (index : nat) (sceneData : SceneData) : ResolverState :=
  {| scenes := <[ index := sceneData ]> (scenes st);
     cueIds := cueIds st;
     sceneStartIndex :=
       setOpt (sceneId sceneData) (t ← sceneTime sceneData; timeStart t) (sceneStartIndex st);
     sceneEndIndex :=
       setOpt (sceneId sceneData) (t ← sceneTime sceneData; timeEnd t) (sceneEndIndex st);
     cueStartIndex := cueStartIndex st;
     pending := filter (fun i => i ≠ index) (pending st);
     passes := passes st |}.

Definition errUndefinedScene : Thrown := Error "TypeError: sceneElements[index] is undefined".

(** One pass: the [for] loop over the snapshot [Array.from(pending)].  A
    [MissingTimeReferenceError] is caught and the scene stays pending; any
    other exception leaves the function. *)
Fixpoint resolvePass (snapshot : list nat) (st : ResolverState) (progressed : bool)
    : result (ResolverState * bool) :=
  match snapshot with
  | [] => Ok (st, progressed)
  | index :: rest =>
      match sceneElements !! index with
      | None => Throw errUndefinedScene
      | Some sceneEl =>
          match sceneBody st index sceneEl with
          | (st', Ok sceneData) => resolvePass rest (commitScene st' index sceneData) true
          | (st', Throw (MissingTimeReferenceError _)) => resolvePass rest st' progressed
          | (_, Throw err) => Throw err
          end
      end
  end.

Definition addPass (st : ResolverState) : ResolverState :=
  {| scenes := scenes st; cueIds := cueIds st;
     sceneStartIndex := sceneStartIndex st; sceneEndIndex := sceneEndIndex st;
     cueStartIndex := cueStartIndex st; pending := pending st;
     passes := S (passes st) |}.

Fixpoint joinWith (sep : string) (l : list string) : string :=
  match l with
  | [] => ""
  | [x] => x
  | x :: r => x +:+ sep +:+ joinWith sep r
  end.

Definition unresolvedName (idx : nat) : string :=
  match sceneElements !! idx with
  | Some el => default ("scene#" +:+ pretty idx) (getAttr el "id")
  | None => "scene#" +:+ pretty idx
  end.

Definition errUnresolved (pending : list nat) : Thrown :=
  Error ("Unresolved time references for scenes: " +:+ joinWith ", " (unresolvedName <$> pending)).

Definition errNotConverged : Thrown := Error "Time resolution did not converge.".

(** The [while (pending.size > 0)] loop.  [fuel] bounds the number of
    passes; [None] is returned only when it runs out (it does not:
    [ResolverFacts.loop_exit]). *)
Fixpoint resolveLoop (fuel : nat) (st : ResolverState) : option (result ResolverState) :=
  match pending st with
  | [] => Some (Ok st)
  | _ :: _ =>
      match fuel with
      | O => None
      | S fuel' =>
          match resolvePass (pending st) st false with
          | Throw err => Some (Throw err)
          | Ok (st', progressed) =>
              let st'' := addPass st' in
              if negb progressed then Some (Throw (errUnresolved (pending st'')))
              else if (length sceneElements + 2 <? passes st'')%nat then Some (Throw errNotConverged)
              else resolveLoop fuel' st''
          end
      end
  end.

End Loop.

(** *** [loadVideoFileFromXml] *)

Record Voiceover : Type := {
  voProvider : option string;
  voVoice : option string;
  voModel : option string;
  voFormat : option string;
  voSampleRateHz : option number;
  voSeed : option number;
  voLeadInSeconds : option number;
  voTrimEndSeconds : option number;
}.

Record Composition : Type := {
  compositionId : string;
  compositionTitle : option string;
  metaFps : number;
  metaWidth : number;
  metaHeight : number;
  metaDurationSeconds : option number;
  posterTime : option number;
  voiceover : option Voiceover;
  compositionScenes : list SceneData;
}.


(** [parseNumber(getAttr(root, name) ?? "") ?? fallback] *)
Definition numberAttrOr (root : Node) (name : string) (fallback : number) : number :=
  default fallback (parseNumber (Some (default "" (getAttr root name)))).

Fixpoint parseVoiceover (cs : list Node) (fps : number) (voiceover : option Voiceover)
    : result (option Voiceover) :=
  match cs with
  | [] => Ok voiceover
  | el :: rest =>
      if String.eqb (Dom.tagName el) "voiceover" then
        leadIn ← timeAttr el "leadInSeconds" (baseCtx fps);
        trimEnd ← timeAttr el "trimEndSeconds" (baseCtx fps);
        parseVoiceover rest fps
          (Some {| voProvider := getAttr el "provider";
                   voVoice := getAttr el "voice";
                   voModel := getAttr el "model";
                   voFormat := getAttr el "format";
                   voSampleRateHz := parseNumber (getAttr el "sampleRateHz");
                   voSeed := parseNumber (getAttr el "seed");
                   voLeadInSeconds := leadIn;
                   voTrimEndSeconds := trimEnd |})
      else parseVoiceover rest fps voiceover
  end.

(** The scenes array once every index is filled. *)
Definition scenesArray (st : ResolverState) (sceneCount : nat) : list SceneData :=
  omap (fun i => scenes st !! i) (seq 0 sceneCount).

(** The resolution loop from its initial state, with fuel for one pass more
    than there are scenes. *)
Definition resolveScenes (fps : number) (sceneElements : list Node) : result ResolverState :=
  match resolveLoop fps sceneElements (S (length sceneElements))
          (initialState (length sceneElements)) with
  | Some r => r
  | None => Throw errNotConverged
  end.

Definition loadVideoFileFromXml (root : Node) : result Composition :=
  if negb (inList (Dom.tagName root) allowedRoots) then Throw errRoot
  else
    let fps := numberAttrOr root "fps" (Num.of_Z 30) in
    let width := numberAttrOr root "width" (Num.of_Z 1280) in
    let height := numberAttrOr root "height" (Num.of_Z 720) in
    match attrIf root "id" with
    | None => fail "vml requires id."
    | Some id =>
        durationSeconds ← timeAttr root "duration" (baseCtx fps);
        posterTime ← timeAttr root "poster" (baseCtx fps);
        let sceneElements := sceneElementsOf root in
        st ← resolveScenes fps sceneElements;
        voiceover ← parseVoiceover (Dom.children root) fps None;
        match sceneElements with
        | [] => fail "vml requires at least one scene."
        | _ =>
            Ok {| compositionId := id;
                  compositionTitle := getAttr root "title";
                  metaFps := fps;
                  metaWidth := width;
                  metaHeight := height;
                  metaDurationSeconds := durationSeconds;
                  posterTime := posterTime;
                  voiceover := voiceover;
                  compositionScenes := scenesArray st (length sceneElements) |}
        end
    end.

End Resolver.
End Xml.

(** ** Structural patches ([xml.ts], [applyVomPatchesInBrowser])

    An element of the live document is addressed by its path: the indices,
    among the child nodes, that lead to it from the root element. *)

Module Patch.

Inductive VomPatchInput : Type :=
| AppendNode (parentId : string) (nodeXml : list Node) (index : option nat)
| RemoveNode (nodeId : string)
| SetAttr (nodeId : string) (name : string) (value : option string)
| SetText (nodeId : string) (textContent : string)
| ReplaceSubtree (nodeId : string) (nodeXml : list Node)
| SealScene (sceneId : string).

(** [nodeXml] is the text of a fragment; the model takes what [DOMParser]
    makes of it inside the [<root>] wrapper: the child nodes of the wrapper. *)

Definition Path : Type := list nat.

(** [root] is the element that the function has taken from the document at
    the start; [replaced] tells whether it still is the document element
    ([None]) or what the document holds since it was removed or replaced. *)
Record Doc : Type := {
  root : Node;
  replaced : option (option Node);
}.

Definition documentElement (d : Doc) : option Node :=
  match replaced d with
  | None => Some (root d)
  | Some r => r
  end.

Fixpoint nodeAt (n : Node) (p : Path) : option Node :=
  match p with
  | [] => Some n
  | i :: p' =>
      match n with
      | Element _ _ cs => c ← cs !! i; nodeAt c p'
      | Text _ => None
      end
  end.

(** The nodes from [n] down to the node at [p], both included. *)
Fixpoint nodesAlong (n : Node) (p : Path) : list Node :=
  match p with
  | [] => [n]
  | i :: p' =>
      match n with
      | Element _ _ cs =>
          match cs !! i with
          | Some c => n :: nodesAlong c p'
          | None => [n]
          end
      | Text _ => [n]
      end
  end.

Fixpoint updateAt (f : Node -> Node) (n : Node) (p : Path) {struct p} : Node :=
  match p with
  | [] => f n
  | i :: p' =>
      match n with
      | Element t a cs => Element t a (alter (fun c => updateAt f c p') i cs)
      | Text _ => n
      end
  end.

(** [walk] visits the elements in document order; [findById] keeps the
    first element whose [id] attribute is the one asked for. *)
Fixpoint findPath (id : string) (n : Node) : option Path :=
  match n with
  | Text _ => None
  | Element _ attrs cs =>
      if bool_decide (Dom.lookupAttr "id" attrs = Some id) then Some []
      else
        (fix first (cs : list Node) (i : nat) : option Path :=
           match cs with
           | [] => None
           | c :: rest =>
               match findPath id c with
               | Some p => Some (i :: p)
               | None => first rest (S i)
               end
           end) cs 0
  end.

Definition findById (d : Doc) (id : string) : option Path := findPath id (root d).

Definition isScene (n : Node) : bool :=
  Dom.isElement n && String.eqb (Dom.tagName n) "scene".

(** The nearest element named [scene] from the node at [p] upwards. *)
Definition findSceneAncestor (d : Doc) (p : Path) : option Node :=
  find isScene (rev (nodesAlong (root d) p)).

(** [scene.getAttribute("sealed") ?? scene.getAttribute("data-sealed")] is
    the string [true]. *)
Definition sealedAttr (scene : Node) : bool :=
  match Dom.getAttribute scene "sealed" with
  | Some v => String.eqb v "true"
  | None =>
      match Dom.getAttribute scene "data-sealed" with
      | Some v => String.eqb v "true"
      | None => false
      end
  end.

Definition errSealed (scene : Node) : Thrown :=
  Error ("Cannot patch sealed scene "
         +:+ Str.quoted (default "unknown" (Dom.getAttribute scene "id")) +:+ ".").

Definition assertNotSealed (enforceSealed : bool) (d : Doc) (p : Path) : option Thrown :=
  if negb enforceSealed then None
  else
    match findSceneAncestor d p with
    | None => None
    | Some scene => if sealedAttr scene then Some (errSealed scene) else None
    end.

Definition parseFragment (nodeXml : list Node) : result Node :=
  match find Dom.isElement nodeXml with
  | Some first => Ok first
  | None => Throw (Error "nodeXml must contain a single root element.")
  end.

(** *** DOM mutations *)

Fixpoint setAttrList (name value : string) (attrs : list (string * string)) : list (string * string) :=
  match attrs with
  | [] => [(name, value)]
  | (k, v) :: r => if String.eqb k name then (k, value) :: r else (k, v) :: setAttrList name value r
  end.

(** [setAttribute] on a name that the DOM accepts ([PatchSpec.plainName]
    names are); the [InvalidCharacterError] of the other names is outside
    the model. *)
Definition setAttribute (name value : string) (n : Node) : Node :=
  match n with
  | Element t a cs => Element t (setAttrList name value a) cs
  | Text _ => n
  end.

Definition removeAttribute (name : string) (n : Node) : Node :=
  match n with
  | Element t a cs => Element t (filter (fun kv => kv.1 ≠ name) a) cs
  | Text _ => n
  end.

Definition setTextContent (text : string) (n : Node) : Node :=
  match n with
  | Element t a _ => Element t a (if String.eqb text "" then [] else [Text text])
  | Text _ => n
  end.

(** The position, among the child nodes, of the [k]-th child element. *)
Fixpoint elementPosition (cs : list Node) (k : nat) (pos : nat) : option nat :=
  match cs with
  | [] => None
  | c :: rest =>
      if Dom.isElement c then
        match k with
        | O => Some pos
        | S k' => elementPosition rest k' (S pos)
        end
      else elementPosition rest k (S pos)
  end.

Definition insertChild (new : Node) (index : option nat) (n : Node) : Node :=
  match n with
  | Element t a cs =>
      match index ≫= fun k => elementPosition cs k 0 with
      | Some pos => Element t a (take pos cs ++ new :: drop pos cs)
      | None => Element t a (cs ++ [new])
      end
  | Text _ => n
  end.

Definition splitLast (p : Path) : option (Path * nat) :=
  match rev p with
  | [] => None
  | i :: r => Some (rev r, i)
  end.

Definition removeChildAt (i : nat) (n : Node) : Node :=
  match n with
  | Element t a cs => Element t a (delete i cs)
  | Text _ => n
  end.

Definition replaceChildAt (i : nat) (new : Node) (n : Node) : Node :=
  match n with
  | Element t a cs => Element t a (<[ i := new ]> cs)
  | Text _ => n
  end.

Definition withRoot (d : Doc) (r : Node) : Doc := {| root := r; replaced := replaced d |}.

Definition errNotFound (op what id : string) : Thrown :=
  Error (op +:+ ": " +:+ what +:+ " " +:+ Str.quoted id +:+ " not found.").

(** One iteration of the [for (const patch of patches)] loop: the document
    as the iteration leaves it, and the exception if it throws. *)
Definition applyPatch (enforceSealed : bool) (d : Doc) (patch : VomPatchInput) : Doc * option Thrown :=
  match patch with
  | AppendNode parentId nodeXml index =>
      match findById d parentId with
      | None => (d, Some (errNotFound "appendNode" "parent" parentId))
      | Some parent =>
          match assertNotSealed enforceSealed d parent with
          | Some err => (d, Some err)
          | None =>
              match parseFragment nodeXml with
              | Throw err => (d, Some err)
              | Ok newNode => (withRoot d (updateAt (insertChild newNode index) (root d) parent), None)
              end
          end
      end
  | RemoveNode nodeId =>
      match findById d nodeId with
      | None => (d, Some (errNotFound "removeNode" "node" nodeId))
      | Some target =>
          match splitLast target, replaced d with
          | None, Some _ => (d, Some (errNotFound "removeNode" "node" nodeId))
          | None, None =>
              match assertNotSealed enforceSealed d target with
              | Some err => (d, Some err)
              | None => ({| root := root d; replaced := Some None |}, None)
              end
          | Some (parentNode, i), _ =>
              match assertNotSealed enforceSealed d target with
              | Some err => (d, Some err)
              | None => (withRoot d (updateAt (removeChildAt i) (root d) parentNode), None)
              end
          end
      end
  | SetAttr nodeId name value =>
      match findById d nodeId with
      | None => (d, Some (errNotFound "setAttr" "node" nodeId))
      | Some target =>
          match assertNotSealed enforceSealed d target with
          | Some err => (d, Some err)
          | None =>
              (withRoot d
                 (updateAt (match value with
                            | None => removeAttribute name
                            | Some v => setAttribute name v
                            end) (root d) target), None)
          end
      end
  | SetText nodeId textContent =>
      match findById d nodeId with
      | None => (d, Some (errNotFound "setText" "node" nodeId))
      | Some target =>
          match assertNotSealed enforceSealed d target with
          | Some err => (d, Some err)
          | None => (withRoot d (updateAt (setTextContent textContent) (root d) target), None)
          end
      end
  | ReplaceSubtree nodeId nodeXml =>
      match findById d nodeId with
      | None => (d, Some (errNotFound "replaceSubtree" "node" nodeId))
      | Some target =>
          match splitLast target, replaced d with
          | None, Some _ => (d, Some (errNotFound "replaceSubtree" "node" nodeId))
          | parent, _ =>
              match assertNotSealed enforceSealed d target with
              | Some err => (d, Some err)
              | None =>
                  match parseFragment nodeXml with
                  | Throw err => (d, Some err)
                  | Ok newNode =>
                      match parent with
                      | None => ({| root := root d; replaced := Some (Some newNode) |}, None)
                      | Some (parentNode, i) =>
                          (withRoot d (updateAt (replaceChildAt i newNode) (root d) parentNode), None)
                      end
                  end
              end
          end
      end
  | SealScene sceneId =>
      match findById d sceneId with
      | None => (d, Some (errNotFound "sealScene" "scene" sceneId))
      | Some scene =>
          if negb (String.eqb (default "" (Dom.tagName <$> nodeAt (root d) scene)) "scene")
          then (d, Some (errNotFound "sealScene" "scene" sceneId))
          else (withRoot d (updateAt (setAttribute "sealed" "true") (root d) scene), None)
      end
  end.

Fixpoint applyPatches (enforceSealed : bool) (d : Doc) (patches : list VomPatchInput)
    : Doc * option Thrown :=
  match patches with
  | [] => (d, None)
  | patch :: rest =>
      match applyPatch enforceSealed d patch with
      | (d', None) => applyPatches enforceSealed d' rest
      | (d', Some err) => (d', Some err)
      end
  end.

(** The id that a structural patch addresses; [sealScene] is not one. *)
Definition targetId (patch : VomPatchInput) : option string :=
  match patch with
  | AppendNode parentId _ _ => Some parentId
  | RemoveNode nodeId => Some nodeId
  | SetAttr nodeId _ _ => Some nodeId
  | SetText nodeId _ => Some nodeId
  | ReplaceSubtree nodeId _ => Some nodeId
  | SealScene _ => None
  end.

(** The node at [p] is a sealed scene or lies below one. *)
Definition insideSealedScene (d : Doc) (p : Path) : Prop :=
  exists scene, scene ∈ nodesAlong (root d) p /\ isScene scene = true /\ sealedAttr scene = true.

(** [applyVomPatchesInBrowser] on the parsed document: the document that is
    serialised at the end, or the exception. *)
Definition applyVomPatchesInBrowser (xmlRoot : Node) (patches : list VomPatchInput)
    (enforceSealed : bool) : result (option Node) :=
  if negb (Xml.inList (Dom.tagName xmlRoot) Xml.allowedRoots) then Throw Xml.errRoot
  else
    match applyPatches enforceSealed {| root := xmlRoot; replaced := None |} patches with
    | (d, None) => Ok (documentElement d)
    | (_, Some err) => Throw err
    end.

End Patch.

(** ** The clock of [runtime.ts] ([createTimeline]) *)

Module Timeline.

Inductive ClockMode : Type := Bounded | Live.

Record Config : Type := {
  fps : number;
  clockMode : ClockMode;
  loop : bool;
  duration : option number;
}.

(** The variables of the closure.  [raf] tells whether the variable holds
    a handle; [requested] whether the browser holds a frame callback for
    [tick] ([requestAnimationFrame] puts one, [cancelAnimationFrame] and
    the call itself take it away). *)
Record State : Type := {
  raf : bool;
  lastTs : option number;
  running : bool;
  frame : number;
  time : number;
  requested : bool;
}.

Definition initial : State :=
  {| raf := false; lastTs := None; running := false;
     frame := Num.of_Z 0; time := Num.of_Z 0; requested := false |}.

(** The time after [delta] more seconds, and whether the clock goes on. *)
Definition advance (cfg : Config) (nextTime : number) : number * bool :=
  match clockMode cfg, duration cfg with
  | Bounded, Some duration =>
      if Num.ge nextTime duration then
        if loop cfg
        then (if Num.gt duration (Num.of_Z 0) then Num.rem nextTime duration else Num.of_Z 0, true)
        else (duration, false)
      else (nextTime, true)
  | _, _ => (nextTime, true)
  end.

(** [delta]: the seconds since the previous tick, zero at the first tick
    after a start. *)
Definition delta (s : State) (ts : number) : number :=
  Num.div (Num.sub ts (default ts (lastTs s))) (Num.of_Z 1000).

(** [tick(ts)]: the new state and the time handed to the subscribers, if
    they are called. *)
Definition tick (cfg : Config) (s : State) (ts : number) : State * option number :=
  if negb (running s) then (s, None)
  else
    let '(nextTime, goesOn) := advance cfg (Num.add (time s) (delta s ts)) in
    ({| raf := if goesOn then true else raf s;
        lastTs := Some ts;
        running := goesOn;
        frame := Num.floor (Num.mul nextTime (fps cfg));
        time := nextTime;
        requested := if goesOn then true else requested s |},
     Some nextTime).

(** The browser runs the frame callback, if one is requested. *)
Definition animationFrame (cfg : Config) (s : State) (ts : number) : State * option number :=
  if requested s then
    tick cfg {| raf := raf s; lastTs := lastTs s; running := running s;
                frame := frame s; time := time s; requested := false |} ts
  else (s, None).

Definition start (s : State) : State :=
  if running s then s
  else {| raf := true; lastTs := None; running := true;
          frame := frame s; time := time s; requested := true |}.

Definition stop (s : State) : State :=
  {| raf := false; lastTs := None; running := false;
     frame := frame s; time := time s;
     requested := if raf s then false else requested s |}.

(** A run of frame callbacks at the given timestamps: the final state and
    the times handed to the subscribers, in order. *)
Fixpoint frames (cfg : Config) (s : State) (stamps : list number) : State * list number :=
  match stamps with
  | [] => (s, [])
  | ts :: rest =>
      let '(s', out) := animationFrame cfg s ts in
      let '(s'', outs) := frames cfg s' rest in
      (s'', match out with Some t => t :: outs | None => outs end)
  end.

End Timeline.

(** ** [createTimeline] in binary64

    The same closure with the numbers as the engine has them: IEEE 754
    doubles, which are Rocq's primitive floats.  [+], [-], [*], [/] and the
    comparisons are the primitive operations; [%] and [Math.floor] are
    computed on the mantissa and the exponent, and are exact. *)

Module Double.
Import PrimFloat SpecFloat FloatOps.

Definition ge (a b : float) : bool := PrimFloat.leb b a.
Definition gt (a b : float) : bool := PrimFloat.ltb b a.

(** [a % b]: NaN when [a] is not finite or [b] is zero, [a] when [b] is
    infinite or [a] is zero; else the remainder of the truncated division,
    with the sign of [a]. *)
Definition rem (a b : float) : float :=
  match Prim2SF a, Prim2SF b with
  | S754_nan, _ | _, S754_nan => nan
  | S754_infinity _, _ => nan
  | _, S754_zero _ => nan
  | S754_zero _, _ => a
  | S754_finite _ _ _, S754_infinity _ => a
  | S754_finite sa ma ea, S754_finite _ mb eb =>
      let e := Z.min ea eb in
      let x := (Zpos ma * 2 ^ (ea - e))%Z in
      let y := (Zpos mb * 2 ^ (eb - e))%Z in
      match (x mod y)%Z with
      | Zpos r => SF2Prim (S754_finite sa r e)
      | _ => if sa then neg_zero else zero
      end
  end.

(** [Math.floor] *)
Definition floor (a : float) : float :=
  match Prim2SF a with
  | S754_finite s m e =>
      if (0 <=? e)%Z then a
      else
        let d := (2 ^ (- e))%Z in
        match (if s then (Zpos m + d - 1) / d else Zpos m / d)%Z with
        | Zpos p => SF2Prim (S754_finite s p 0)
        | _ => if s then neg_zero else zero
        end
  | _ => a
  end.

End Double.

Module Timeline64.
Import PrimFloat.

Record Config : Type := {
  fps : float;
  clockMode : Timeline.ClockMode;
  loop : bool;
  duration : option float;
}.

Record State : Type := {
  raf : bool;
  lastTs : option float;
  running : bool;
  frame : float;
  time : float;
  requested : bool;
}.

Definition initial : State :=
  {| raf := false; lastTs := None; running := false;
     frame := 0%float; time := 0%float; requested := false |}.

Definition advance (cfg : Config) (nextTime : float) : float * bool :=
  match clockMode cfg, duration cfg with
  | Timeline.Bounded, Some duration =>
      if Double.ge nextTime duration then
        if loop cfg
        then (if Double.gt duration 0%float then Double.rem nextTime duration else 0%float, true)
        else (duration, false)
      else (nextTime, true)
  | _, _ => (nextTime, true)
  end.

Definition delta (s : State) (ts : float) : float :=
  PrimFloat.div (PrimFloat.sub ts (default ts (lastTs s))) 1000%float.

Definition tick (cfg : Config) (s : State) (ts : float) : State * option float :=
  if negb (running s) then (s, None)
  else
    let '(nextTime, goesOn) := advance cfg (PrimFloat.add (time s) (delta s ts)) in
    ({| raf := if goesOn then true else raf s;
        lastTs := Some ts;
        running := goesOn;
        frame := Double.floor (PrimFloat.mul nextTime (fps cfg));
        time := nextTime;
        requested := if goesOn then true else requested s |},
     Some nextTime).

Definition animationFrame (cfg : Config) (s : State) (ts : float) : State * option float :=
  if requested s then
    tick cfg {| raf := raf s; lastTs := lastTs s; running := running s;
                frame := frame s; time := time s; requested := false |} ts
  else (s, None).

Fixpoint frames (cfg : Config) (s : State) (stamps : list float) : State * list float :=
  match stamps with
  | [] => (s, [])
  | ts :: rest =>
      let '(s', out) := animationFrame cfg s ts in
      let '(s'', outs) := frames cfg s' rest in
      (s'', match out with Some t => t :: outs | None => outs end)
  end.

(** A bounded clock of [d] seconds at 30 frames per second, and a running
    state at time [t] whose previous tick was at [last] ms. *)
Definition bounded (loops : bool) (d : float) : Config :=
  {| fps := 30%float; clockMode := Timeline.Bounded; loop := loops; duration := Some d |}.
Definition runningAt (t last : float) : State :=
  {| raf := true; lastTs := Some last; running := true;
     frame := Double.floor (PrimFloat.mul t 30%float); time := t; requested := true |}.

(** The double that the literal [0.6] denotes. *)
Definition sixTenths : float := 0x1.3333333333333p-1%float.

End Timeline64.

(** ** Scene timings and the tick handler of [runtime.ts] *)

Module Runtime.

Abbreviation Handle := (list nat).

(** [parseTimeSeconds]: the three patterns
    [/^([0-9]*\\.?[0-9]+)ms$/], [.. s$/] and [.. f$/] read, as they are
    written: digits, a backslash, optionally any character, one or more
    digits, the suffix. *)
Definition stripSuffix (suffix l : list ascii) : option (list ascii) :=
  let n := (length l - length suffix)%nat in
  if bool_decide (drop n l = suffix) then Some (take n l) else None.

Definition afterBackslash (x : list ascii) : bool :=
  match x with
  | [] => false
  | c :: ds =>
      forallb Str.isDigit x
      || (negb (Xml.isLineTerminator c) && negb (bool_decide (ds = [])) && forallb Str.isDigit ds)
  end.

Definition timePattern (suffix : string) (value : list ascii) : option (list ascii) :=
  let '(pre, r) := Str.span Str.isDigit value in
  match r with
  | c :: r' =>
      if Ascii.eqb c Str.backslash then
        x ← stripSuffix (Str.chars suffix) r';
        if afterBackslash x then Some (pre ++ c :: x)%list else None
      else None
  | [] => None
  end.

Definition parseTimeSeconds (raw : option string) (fps : number) : option number :=
  match raw with
  | None => None
  | Some raw =>
      let value := Str.trimChars (Str.chars raw) in
      match value with
      | [] => None
      | _ =>
          match timePattern "ms" value with
          | Some g => Some (Num.div (Str.parseFloatChars g) (Num.of_Z 1000))
          | None =>
              match timePattern "s" value with
              | Some g => Some (Str.parseFloatChars g)
              | None =>
                  match timePattern "f" value with
                  | Some g => Some (Num.div (Str.parseFloatChars g) fps)
                  | None =>
                      let num := Str.parseFloatChars value in
                      if Num.isFinite num then Some num else None
                  end
              end
          end
      end
  end.

Definition timeSecondsAttr (el : Node) (name : string) (fps : number) : option number :=
  parseTimeSeconds (Dom.getAttribute el name) fps.

Definition lowerTag (el : Node) : string := Str.toLowerCase (Dom.tagName el).

Fixpoint elementDuration (el : Node) (fps : number) {struct el} : option number :=
  match timeSecondsAttr el "duration" fps with
  | Some durationAttr => Some durationAttr
  | None =>
      let startAttr := default (Num.of_Z 0) (timeSecondsAttr el "start" fps) in
      match timeSecondsAttr el "end" fps with
      | Some endAttr => Some (Num.max2 (Num.of_Z 0) (Num.sub endAttr startAttr))
      | None =>
          match el with
          | Text _ => None
          | Element _ _ nodes =>
              if bool_decide (Dom.children el = []) then None
              else if String.eqb (lowerTag el) "sequence" then
                (fix sequence (nodes : list Node) (cursor maxEnd : number) : option number :=
                   match nodes with
                   | [] => Some maxEnd
                   | child :: rest =>
                       if negb (Dom.isElement child) then sequence rest cursor maxEnd
                       else
                         let localStart := default cursor (timeSecondsAttr child "start" fps) in
                         match elementDuration child fps with
                         | None => None
                         | Some childDur =>
                             let localEnd := Num.add localStart childDur in
                             sequence rest localEnd
                               (if Num.gt localEnd maxEnd then localEnd else maxEnd)
                         end
                   end) nodes (Num.of_Z 0) (Num.of_Z 0)
              else
                (fix stack (nodes : list Node) (maxDur : option number) : option number :=
                   match nodes with
                   | [] => maxDur
                   | child :: rest =>
                       if negb (Dom.isElement child) then stack rest maxDur
                       else
                         let childStart :=
                           default (Num.of_Z 0) (timeSecondsAttr child "start" fps) in
                         match elementDuration child fps with
                         | None => None
                         | Some childDur =>
                             let localEnd := Num.add childStart childDur in
                             stack rest
                               (match maxDur with
                                | None => Some localEnd
                                | Some m => Some (if Num.gt localEnd m then localEnd else m)
                                end)
                         end
                   end) nodes None
          end
      end
  end.

(** [collectTimeScale]: the product of the usable [timeScale] attributes of
    the element and of its ancestors, nearest first. *)
Definition timeScaleOf (el : Node) : option number :=
  let raw := match Dom.getAttribute el "timeScale" with
             | Some r => Some r
             | None => Dom.getAttribute el "time-scale"
             end in
  match raw with
  | Some r =>
      if String.eqb r "" then None
      else
        let parsed := Str.parseFloat r in
        if Num.isFinite parsed && Num.gt parsed (Num.of_Z 0) then Some parsed else None
  | None => None
  end.

Definition collectTimeScale (el : Node) (ancestors : list Node) : number :=
  foldl (fun scale current =>
           match timeScaleOf current with
           | Some parsed => Num.mul scale parsed
           | None => scale
           end) (Num.of_Z 1) (el :: ancestors).

(** [el.querySelectorAll(name)] for a tag name: in a document that comes
    from the HTML parser the match does not depend on the case. *)
Definition querySelectorAll (el : Node) (here : Handle) (ancestors : list Node) (name : string)
    : list (Handle * Node * list Node) :=
  filter (fun d => lowerTag d.1.2 = name) (Dom.descendants el here ancestors).

Record SceneTiming : Type := {
  sceneId : string;
  sceneStart : number;
  sceneEnd : option number;
  sceneElement : Handle;
}.

Record CueTiming : Type := {
  cueId : string;
  cueStart : number;
  cueEnd : option number;
  cueElement : Handle;
}.

Record TimedElement : Type := {
  element : Handle;
  start : number;
  end_ : number;
}.

(** [computeTimedElements]: the timed elements below a scene, in the order
    in which [walk] pushes them. *)
Definition TIMING_TAG_EXCLUDE : list string := ["cue"; "voice"; "pause"; "bullet"].

Definition defaultChildDurationOf (container : Node) (fps : number) : number :=
  match timeSecondsAttr container "defaultChildDuration" fps with
  | Some d => d
  | None => default (Num.of_Z 1) (timeSecondsAttr container "default-child-duration" fps)
  end.

Definition isTimingContainer (tag : string) : bool :=
  Xml.inList tag ["sequence"; "stack"; "layer"; "scene"].

(** The window of a child of a container: its start, and its end when it
    has one. *)
Definition localStartOf (fps : number) (flow : Xml.Flow) (baseStart cursor : number)
    (child : Node) : number :=
  let startOffset := default (Num.of_Z 0) (timeSecondsAttr child "start" fps) in
  match flow with
  | Xml.Sequence => Num.add cursor startOffset
  | Xml.Stack => Num.add baseStart startOffset
  end.

Definition localEndOf (fps : number) (flow : Xml.Flow) (baseStart defaultChildDuration : number)
    (localStart : number) (child : Node) : option number :=
  match timeSecondsAttr child "duration" fps, timeSecondsAttr child "end" fps, flow with
  | Some d, _, _ => Some (Num.add localStart d)
  | None, Some e, _ => Some (Num.add baseStart e)
  | None, None, Xml.Sequence => Some (Num.add localStart defaultChildDuration)
  | None, None, Xml.Stack => None
  end.

Definition childFlowOf (flow : Xml.Flow) (tag : string) : Xml.Flow :=
  if String.eqb tag "sequence" then Xml.Sequence
  else if String.eqb tag "stack" then Xml.Stack else flow.

(** The loop of [walk] over the children of a container; [walk] itself
    is the argument [recurse]. *)
Fixpoint walkChildren (recurse : Node -> Handle -> number -> Xml.Flow -> list TimedElement)
    (fps : number) (here : Handle) (baseStart defaultChildDuration : number) (flow : Xml.Flow)
    (nodes : list Node) (i : nat) (cursor : number) {struct nodes} : list TimedElement :=
  match nodes with
  | [] => []
  | child :: rest =>
      let next := walkChildren recurse fps here baseStart defaultChildDuration flow rest (S i) in
      if negb (Dom.isElement child) || Xml.inList (lowerTag child) TIMING_TAG_EXCLUDE
      then next cursor
      else
        let tag := lowerTag child in
        let localStart := localStartOf fps flow baseStart cursor child in
        let localEnd := localEndOf fps flow baseStart defaultChildDuration localStart child in
        (match localEnd with
         | Some e => [ {| element := i :: here; start := localStart; end_ := e |} ]
         | None => []
         end)
        ++ (if isTimingContainer tag
            then recurse child (i :: here) localStart (childFlowOf flow tag)
            else [])
        ++ next (match flow with
                 | Xml.Sequence => default cursor localEnd
                 | Xml.Stack => cursor
                 end)
  end.

Fixpoint walk (fps : number) (container : Node) (here : Handle) (baseStart : number)
    (flow : Xml.Flow) {struct container} : list TimedElement :=
  match container with
  | Text _ => []
  | Element _ _ nodes =>
      walkChildren (walk fps) fps here baseStart (defaultChildDurationOf container fps) flow
        nodes 0%nat baseStart
  end.

Definition computeTimedElements (sceneEl : Node) (sceneHandle : Handle) (sceneStart fps : number)
    : list TimedElement :=
  walk fps sceneEl sceneHandle sceneStart Xml.Stack.

Definition cueTimingOf (fps start scale : number) (end_ : option number)
    (cue : Handle * Node * list Node) : option CueTiming :=
  match Xml.attrIf cue.1.2 "id" with
  | None => None
  | Some cueId =>
      let cueStartAttr := timeSecondsAttr cue.1.2 "start" fps in
      let cueDurationAttr := timeSecondsAttr cue.1.2 "duration" fps in
      let cueEndAttr := timeSecondsAttr cue.1.2 "end" fps in
      let cueStart :=
        match cueStartAttr, cueEndAttr, end_ with
        | Some s, _, _ => Some s
        | None, Some e, Some _ => Some (Num.max2 start (Num.sub e start))
        | None, _, _ => None
        end in
      match cueStart with
      | None => None
      | Some cs =>
          let cueStart := Num.add start (Num.mul cs scale) in
          Some {| cueId := cueId;
                  cueStart := cueStart;
                  cueEnd :=
                    match cueDurationAttr, cueEndAttr with
                    | Some d, _ => Some (Num.add cueStart (Num.mul d scale))
                    | None, Some e => Some (Num.add start (Num.mul e scale))
                    | None, None => None
                    end;
                  cueElement := cue.1.1 |}
      end
  end.

(** The loop of [computeSceneTimings] over the scene elements; [cursor] is
    the variable of the same name. *)
Fixpoint sceneTimingsFrom (fps : number) (sceneElements : list (Handle * Node * list Node))
    (cursor : number) : list SceneTiming * list CueTiming :=
  match sceneElements with
  | [] => ([], [])
  | sceneEl :: rest =>
      let id := default "" (Dom.getAttribute sceneEl.1.2 "id") in
      let start := default cursor (timeSecondsAttr sceneEl.1.2 "start" fps) in
      let scale := collectTimeScale sceneEl.1.2 sceneEl.2 in
      let end_ := (fun d => Num.add start (Num.mul d scale)) <$> elementDuration sceneEl.1.2 fps in
      let cues :=
        omap (cueTimingOf fps start scale end_)
             (querySelectorAll sceneEl.1.2 sceneEl.1.1 sceneEl.2 "cue") in
      let '(timing, cueTiming) := sceneTimingsFrom fps rest (default cursor end_) in
      ({| sceneId := id; sceneStart := start; sceneEnd := end_; sceneElement := sceneEl.1.1 |}
         :: timing,
       cues ++ cueTiming)
  end.

(** The value of [cursor] after the scenes of [timing]: the end of the
    last of them that has one, the initial value when none has. *)
Definition cursorAfter (cursor : number) (timing : list SceneTiming) : number :=
  foldl (fun c scene => default c (sceneEnd scene)) cursor timing.

Definition totalDuration (timing : list SceneTiming) : option number :=
  foldl (fun duration scene =>
           match sceneEnd scene, duration with
           | Some e, None => Some e
           | Some e, Some d => if Num.gt e d then Some e else duration
           | None, _ => duration
           end) None timing.

Record SceneTimings : Type := {
  scenes : list SceneTiming;
  cues : list CueTiming;
  duration : option number;
  fps : number;
}.

(** The handle [h] is below [here], under a child of index [from] or more. *)
Definition below (here : Handle) (from : nat) (h : Handle) : Prop :=
  exists q j, h = q ++ j :: here /\ (from <= j)%nat.

(** The map that [mountVmlPlayer] fills from the scenes: a scene with no
    timed element gets no entry, a later scene with the same id replaces
    an earlier one. *)
Fixpoint timedBySceneOf (fps : number) (sceneElements : list (Handle * Node * list Node))
    (timing : list SceneTiming) (timedByScene : gmap string (list TimedElement))
    : gmap string (list TimedElement) :=
  match sceneElements, timing with
  | sceneEl :: els, scene :: rest =>
      let list := computeTimedElements sceneEl.1.2 sceneEl.1.1 (sceneStart scene) fps in
      timedBySceneOf fps els rest
        (match list with
         | [] => timedByScene
         | _ => <[ sceneId scene := list ]> timedByScene
         end)
  | _, _ => timedByScene
  end.

Section ComputeSceneTimings.
Context {Json : Type}.
Variable JSON_parse : string -> option Json.
Variable spread : Json -> Json -> Json.

(** [xmlRoot] is the document that [executeVomXml] parses from the text,
    [root] the element imported into the page and [host] the elements of
    the page above it, nearest first. *)
Definition computeSceneTimings (xmlRoot root : Node) (host : list Node) : result SceneTimings :=
  composition ← Xml.loadVideoFileFromXml JSON_parse spread xmlRoot;
  let fps := Xml.metaFps composition in
  let '(timing, cueTiming) := sceneTimingsFrom fps (querySelectorAll root [] host "scene") (Num.of_Z 0) in
  Ok {| scenes := timing; cues := cueTiming; duration := totalDuration timing; fps := fps |}.

End ComputeSceneTimings.

(** *** [handleTick]

    What the handler writes on an element: the [display] style, the
    [data-videoml-display] attribute that keeps the authored value, and the
    two [data-runtime-*] flags. *)

Record ElementView : Type := {
  styleDisplay : string;
  savedDisplay : option string;
  runtimeHidden : bool;
  runtimeActive : bool;
}.

#[export] Instance ElementView_inhabited : Inhabited ElementView :=
  populate {| styleDisplay := ""; savedDisplay := None;
              runtimeHidden := false; runtimeActive := false |}.

Abbreviation Views := (gmap Handle ElementView).

Definition viewOf (views : Views) (h : Handle) : ElementView := default inhabitant (views !! h).

Definition onElement (f : ElementView -> ElementView) (h : Handle) (views : Views) : Views :=
  <[ h := f (viewOf views h) ]> views.

Definition activateScene (v : ElementView) : ElementView :=
  {| styleDisplay := "block"; savedDisplay := savedDisplay v;
     runtimeHidden := false; runtimeActive := true |}.

Definition deactivateScene (v : ElementView) : ElementView :=
  {| styleDisplay := "none"; savedDisplay := savedDisplay v;
     runtimeHidden := true; runtimeActive := false |}.

Definition showTimed (v : ElementView) : ElementView :=
  {| styleDisplay := default "" (savedDisplay v); savedDisplay := savedDisplay v;
     runtimeHidden := runtimeHidden v; runtimeActive := runtimeActive v |}.

Definition hideTimed (v : ElementView) : ElementView :=
  {| styleDisplay := "none";
     savedDisplay := match savedDisplay v with
                     | Some d => Some d
                     | None => Some (styleDisplay v)
                     end;
     runtimeHidden := runtimeHidden v; runtimeActive := runtimeActive v |}.

Inductive Event : Type :=
| TimelineTick (frame time fps : number)
| CueStart (cueId : string) (time frame : number)
| CueEnd (cueId : string) (time frame : number)
| SceneEnd (sceneId : string) (time frame : number)
| SceneStart (sceneId : string) (time frame : number)
| TimeUpdate (timeSec durationSec : number).

Record Player : Type := {
  playerFps : number;
  playerScenes : list SceneTiming;
  playerCues : list CueTiming;
  timedByScene : gmap string (list TimedElement);
  playerDuration : option number;
  onTimeUpdate : bool;
}.

Record PlayerState : Type := {
  lastActiveSceneId : option string;
  activeCues : gset string;
  views : Views;
}.

Definition sceneIsActive (timeSec : number) (scene : SceneTiming) (nextScene : option SceneTiming) : bool :=
  let end_ := match sceneEnd scene with
              | Some e => Some e
              | None => sceneStart <$> nextScene
              end in
  Num.ge timeSec (sceneStart scene)
  && match end_ with
     | None => true
     | Some e => Num.lt timeSec e
     end.

(** The first loop: the last scene found active gives [activeSceneId]. *)
Fixpoint scanScenes (timeSec : number) (scenes : list SceneTiming)
    (activeSceneId : option string) (views : Views) : option string * Views :=
  match scenes with
  | [] => (activeSceneId, views)
  | scene :: rest =>
      if sceneIsActive timeSec scene (head rest)
      then scanScenes timeSec rest (Some (sceneId scene))
             (onElement activateScene (sceneElement scene) views)
      else scanScenes timeSec rest activeSceneId
             (onElement deactivateScene (sceneElement scene) views)
  end.

Definition isVisible (timeSec : number) (item : TimedElement) : bool :=
  Num.ge timeSec (start item) && Num.lt timeSec (end_ item).

Definition applyTimed (timeSec : number) (views : Views) (item : TimedElement) : Views :=
  onElement (if isVisible timeSec item then showTimed else hideTimed) (element item) views.

Definition cueIsActive (timeSec : number) (cue : CueTiming) : bool :=
  Num.ge timeSec (cueStart cue)
  && match cueEnd cue with
     | None => true
     | Some e => Num.lt timeSec e
     end.

Fixpoint scanCues (timeSec frame : number) (cues : list CueTiming) (activeCues : gset string)
    : gset string * list Event :=
  match cues with
  | [] => (activeCues, [])
  | cue :: rest =>
      let isActive := cueIsActive timeSec cue in
      let wasActive := bool_decide (cueId cue ∈ activeCues) in
      if isActive && negb wasActive then
        let '(a, evs) := scanCues timeSec frame rest ({[ cueId cue ]} ∪ activeCues) in
        (a, CueStart (cueId cue) timeSec frame :: evs)
      else if negb isActive && wasActive then
        let '(a, evs) := scanCues timeSec frame rest (activeCues ∖ {[ cueId cue ]}) in
        (a, CueEnd (cueId cue) timeSec frame :: evs)
      else scanCues timeSec frame rest activeCues
  end.

(** The events of the last block: [scene:end] for the scene that was
    active, then [scene:start] for the one that is. *)
Definition sceneEvents (lastActiveSceneId activeSceneId : option string)
    (timeSec frame : number) : list Event :=
  if bool_decide (activeSceneId = lastActiveSceneId) then []
  else
    (match lastActiveSceneId with
     | Some id => if String.eqb id "" then [] else [SceneEnd id timeSec frame]
     | None => []
     end)
    ++ (match activeSceneId with
        | Some id => if String.eqb id "" then [] else [SceneStart id timeSec frame]
        | None => []
        end).

Definition handleTick (p : Player) (s : PlayerState) (timeSec : number)
    : PlayerState * list Event :=
  let frame := Num.floor (Num.mul timeSec (playerFps p)) in
  let '(activeSceneId, views1) := scanScenes timeSec (playerScenes p) None (views s) in
  let views2 :=
    if Str.truthy activeSceneId then
      let timed := default [] (id ← activeSceneId; timedByScene p !! id) in
      foldl (applyTimed timeSec) views1 timed
    else views1 in
  let '(activeCues', cueEvents) := scanCues timeSec frame (playerCues p) (activeCues s) in
  ({| lastActiveSceneId := activeSceneId; activeCues := activeCues'; views := views2 |},
   [TimelineTick frame timeSec (playerFps p)]
   ++ cueEvents
   ++ sceneEvents (lastActiveSceneId s) activeSceneId timeSec frame
   ++ (if onTimeUpdate p then [TimeUpdate timeSec (default (Num.of_Z 0) (playerDuration p))] else [])).

Definition initialPlayerState (views : Views) : PlayerState :=
  {| lastActiveSceneId := None; activeCues := ∅; views := views |}.

(** What [mountVmlPlayer] computes before the first tick: the timings of
    the scenes and cues and the timed elements of every scene. *)
Definition mountVmlPlayer {Json : Type} (JSON_parse : string -> option Json)
    (spread : Json -> Json -> Json) (xmlRoot root : Node) (host : list Node)
    (hasOnTimeUpdate : bool) : result Player :=
  t ← computeSceneTimings JSON_parse spread xmlRoot root host;
  Ok {| playerFps := fps t;
        playerScenes := scenes t;
        playerCues := cues t;
        timedByScene :=
          timedBySceneOf (fps t) (querySelectorAll root [] host "scene") (scenes t) ∅;
        playerDuration := duration t;
        onTimeUpdate := hasOnTimeUpdate |}.

(** The scene that the first loop of [handleTick] leaves in
    [activeSceneId]. *)
Definition activeSceneAt (p : Player) (s : PlayerState) (timeSec : number) : option string :=
  (scanScenes timeSec (playerScenes p) None (views s)).1.

Definition isSceneEvent (e : Event) : bool :=
  match e with
  | SceneEnd _ _ _ | SceneStart _ _ _ => true
  | _ => false
  end.

End Runtime.

(** * Predicates of the statements *)

Module ResolverSpec.
Import Xml.

Section Spec.
Context {Json : Type}.
Variable JSON_parse : string -> option Json.
Variable spread : Json -> Json -> Json.
Variable fps : number.
Variable sceneElements : list Node.

(** The fields that the attempt of a scene never writes. *)
Definition sameScenes (st st' : ResolverState (Json := Json)) : Prop :=
  scenes st' = scenes st
  /\ sceneStartIndex st' = sceneStartIndex st
  /\ sceneEndIndex st' = sceneEndIndex st
  /\ pending st' = pending st
  /\ passes st' = passes st.


(** [ctx'] knows every time that [ctx] knows. *)
Definition ctxLe (ctx ctx' : TimeExpr.TimeEvalContext) : Prop :=
  TimeExpr.fps ctx' = TimeExpr.fps ctx
  /\ (forall id v, TimeExpr.getSceneStart ctx id = Some v -> TimeExpr.getSceneStart ctx' id = Some v)
  /\ (forall id v, TimeExpr.getSceneEnd ctx id = Some v -> TimeExpr.getSceneEnd ctx' id = Some v)
  /\ (forall id v, TimeExpr.getCueStart ctx id = Some v -> TimeExpr.getCueStart ctx' id = Some v)
  /\ (forall v, TimeExpr.getPrevStart ctx = Some v -> TimeExpr.getPrevStart ctx' = Some v)
  /\ (forall v, TimeExpr.getPrevEnd ctx = Some v -> TimeExpr.getPrevEnd ctx' = Some v)
  /\ (forall v, TimeExpr.getNextStart ctx = Some v -> TimeExpr.getNextStart ctx' = Some v).

(** An answer that is no unresolved reference is the answer again when more
    is known. *)
Definition notMissing {A} (r : result A) : Prop :=
  forall what, r <> Throw (MissingTimeReferenceError what).

Definition stable {A} (r r' : result A) : Prop := notMissing r -> r' = r.

(** The state [st'] holds the scenes and the times of [st]. *)
Definition stateLe (st st' : ResolverState (Json := Json)) : Prop :=
  scenes st ⊆ scenes st'
  /\ sceneStartIndex st ⊆ sceneStartIndex st'
  /\ sceneEndIndex st ⊆ sceneEndIndex st'
  /\ cueStartIndex st ⊆ cueStartIndex st'.

(** The scene element has no cue among its children. *)
Definition cueFree (sceneEl : Node) : Prop :=
  Forall (fun child => String.eqb (Dom.tagName child) "cue" = false) (Dom.children sceneEl).

(** The scenes resolved one after the other in a given order, each at its
    first attempt. *)
Fixpoint runInOrder (order : list nat) (st : ResolverState (Json := Json))
    : option (ResolverState (Json := Json)) :=
  match order with
  | [] => Some st
  | index :: rest =>
      match sceneElements !! index with
      | Some sceneEl =>
          match sceneBody JSON_parse spread fps sceneElements st index sceneEl with
          | (st', Ok sceneData) => runInOrder rest (commitScene st' index sceneData)
          | _ => None
          end
      | None => None
      end
  end.

(** The cues among the items of a scene, and the state after they have been
    registered one after the other. *)
Definition cuesIn (items : list Item) : list Cue :=
  omap (fun item => match item with ItemCue cue => Some cue | ItemPause _ => None end) items.

Definition registerCues (st : ResolverState (Json := Json)) (cues : list Cue)
    : ResolverState (Json := Json) :=
  foldl registerCue st cues.

(** What [cueStartIndex] holds once the cues are registered. *)
Definition cueStarts (cues : list Cue) (m : gmap string number) : gmap string number :=
  foldl (fun m cue => match cueTime cue with
                      | Some t => <[ cueId cue := rangeStart t ]> m
                      | None => m
                      end) m cues.

(** The places of the state that the attempts of the scenes write, and what
    is read at a place. *)
Inductive Key : Type :=
  | KScene (index : nat)
  | KStart (sceneId : string)
  | KEnd (sceneId : string)
  | KCue (cueId : string).

Inductive Val : Type :=
  | VScene (sceneData : SceneData (Json := Json))
  | VNum (seconds : number).

Definition look (st : ResolverState (Json := Json)) (k : Key) : option Val :=
  match k with
  | KScene index => VScene <$> scenes st !! index
  | KStart id => VNum <$> sceneStartIndex st !! id
  | KEnd id => VNum <$> sceneEndIndex st !! id
  | KCue id => VNum <$> cueStartIndex st !! id
  end.

(** The place belongs to the scene at [index]: its slot of the array, the
    times filed under its id, the starts of its cues. *)
Definition owner (k : Key) (index : nat) : Prop :=
  exists sceneEl, sceneElements !! index = Some sceneEl
    /\ match k with
       | KScene i => i = index
       | KStart id | KEnd id => attrIf sceneEl "id" = Some id
       | KCue id => id ∈ sceneCueIds sceneEl
       end.

(** What the scene at [index], resolved to [sceneData], writes at a place. *)
Definition entry (index : nat) (sceneData : SceneData (Json := Json)) (k : Key) : option Val :=
  match k with
  | KScene i => if decide (i = index) then Some (VScene sceneData) else None
  | KStart id =>
      if decide (id = sceneId sceneData)
      then VNum <$> (t ← sceneTime sceneData; timeStart t) else None
  | KEnd id =>
      if decide (id = sceneId sceneData)
      then VNum <$> (t ← sceneTime sceneData; timeEnd t) else None
  | KCue id => VNum <$> cueStarts (cuesIn (sceneItems sceneData)) ∅ !! id
  end.

(** No two scenes have the same id, and no cue id is used in two scenes. *)
Definition distinctSceneIds : Prop :=
  forall i j eli elj id,
    sceneElements !! i = Some eli -> sceneElements !! j = Some elj ->
    attrIf eli "id" = Some id -> attrIf elj "id" = Some id -> i = j.

Definition distinctCueIds : Prop :=
  forall i j eli elj id,
    sceneElements !! i = Some eli -> sceneElements !! j = Some elj ->
    id ∈ sceneCueIds eli -> id ∈ sceneCueIds elj -> i = j.

(** An attempt that stops on an unresolved reference has registered no cue:
    the state is the one it started from. *)
Definition failedAttemptRegistersNothing : Prop :=
  forall (st st' : ResolverState (Json := Json)) index sceneEl what,
    sceneElements !! index = Some sceneEl ->
    sceneBody JSON_parse spread fps sceneElements st index sceneEl
      = (st', Throw (MissingTimeReferenceError what)) ->
    st' = st.

(** The state without its registry of cue ids. *)
Definition clearCueIds (st : ResolverState (Json := Json)) : ResolverState (Json := Json) :=
  {| scenes := scenes st; cueIds := ∅;
     sceneStartIndex := sceneStartIndex st; sceneEndIndex := sceneEndIndex st;
     cueStartIndex := cueStartIndex st; pending := pending st; passes := passes st |}.

(** The state with another count of passes. *)
Definition setPasses (n : nat) (st : ResolverState (Json := Json)) : ResolverState (Json := Json) :=
  {| scenes := scenes st; cueIds := cueIds st;
     sceneStartIndex := sceneStartIndex st; sceneEndIndex := sceneEndIndex st;
     cueStartIndex := cueStartIndex st; pending := pending st; passes := n |}.

(** The two states give the same answer to the duplicate test for the cues
    among [cs]. *)
Definition agree (cs : list Node) (st st' : ResolverState (Json := Json)) : Prop :=
  forall id, id ∈ omap cueIdOf cs -> id ∈ cueIds st <-> id ∈ cueIds st'.

(** Whatever the state holds belongs to a scene that has left [pending]. *)
Definition owned (st : ResolverState (Json := Json)) : Prop :=
  (forall k v, look st k = Some v -> exists i, owner k i /\ i ∉ pending st)
  /\ (forall c, c ∈ cueIds st -> exists i, owner (KCue c) i /\ i ∉ pending st).

(** In addition, what is known of the scenes that have left [pending] is
    what [final] holds. *)
Definition settled (final st : ResolverState (Json := Json)) : Prop :=
  owned st
  /\ (forall k i, owner k i -> i ∉ pending st -> look st k = look final k).

(** The three ways out of the loop that its own tests give. *)
Definition loopExit (r : result (ResolverState (Json := Json))) : Prop :=
  (exists st, r = Ok st /\ pending st = [])
  \/ (exists unresolved, unresolved <> [] /\ r = Throw (errUnresolved sceneElements unresolved))
  \/ r = Throw errNotConverged.

(** *** The run of the loop

    A pass that resolves a scene and passes the test on the number of
    passes is followed by the next pass, which starts in [st']. *)
Definition nextPass (st st' : ResolverState (Json := Json)) : Prop :=
  pending st <> []
  /\ exists st1,
       resolvePass JSON_parse spread fps sceneElements (pending st) st false = Ok (st1, true)
       /\ (length sceneElements + 2 <? passes (addPass st1))%nat = false
       /\ st' = addPass st1.

(** The states in which the passes of the run start. *)
Definition passStart (st : ResolverState (Json := Json)) : Prop :=
  rtc nextPass (initialState (length sceneElements)) st.

(** The attempts of a pass: the states in which it runs the body of a
    scene, with the index of the scene, in the order of the pass. *)
Fixpoint passAttempts (snapshot : list nat) (st : ResolverState (Json := Json))
    : list (ResolverState (Json := Json) * nat) :=
  match snapshot with
  | [] => []
  | index :: rest =>
      match sceneElements !! index with
      | None => []
      | Some sceneEl =>
          (st, index)
          :: match sceneBody JSON_parse spread fps sceneElements st index sceneEl with
             | (st', Ok sceneData) => passAttempts rest (commitScene st' index sceneData)
             | (st', Throw (MissingTimeReferenceError _)) => passAttempts rest st'
             | (_, Throw _) => []
             end
      end
  end.


(** The four places at which the code leaves the loop. *)
Inductive Way : Type :=
| Success
| NoProgressFailure
| NotConvergedFailure
| SceneFailure.

(** The pass that starts in [st] is the last one: the loop is left by the
    way [w], with [r].  Nothing is pending; the pass has resolved nothing;
    the pass has resolved a scene and the number of passes is above the
    number of scenes plus two; an attempt of the pass has thrown something
    else than a [MissingTimeReferenceError]. *)
Definition endsBy (st : ResolverState (Json := Json)) (w : Way)
    (r : result (ResolverState (Json := Json))) : Prop :=
  match w with
  | Success => pending st = [] /\ r = Ok st
  | NoProgressFailure =>
      pending st <> []
      /\ exists st1,
           resolvePass JSON_parse spread fps sceneElements (pending st) st false = Ok (st1, false)
           /\ r = Throw (errUnresolved sceneElements (pending (addPass st1)))
  | NotConvergedFailure =>
      pending st <> []
      /\ exists st1,
           resolvePass JSON_parse spread fps sceneElements (pending st) st false = Ok (st1, true)
           /\ (length sceneElements + 2 <? passes (addPass st1))%nat = true
           /\ r = Throw errNotConverged
  | SceneFailure =>
      pending st <> []
      /\ exists err,
           resolvePass JSON_parse spread fps sceneElements (pending st) st false = Throw err
           /\ r = Throw err
           /\ (forall what, err <> MissingTimeReferenceError what)
           /\ exists st0 st1 index sceneEl,
                (st0, index) ∈ passAttempts (pending st) st
                /\ sceneElements !! index = Some sceneEl
                /\ sceneBody JSON_parse spread fps sceneElements st0 index sceneEl
                   = (st1, Throw err)
  end.

(** The run leaves the loop by the way [w], with [r]. *)
Definition Outcome (r : result (ResolverState (Json := Json))) (w : Way) : Prop :=
  exists st, passStart st /\ endsBy st w r.


End Spec.
End ResolverSpec.

(** * Sample inputs *)

Module Samples.

(** A clock of ten seconds that stops at its end, clocks that loop, and a
    running state at time [t] whose previous tick was at [last] ms. *)
Definition clampConfig : Timeline.Config :=
  {| Timeline.fps := Fin 30; Timeline.clockMode := Timeline.Bounded;
     Timeline.loop := false; Timeline.duration := Some (Fin 10) |}.
Definition runningAt (t : Q) (last : Q) : Timeline.State :=
  {| Timeline.raf := true; Timeline.lastTs := Some (Fin last); Timeline.running := true;
     Timeline.frame := Num.floor (Num.mul (Fin t) (Fin 30)); Timeline.time := Fin t;
     Timeline.requested := true |}.

(** The player that [captionDoc] below mounts: scene [A] on [0, 4) and scene
    [B] on [4, 6); [A] holds one timed element, on [1, 2). *)
Definition caption : Runtime.TimedElement :=
  {| Runtime.element := [0; 0]; Runtime.start := Fin 1; Runtime.end_ := Fin 2 |}.
Definition twoScenes : Runtime.Player :=
  {| Runtime.playerFps := Fin 30;
     Runtime.playerScenes :=
       [ {| Runtime.sceneId := "A"; Runtime.sceneStart := Fin 0;
            Runtime.sceneEnd := Some (Fin 4); Runtime.sceneElement := [0] |};
         {| Runtime.sceneId := "B"; Runtime.sceneStart := Fin 4;
            Runtime.sceneEnd := Some (Fin 6); Runtime.sceneElement := [1] |} ];
     Runtime.playerCues := [];
     Runtime.timedByScene := {[ "A" := [caption] ]};
     Runtime.playerDuration := Some (Fin 6);
     Runtime.onTimeUpdate := true |}.
(** Compositions.  [fps25] asks for 25 frames per second; in [forwardRef]
    a descendant of the first scene refers to the second scene, in
    [backwardRef] the same scenes come in the other order; [cycle] has two
    scenes that wait for each other. *)
Definition fps25 : Node :=
  Element "vml" [("id", "v"); ("fps", "25")]
    [ Element "scene" [("id", "a"); ("start", "24f"); ("duration", "500ms")] [] ].

Definition sceneWithCue : Node :=
  Element "scene" [("id", "a")]
    [ Element "cue" [("id", "c1")] [];
      Element "title" [("start", "scene(b).start")] [] ].
Definition sceneAtZero : Node := Element "scene" [("id", "b"); ("start", "0")] [].

Definition forwardRef : Node := Element "vml" [("id", "v")] [ sceneWithCue; sceneAtZero ].
Definition backwardRef : Node := Element "vml" [("id", "v")] [ sceneAtZero; sceneWithCue ].

(** The first scene of [forwardRef] with its two children in the other
    order: the reference comes before the cue. *)
Definition sceneWithLateCue : Node :=
  Element "scene" [("id", "a")]
    [ Element "title" [("start", "scene(b).start")] [];
      Element "cue" [("id", "c1")] [] ].
Definition referenceBeforeCue : Node :=
  Element "vml" [("id", "v")] [ sceneWithLateCue; sceneAtZero ].

Definition cycle : Node :=
  Element "vml" [("id", "v")]
    [ Element "scene" [("id", "a"); ("start", "scene(b).end"); ("duration", "1")] [];
      Element "scene" [("id", "b"); ("start", "scene(a).end"); ("duration", "1")] [] ].

(** A stand-in for [JSON.parse] where no attribute holds JSON. *)
Definition noJson : string -> option unit := fun _ => None.
Definition noSpread : unit -> unit -> unit := fun _ _ => tt.



Definition sceneStartingSoon : Node := Element "scene" [("id", "a"); ("start", "soon")] [].

(** Documents for the patches: a sealed scene with a title, and a sealed
    scene whose title is inside a second scene that is not sealed. *)
Definition sealedDoc : Node :=
  Element "vml" [("id", "v")]
    [ Element "scene" [("id", "intro"); ("sealed", "true")]
        [ Element "title" [("id", "t")] [Text "Hello"] ];
      Element "scene" [("id", "open")] [ Element "title" [("id", "u")] [] ] ].

Definition nestedSealedDoc : Node :=
  Element "vml" [("id", "v")]
    [ Element "scene" [("id", "outer"); ("sealed", "true")]
        [ Element "scene" [("id", "inner")] [ Element "title" [("id", "t")] [] ] ] ].

(** A scene of three seconds followed by a scene of two seconds with no
    start; a scene of two seconds, a scene with no end and a third scene. *)
Definition chained : Node :=
  Element "vml" [("id", "v")]
    [ Element "scene" [("id", "a"); ("start", "0"); ("duration", "3")] [];
      Element "scene" [("id", "b"); ("duration", "2")] [] ].

Definition openSceneBetween : Node :=
  Element "vml" [("id", "v")]
    [ Element "scene" [("id", "s1"); ("duration", "2")] [];
      Element "scene" [("id", "s2")] [];
      Element "scene" [("id", "s3"); ("duration", "1")] [] ].

(** A scene of four seconds with a title on [1, 2), followed by a scene of
    two seconds. *)
Definition captionDoc : Node :=
  Element "vml" [("id", "v")]
    [ Element "scene" [("id", "A"); ("duration", "4")]
        [ Element "title" [("id", "cap"); ("start", "1"); ("end", "2")] [] ];
      Element "scene" [("id", "B"); ("duration", "2")] [] ].


Definition beforeFirstTick : Runtime.PlayerState := Runtime.initialPlayerState ∅.

(** The page before the first tick when the caption is authored with the
    inline display [flex], and after a tick at 2, which hides the caption. *)
Definition captionAuthored : Runtime.PlayerState :=
  Runtime.initialPlayerState
    {[ Runtime.element caption :=
         {| Runtime.styleDisplay := "flex"; Runtime.savedDisplay := None;
            Runtime.runtimeHidden := false; Runtime.runtimeActive := false |} ]}.
Definition captionHidden : Runtime.PlayerState :=
  (Runtime.handleTick twoScenes captionAuthored (Fin 2)).1.
Definition duringA : Runtime.PlayerState := (Runtime.handleTick twoScenes beforeFirstTick (Fin 1)).1.

End Samples.

(** * Predicates and samples of the further properties *)

Module PatchSpec.
Import Patch.

(** [q] comes before [p] in document order: it is an ancestor of [p], or it
    branches off to an earlier child. *)
Fixpoint pathBefore (q p : Path) : bool :=
  match q, p with
  | [], _ :: _ => true
  | i :: q', j :: p' => (i <? j)%nat || ((i =? j)%nat && pathBefore q' p')
  | _, _ => false
  end.

(** What [findById] owes: an element with the id and none with it earlier
    in the document, or no element with the id at all. *)
Definition firstWithId (id : string) (n : Node) (found : option Path) : Prop :=
  match found with
  | Some p =>
      (exists el, nodeAt n p = Some el /\ Dom.isElement el = true
                  /\ Dom.getAttribute el "id" = Some id)
      /\ (forall q el, pathBefore q p = true -> nodeAt n q = Some el ->
                       Dom.getAttribute el "id" <> Some id)
  | None => forall q el, nodeAt n q = Some el -> Dom.getAttribute el "id" <> Some id
  end.

(** An attribute name that [setAttribute] accepts in every version of the
    DOM standard: an ASCII letter or an underscore, followed by ASCII
    letters, digits, [-], [_] and [.].  On a name that the DOM refuses
    (the empty name, a name with a space) the call throws an
    [InvalidCharacterError], which [Patch.setAttribute] does not model. *)
Definition plainName (name : string) : bool :=
  match Str.chars name with
  | [] => false
  | c :: rest =>
      (Str.isAlpha c || Ascii.eqb c "_")
      && forallb (fun c => Str.isAlpha c || Str.isDigit c || Ascii.eqb c "-"
                           || Ascii.eqb c "_" || Ascii.eqb c ".") rest
  end.

End PatchSpec.

Module TimelineSpec.
Import Timeline.

(** The states of a timeline that its three entry points lead to: [start],
    [stop], and the frame callbacks that the browser runs with its
    timestamps. *)
Inductive reachable (cfg : Config) : State -> Prop :=
| reach_initial : reachable cfg initial
| reach_start s : reachable cfg s -> reachable cfg (start s)
| reach_stop s : reachable cfg s -> reachable cfg (stop s)
| reach_frame s ts : reachable cfg s -> reachable cfg (animationFrame cfg s (Fin ts)).1.

(** The timestamps after [a] do not decrease. *)
Fixpoint ascending (a : Q) (l : list Q) : Prop :=
  match l with
  | [] => True
  | b :: rest => (a <= b)%Q /\ ascending b rest
  end.

End TimelineSpec.

Module SchedulerSpec.
Import Runtime.

Definition isCueEvent (e : Event) : bool :=
  match e with
  | CueStart _ _ _ | CueEnd _ _ _ => true
  | _ => false
  end.

(** The player of [Samples.twoScenes] with one cue, on [1, 2). *)
Definition withCue : Player :=
  {| playerFps := playerFps Samples.twoScenes;
     playerScenes := playerScenes Samples.twoScenes;
     playerCues := [ {| cueId := "c"; cueStart := Fin 1; cueEnd := Some (Fin 2);
                        cueElement := [0; 1]%nat |} ];
     timedByScene := timedByScene Samples.twoScenes;
     playerDuration := playerDuration Samples.twoScenes;
     onTimeUpdate := true |}.

End SchedulerSpec.

Module ArithmeticSpec.
Import TimeExpr.

(** Arithmetic on number literals as it is written: a sum of products.  A
    literal is a number with its unit; a product is a literal followed by
    factors, each with [*] or [/] ([true] for [/]); a sum is a product
    followed by products, each with [+] or [-] ([true] for [-]). *)
Definition Literal : Type := number * option Unit.
Definition Product : Type := Literal * list (bool * Literal).
Definition Sum : Type := Product * list (bool * Product).

Definition mulOp (divide : bool) : Op := if divide then Divide else Times.
Definition addOp (minus : bool) : Op := if minus then Minus else Plus.

Definition literalToken (x : Literal) : Token := TNumber x.1 x.2.
Definition literalAst (x : Literal) : AstNode := ANumber x.1 x.2.

Definition factorTokens (fs : list (bool * Literal)) : list Token :=
  flat_map (fun f => [TOperator (mulOp f.1); literalToken f.2]) fs.
Definition productTokens (p : Product) : list Token := literalToken p.1 :: factorTokens p.2.
Definition sumTokens (s : Sum) : list Token :=
  productTokens s.1 ++ flat_map (fun t => TOperator (addOp t.1) :: productTokens t.2) s.2.

(** The same read with the usual rules: [*] and [/] bind tighter than [+]
    and [-], and operators of the same rank group from the left. *)
Definition productAst (p : Product) : AstNode :=
  foldl (fun acc f => ABinary (mulOp f.1) acc (literalAst f.2)) (literalAst p.1) p.2.
Definition sumAst (s : Sum) : AstNode :=
  foldl (fun acc t => ABinary (addOp t.1) acc (productAst t.2)) (productAst s.1) s.2.

(** The next token continues a product. *)
Definition startsTerm (ts : list Token) : bool :=
  match ts with
  | TOperator (Times | Divide) :: _ => true
  | _ => false
  end.

End ArithmeticSpec.

Module LayoutSpec.
Import TimeExpr Xml.

(** A container whose component children carry no [start] attribute and
    whose nested containers are sequences of the same kind. *)
Fixpoint sequenceOnly (el : Node) : bool :=
  match el with
  | Text _ => false
  | Element _ _ nodes =>
      forallb (fun child =>
                 negb (Dom.isElement child) || inList (Dom.tagName child) skippedTags
                 || match isContainerTag (Dom.tagName child) with
                    | Some Sequence => sequenceOnly child
                    | Some Stack => false
                    | None => bool_decide (attrIf child "start" = None)
                    end) nodes
  end.

(** The components play one after the other from [start] to [finish]: each
    one starts at the end of the one before it ([cursor + 0] in the code). *)
Fixpoint backToBack {Json} (start : number) (cs : list (Component (Json := Json)))
    (finish : number) : Prop :=
  match cs with
  | [] => finish = start
  | c :: rest =>
      exists e,
        compTiming c = Some {| startSec := Some (Num.add start (Num.of_Z 0)); endSec := Some e |}
        /\ backToBack e rest finish
  end.

(** The elements below a container that become components, in the order
    in which [parseContainerChildren] produces them: the elements of a
    nested container stand in the place of the container. *)
Fixpoint componentElements (el : Node) : list Node :=
  match el with
  | Text _ => []
  | Element _ _ nodes =>
      flat_map (fun child =>
                  if negb (Dom.isElement child) || inList (Dom.tagName child) skippedTags
                  then []
                  else match isContainerTag (Dom.tagName child) with
                       | Some _ => componentElements child
                       | None => [child]
                       end) nodes
  end.

(** The identifier and the type of the component that the element [child]
    gives when it is the component number [k]. *)
Definition componentName (k : nat) (child : Node) : string * string :=
  (default (Dom.tagName child +:+ "-" +:+ pretty k) (getAttr child "id"),
   toPascalCase (Dom.tagName child)).

(** A title of two seconds, a nested sequence with an image that ends four
    seconds after the start of that sequence, and a caption. *)
Definition threeInARow : Node :=
  Element "sequence" []
    [ Element "title" [("duration", "2")] [];
      Text " ";
      Element "sequence" [("start", "5")] [ Element "image" [("end", "4")] [] ];
      Element "caption" [("id", "c")] [] ].

End LayoutSpec.

(** ** The document that [serializeXml] serializes *)

Module Serialize.

Definition runtimeAttrs : list string :=
  ["data-runtime-hidden"; "data-runtime-active"; "data-runtime-seen"].

(** [stripRuntimeAttrs] on the clone that [serializeXml] hands to the
    serializer: the three [removeAttribute] calls, then the element
    children. *)
Fixpoint stripRuntimeAttrs (el : Node) : Node :=
  match el with
  | Element t a cs =>
      Element t
        (filter (fun kv => kv.1 ≠ "data-runtime-seen")
           (filter (fun kv => kv.1 ≠ "data-runtime-active")
              (filter (fun kv => kv.1 ≠ "data-runtime-hidden") a)))
        (map (fun c => if Dom.isElement c then stripRuntimeAttrs c else c) cs)
  | Text _ => el
  end.

End Serialize.

(** * Properties *)

(** ** The parser of time expressions never runs out of fuel *)

Module TimeExprFacts.
Import TimeExpr.

Lemma Some_eq {A} (a b : A) : Some a = Some b -> a = b.
Proof. now intros [= ->]. Qed.
Lemma Ok_eq {A} (a b : A) : Ok a = Ok b -> a = b.
Proof. now intros [= ->]. Qed.
Lemma pair_eq {A B} (a a' : A) (b b' : B) : (a, b) = (a', b') -> a = a' /\ b = b'.
Proof. now intros [= -> ->]. Qed.

Lemma parseProps_shorter ts : forall node node' rest,
  parseProps node ts = Ok (node', rest) -> (length rest <= length ts)%nat.
Proof.
  assert (H : forall n ts, (length ts <= n)%nat -> forall node node' rest,
             parseProps node ts = Ok (node', rest) -> (length rest <= length ts)%nat).
  { induction n as [|n IH]; intros ts' Hn node node' rest H.
    - destruct ts'; [|cbn in Hn; lia]. now injection H as <- <-.
    - destruct ts' as [|[] [|[] ts'']]; cbn in H; try (injection H as <- <-; cbn; lia);
        try discriminate.
      apply IH in H; cbn in *; lia. }
  eauto.
Qed.

Lemma expectClosing_shorter ts rest : expectClosing ts = Ok rest -> (length rest < length ts)%nat.
Proof.
  destruct ts as [|[] ts]; try discriminate.
  destruct opening; [discriminate|]. intros [= <-]. cbn. lia.
Qed.

Ltac break_match :=
  match goal with
  | H : context [match ?x with _ => _ end] |- _ => destruct x eqn:?; try discriminate
  end.

Ltac parser_cases IH :=
  pose proof (fun ts => proj1 (IH ts)) as HE;
  pose proof (fun ts => proj1 (proj2 (IH ts))) as HEL;
  pose proof (fun ts => proj1 (proj2 (proj2 (IH ts)))) as HT;
  pose proof (fun ts => proj1 (proj2 (proj2 (proj2 (IH ts))))) as HTL;
  pose proof (fun ts => proj1 (proj2 (proj2 (proj2 (proj2 (IH ts)))))) as HU;
  pose proof (fun ts => proj1 (proj2 (proj2 (proj2 (proj2 (proj2 (IH ts))))))) as HP;
  pose proof (fun ts => proj2 (proj2 (proj2 (proj2 (proj2 (proj2 (IH ts))))))) as HA;
  clear IH.

(** Every parser that succeeds has consumed a token; the two loops may
    consume none. *)
Lemma parse_shorter fuel : forall ts,
  shorter true (parseExpression fuel ts) ts
  /\ (forall node, shorter false (parseExpressionLoop fuel node ts) ts)
  /\ shorter true (parseTerm fuel ts) ts
  /\ (forall node, shorter false (parseTermLoop fuel node ts) ts)
  /\ shorter true (parseUnary fuel ts) ts
  /\ shorter true (parsePrimary fuel ts) ts
  /\ shorter true (parseArgs fuel ts) ts.
Proof.
  induction fuel as [|fuel IH]; intros ts.
  - repeat split; intros; intros ? ? ?; discriminate.
  - parser_cases IH. unfold shorter in *.
    pose proof parseProps_shorter as HPr. pose proof expectClosing_shorter as HC.
    repeat split; intros;
      cbn [parseExpression parseExpressionLoop parseTerm parseTermLoop parseUnary
             parsePrimary parseArgs] in *;
      unfold mbind, result_bind in *;
      repeat break_match; subst;
      repeat match goal with
             | H : Some _ = Some _ |- _ => apply Some_eq in H
             | H : Ok _ = Ok _ |- _ => apply Ok_eq in H
             | H : (_, _) = (_, _) |- _ => apply pair_eq in H as [? ?]
             end; subst;
      repeat match goal with
             | H : parseExpression _ _ = Some (Ok _) |- _ => apply HE in H
             | H : parseExpressionLoop _ _ _ = Some (Ok _) |- _ => apply HEL in H
             | H : parseTerm _ _ = Some (Ok _) |- _ => apply HT in H
             | H : parseTermLoop _ _ _ = Some (Ok _) |- _ => apply HTL in H
             | H : parseUnary _ _ = Some (Ok _) |- _ => apply HU in H
             | H : parsePrimary _ _ = Some (Ok _) |- _ => apply HP in H
             | H : parseArgs _ _ = Some (Ok _) |- _ => apply HA in H
             | H : parseProps _ _ = Ok _ |- _ => apply HPr in H
             | H : expectClosing _ = Ok _ |- _ => apply HC in H
             end; cbn [length] in *; try lia.
Qed.

(** Six units of fuel per token and a few more are enough for every
    parser. *)
Lemma parse_fuel fuel : forall ts,
  ((6 * length ts + 4 <= fuel)%nat -> parseExpression fuel ts <> None)
  /\ (forall node, (6 * length ts + 1 <= fuel)%nat -> parseExpressionLoop fuel node ts <> None)
  /\ ((6 * length ts + 3 <= fuel)%nat -> parseTerm fuel ts <> None)
  /\ (forall node, (6 * length ts + 1 <= fuel)%nat -> parseTermLoop fuel node ts <> None)
  /\ ((6 * length ts + 2 <= fuel)%nat -> parseUnary fuel ts <> None)
  /\ ((6 * length ts + 1 <= fuel)%nat -> parsePrimary fuel ts <> None)
  /\ ((6 * length ts + 5 <= fuel)%nat -> parseArgs fuel ts <> None).
Proof.
  induction fuel as [|fuel IH]; intros ts.
  - repeat split; intros; lia.
  - parser_cases IH.
    pose proof (fun ts => proj1 (parse_shorter fuel ts)) as SE.
    pose proof (fun ts => proj1 (proj2 (proj2 (parse_shorter fuel ts)))) as ST.
    pose proof (fun ts => proj1 (proj2 (proj2 (proj2 (proj2 (parse_shorter fuel ts)))))) as SU.
    unfold shorter in *.
    repeat split; intros; intros Hnone;
      cbn [parseExpression parseExpressionLoop parseTerm parseTermLoop parseUnary
             parsePrimary parseArgs] in *;
      repeat break_match; subst;
      repeat match goal with
             | H : parseExpression _ _ = Some (Ok _) |- _ => apply SE in H
             | H : parseTerm _ _ = Some (Ok _) |- _ => apply ST in H
             | H : parseUnary _ _ = Some (Ok _) |- _ => apply SU in H
             end; cbn [length] in *;
      match goal with
      | H : parseExpression _ _ = None |- _ => apply HE in H
      | H : parseExpressionLoop _ _ _ = None |- _ => apply HEL in H
      | H : parseTerm _ _ = None |- _ => apply HT in H
      | H : parseTermLoop _ _ _ = None |- _ => apply HTL in H
      | H : parseUnary _ _ = None |- _ => apply HU in H
      | H : parsePrimary _ _ = None |- _ => apply HP in H
      | H : parseArgs _ _ = None |- _ => apply HA in H
      end; solve [assumption | cbn [length] in *; lia].
Qed.

Lemma parse_fuel_enough ts : parseTokens ts <> None.
Proof.
  unfold parseTokens.
  pose proof (proj1 (parse_fuel (parseFuel ts) ts)) as H.
  destruct (parseExpression (parseFuel ts) ts) as [[[expr [|]]|]|]; try discriminate.
  intros _. apply H; [unfold parseFuel; lia|reflexivity].
Qed.

End TimeExprFacts.

(** ** The clock *)

Module TimelineFacts.
Import Timeline Samples.

Lemma tick_stopped cfg s ts : running s = false -> tick cfg s ts = (s, None).
Proof. intros H. unfold tick. now rewrite H. Qed.

Lemma frames_idle cfg s stamps : requested s = false -> frames cfg s stamps = (s, []).
Proof.
  intros H. induction stamps as [|ts rest IH]; [reflexivity|].
  cbn [frames]. unfold animationFrame. rewrite H. now rewrite IH.
Qed.

Lemma advance_clamp cfg d t :
  clockMode cfg = Bounded -> duration cfg = Some d -> loop cfg = false ->
  Num.ge t d = true -> advance cfg t = (d, false).
Proof. intros Hm Hd Hl Hge. unfold advance. now rewrite Hm, Hd, Hge, Hl. Qed.

Lemma advance_wrap cfg d t :
  clockMode cfg = Bounded -> duration cfg = Some d -> loop cfg = true ->
  Num.ge t d = true ->
  advance cfg t = (if Num.gt d (Num.of_Z 0) then Num.rem t d else Num.of_Z 0, true).
Proof. intros Hm Hd Hl Hge. unfold advance. now rewrite Hm, Hd, Hge, Hl. Qed.

End TimelineFacts.

(** ** The bounded clock in binary64 *)

Module Timeline64Facts.
Import PrimFloat Timeline64.

Lemma tick64_stopped cfg s ts : running s = false -> tick cfg s ts = (s, None).
Proof. intros H. unfold tick. now rewrite H. Qed.

Lemma frames64_idle cfg s stamps : requested s = false -> frames cfg s stamps = (s, []).
Proof.
  intros H. induction stamps as [|ts rest IH]; [reflexivity|].
  cbn [frames]. unfold animationFrame. rewrite H. now rewrite IH.
Qed.

Lemma advance64_clamp cfg d t :
  clockMode cfg = Timeline.Bounded -> duration cfg = Some d -> loop cfg = false ->
  Double.ge t d = true -> advance cfg t = (d, false).
Proof. intros Hm Hd Hl Hge. unfold advance. now rewrite Hm, Hd, Hge, Hl. Qed.

Lemma advance64_wrap cfg d t :
  clockMode cfg = Timeline.Bounded -> duration cfg = Some d -> loop cfg = true ->
  Double.ge t d = true ->
  advance cfg t = (if Double.gt d 0%float then Double.rem t d else 0%float, true).
Proof. intros Hm Hd Hl Hge. unfold advance. now rewrite Hm, Hd, Hge, Hl. Qed.

(** C6, as the code has it.  A bounded clock that does not loop: the frame
    whose advanced time reaches or passes the duration [d] hands exactly
    [d] to the subscribers, leaves the clock stopped at [d] with no frame
    requested, and after it neither a frame callback nor a direct call of
    [tick] changes the state or reaches a subscriber.  A bounded clock that
    loops goes on, at the remainder of the advanced time by [d], and at 0
    when [d] is 0.  With [d = 5], from 4.5 and after 1100 ms, the remainder
    is the double 0.5999999999999996, in frame 17. *)
Theorem bounded_clock_clamps_or_wraps :
  (forall cfg s ts d,
      clockMode cfg = Timeline.Bounded -> duration cfg = Some d -> loop cfg = false ->
      running s = true -> requested s = true ->
      Double.ge (PrimFloat.add (time s) (delta s ts)) d = true ->
      exists s',
        animationFrame cfg s ts = (s', Some d)
        /\ time s' = d /\ running s' = false /\ requested s' = false
        /\ (forall stamps, frames cfg s' stamps = (s', []))
        /\ (forall ts', tick cfg s' ts' = (s', None)))
  /\ (forall cfg s ts d,
         clockMode cfg = Timeline.Bounded -> duration cfg = Some d -> loop cfg = true ->
         running s = true ->
         Double.ge (PrimFloat.add (time s) (delta s ts)) d = true ->
         time (tick cfg s ts).1
         = (if Double.gt d 0%float
            then Double.rem (PrimFloat.add (time s) (delta s ts)) d else 0%float)
         /\ running (tick cfg s ts).1 = true)
  /\ (let s' := (tick (bounded true 5%float) (runningAt 4.5%float 1000%float) 2100%float).1 in
      delta (runningAt 4.5%float 1000%float) 2100%float = PrimFloat.div 11%float 10%float
      /\ time s' = 0x1.3333333333330p-1%float
      /\ frame s' = 17%float
      /\ running s' = true).
Proof.
  split; [|split].
  - intros cfg s ts d Hm Hd Hl Hrun Hreq Hge.
    eexists. unfold animationFrame. rewrite Hreq. unfold tick. cbn [running time lastTs].
    rewrite Hrun. cbn [negb].
    change (delta _ ts) with (delta s ts).
    rewrite (advance64_clamp cfg d _ Hm Hd Hl Hge).
    split; [reflexivity|].
    split; [reflexivity|]. split; [reflexivity|]. split; [reflexivity|]. split.
    + intros stamps. now apply frames64_idle.
    + intros ts'. now apply tick64_stopped.
  - intros cfg s ts d Hm Hd Hl Hrun Hge.
    unfold tick. rewrite Hrun. cbn [negb].
    rewrite (advance64_wrap cfg d _ Hm Hd Hl Hge). now split.
  - cbv zeta. split_and!; vm_compute; reflexivity.
Qed.

Lemma bounded_clock_clamps_or_wraps_witness :
  (exists s',
      animationFrame (bounded false 10%float) (runningAt 9.75%float 0%float) 500%float
      = (s', Some 10%float)
      /\ time s' = 10%float /\ running s' = false)
  /\ time (tick (bounded true 0%float) (runningAt 0%float 0%float) 16%float).1 = 0%float.
Proof.
  destruct bounded_clock_clamps_or_wraps as [Hclamp [Hloop _]].
  split.
  - destruct (Hclamp (bounded false 10%float) (runningAt 9.75%float 0%float) 500%float 10%float)
      as [s' [H1 [H2 [H3 _]]]]; try reflexivity.
    exists s'. auto.
  - refine (proj1 (Hloop (bounded true 0%float) (runningAt 0%float 0%float) 16%float 0%float
                     _ _ _ _ _)); reflexivity.
Defined.

(** The wrapped time is not the double of 0.6, and the frame is not the
    frame of 0.6 seconds. *)
Lemma wrapped_time_is_not_six_tenths :
  let s' := (tick (bounded true 5%float) (runningAt 4.5%float 1000%float) 2100%float).1 in
  PrimFloat.div 6%float 10%float = sixTenths
  /\ PrimFloat.eqb (time s') sixTenths = false
  /\ PrimFloat.ltb (time s') sixTenths = true
  /\ frame s' = 17%float
  /\ Double.floor (PrimFloat.mul sixTenths 30%float) = 18%float.
Proof. cbv zeta. split_and!; vm_compute; reflexivity. Qed.

End Timeline64Facts.

(** ** The tick handler *)

Module RuntimeFacts.
Import Runtime Samples.

(** Induction on a node with the property for all its child nodes. *)
Lemma Node_forall (P : Node -> Prop) :
  (forall d, P (Text d)) ->
  (forall t a cs, Forall P cs -> P (Element t a cs)) ->
  forall n, P n.
Proof.
  intros Htext Helem. fix IH 1. intros [t a cs|d]; [|apply Htext].
  apply Helem. induction cs as [|c cs IHcs]; constructor; [apply IH|exact IHcs].
Qed.

(** *** The timed elements of a scene are distinct elements *)

Lemma below_distinct here i j q h : (i < j)%nat -> h = q ++ i :: here -> ~ below here j h.
Proof.
  intros Hlt -> (q' & j' & Heq & Hle).
  change (q ++ i :: here) with (q ++ [i] ++ here) in Heq.
  change (q' ++ j' :: here) with (q' ++ [j'] ++ here) in Heq.
  rewrite !app_assoc in Heq. apply app_inv_tail in Heq.
  apply app_inj_tail in Heq as [_ ->]. lia.
Qed.

Lemma walkChildren_elements recurse fps here baseStart dflt flow nodes :
  Forall (fun child => forall h b f,
            NoDup (element <$> recurse child h b f)
            /\ forall x, x ∈ element <$> recurse child h b f -> below h 0 x) nodes ->
  forall i cursor,
    NoDup (element <$> walkChildren recurse fps here baseStart dflt flow nodes i cursor)
    /\ forall x, x ∈ element <$> walkChildren recurse fps here baseStart dflt flow nodes i cursor ->
                 below here i x.
Proof.
  induction 1 as [|child rest Hchild _ IH]; intros i cursor; cbn [walkChildren].
  - split; [constructor|]. intros x Hx. now apply elem_of_nil in Hx.
  - destruct (negb (Dom.isElement child) || Xml.inList (lowerTag child) TIMING_TAG_EXCLUDE).
    + destruct (IH (S i) cursor) as [Hnd Hbelow]. split; [exact Hnd|].
      intros x Hx. destruct (Hbelow x Hx) as (q & j & -> & Hj). exists q, j. split; [reflexivity|lia].
    + set (own := match _ with Some e => [_] | None => [] end).
      set (sub := if isTimingContainer _ then _ else []).
      set (next := walkChildren _ _ _ _ _ _ rest (S i) _).
      assert (Hown : NoDup (element <$> own) /\ forall x, x ∈ element <$> own -> x = i :: here).
      { subst own. destruct (localEndOf _ _ _ _ _ _).
        - split; [apply NoDup_singleton|]. now intros x ->%list_elem_of_singleton.
        - split; [constructor|]. intros x Hx. now apply elem_of_nil in Hx. }
      assert (Hsub : NoDup (element <$> sub) /\ forall x, x ∈ element <$> sub -> below (i :: here) 0 x).
      { subst sub. destruct (isTimingContainer _); [apply Hchild|].
        split; [constructor|]. intros x Hx. now apply elem_of_nil in Hx. }
      assert (Hnext : NoDup (element <$> next) /\ forall x, x ∈ element <$> next -> below here (S i) x)
        by apply IH.
      destruct Hnext as [Hnd Hbelow].
      destruct Hown as [Hown1 Hown2], Hsub as [Hsub1 Hsub2].
      clearbody own sub next. rewrite !fmap_app. split.
      * apply NoDup_app. split; [exact Hown1|]. split.
        -- intros x Hx Hin. apply Hown2 in Hx. subst x.
           apply elem_of_app in Hin as [Hin|Hin].
           ++ apply Hsub2 in Hin as (q & j & Heq & _).
              apply (f_equal (@length nat)) in Heq. rewrite length_app in Heq. cbn in Heq. lia.
           ++ apply Hbelow in Hin. revert Hin. apply (below_distinct here i (S i) []); [lia|reflexivity].
        -- apply NoDup_app. split; [exact Hsub1|]. split; [|exact Hnd].
           intros x Hx Hin. apply Hsub2 in Hx as (q & j & -> & _). apply Hbelow in Hin.
           revert Hin. apply (below_distinct here i (S i) (q ++ [j])); [lia|].
           now rewrite <- app_assoc.
      * intros x [Hx|[Hx|Hx]%elem_of_app]%elem_of_app.
        -- apply Hown2 in Hx. exists [], i. split; [now subst|lia].
        -- apply Hsub2 in Hx as (q & j & -> & _). exists (q ++ [j]), i.
           split; [now rewrite <- app_assoc|lia].
        -- apply Hbelow in Hx as (q & j & -> & Hj). exists q, j. split; [reflexivity|lia].
Qed.

Lemma walk_elements fps container : forall here baseStart flow,
  NoDup (element <$> walk fps container here baseStart flow)
  /\ forall x, x ∈ element <$> walk fps container here baseStart flow -> below here 0 x.
Proof.
  induction container as [d|t a cs IH] using Node_forall; intros here baseStart flow.
  - split; [constructor|]. intros x Hx. now apply elem_of_nil in Hx.
  - cbn [walk]. now apply walkChildren_elements.
Qed.

Lemma timedBySceneOf_NoDup fps els : forall timing m,
  (forall id timed, m !! id = Some timed -> NoDup (element <$> timed)) ->
  forall id timed, timedBySceneOf fps els timing m !! id = Some timed -> NoDup (element <$> timed).
Proof.
  induction els as [|el els IH]; intros timing m Hm; cbn [timedBySceneOf]; [exact Hm|].
  destruct timing as [|scene rest]; [exact Hm|]. apply IH.
  destruct (computeTimedElements _ _ _ _) as [|x l] eqn:Hl; [exact Hm|].
  intros id timed. rewrite <- Hl. destruct (decide (sceneId scene = id)) as [->|Hne].
  - rewrite lookup_insert_eq. intros [= <-]. apply walk_elements.
  - rewrite lookup_insert_ne by exact Hne. apply Hm.
Qed.

Lemma mountVmlPlayer_timed {Json : Type} (JSON_parse : string -> option Json)
    (spread : Json -> Json -> Json) xmlRoot root host u p sid timed :
  mountVmlPlayer JSON_parse spread xmlRoot root host u = Ok p ->
  timedByScene p !! sid = Some timed -> NoDup (element <$> timed).
Proof.
  unfold mountVmlPlayer. destruct (computeSceneTimings _ _ _ _ _) as [t|]; [|discriminate].
  cbn. intros [= <-]. cbn [timedByScene]. apply timedBySceneOf_NoDup.
  intros id l Hl. now rewrite lookup_empty in Hl.
Qed.

(** *** Views *)

Lemma viewOf_onElement_eq f h vs : viewOf (onElement f h vs) h = f (viewOf vs h).
Proof. unfold viewOf, onElement. now rewrite lookup_insert_eq. Qed.

Lemma viewOf_onElement_ne f h h' vs : h <> h' -> viewOf (onElement f h vs) h' = viewOf vs h'.
Proof. intros Hne. unfold viewOf, onElement. now rewrite lookup_insert_ne. Qed.

Lemma viewOf_applyTimed_other t (timed : list TimedElement) : forall vs h,
  h ∉ element <$> timed -> viewOf (foldl (applyTimed t) vs timed) h = viewOf vs h.
Proof.
  induction timed as [|x rest IH]; intros vs h Hnot; [reflexivity|].
  cbn [foldl]. rewrite fmap_cons in Hnot. apply not_elem_of_cons in Hnot as [Hx Hrest].
  rewrite IH by exact Hrest. unfold applyTimed. apply viewOf_onElement_ne. congruence.
Qed.

Lemma viewOf_applyTimed t (timed : list TimedElement) : forall vs item,
  NoDup (element <$> timed) -> item ∈ timed ->
  viewOf (foldl (applyTimed t) vs timed) (element item)
  = (if isVisible t item then showTimed else hideTimed) (viewOf vs (element item)).
Proof.
  induction timed as [|x rest IH]; intros vs item Hnd Hin.
  - now apply elem_of_nil in Hin.
  - rewrite fmap_cons in Hnd. apply NoDup_cons in Hnd as [Hx Hnd].
    cbn [foldl]. apply elem_of_cons in Hin as [-> | Hin].
    + rewrite viewOf_applyTimed_other by exact Hx.
      unfold applyTimed. apply viewOf_onElement_eq.
    + rewrite IH by assumption. f_equal.
      unfold applyTimed. apply viewOf_onElement_ne.
      intros Heq. apply Hx. rewrite Heq. now apply list_elem_of_fmap_2.
Qed.

Lemma handleTick_views p s t sid timed :
  activeSceneAt p s t = Some sid -> sid <> "" -> timedByScene p !! sid = Some timed ->
  views (handleTick p s t).1
  = foldl (applyTimed t) (scanScenes t (playerScenes p) None (views s)).2 timed.
Proof.
  unfold activeSceneAt, handleTick. intros Hact Hne Htimed.
  destruct (scanScenes t (playerScenes p) None (views s)) as [active views1].
  cbn [fst snd] in *. subst active.
  destruct (scanCues _ _ _ _) as [cues' evs]. cbn [fst views].
  unfold Str.truthy. destruct (String.eqb_spec sid "") as [->|_]; [congruence|].
  cbn [negb mbind option_bind]. now rewrite Htimed.
Qed.

Lemma timed_visibility p s t sid timed item :
  activeSceneAt p s t = Some sid -> sid <> "" ->
  timedByScene p !! sid = Some timed -> NoDup (element <$> timed) -> item ∈ timed ->
  start item = Fin 1 -> end_ item = Fin 2 ->
  let before := viewOf (scanScenes t (playerScenes p) None (views s)).2 (element item) in
  let after := viewOf (views (handleTick p s t).1) (element item) in
  (Num.le (Fin 1) t = true -> Num.lt t (Fin 2) = true ->
   isVisible t item = true
   /\ styleDisplay after = default "" (savedDisplay before)
   /\ savedDisplay after = savedDisplay before)
  /\ (t = Fin 2 ->
      isVisible t item = false
      /\ styleDisplay after = "none"
      /\ savedDisplay after = Some (default (styleDisplay before) (savedDisplay before))).
Proof.
  intros Hact Hne Htimed Hnd Hin Hstart Hend before after.
  assert (Hafter : after = (if isVisible t item then showTimed else hideTimed) before).
  { unfold after, before. rewrite (handleTick_views p s t sid timed) by assumption.
    now apply viewOf_applyTimed. }
  unfold isVisible in *. rewrite Hstart, Hend in *. split.
  - intros Hle Hlt. unfold Num.ge in *. rewrite Hle, Hlt in *.
    rewrite Hafter. now split_and!.
  - intros ->. cbn in Hafter |- *. rewrite Hafter. clearbody before.
    split_and!; [reflexivity|reflexivity|].
    change (Qle_bool 1 2 && negb (Qle_bool 2 2)) with false. cbn.
    now destruct (savedDisplay before).
Qed.

(** C7.  For a player that [mountVmlPlayer] has set up: in the scene that
    the tick finds active, a timed element with start 1 and end 2 is shown
    at every tick time [t] with [1 <= t < 2]: its [display] is the one that
    the handler had put aside when it hid the element, and unset when it
    had put none aside.  At [t = 2] it is hidden: its [display] is [none],
    and the [display] that it had is put aside unless one is already. *)
Theorem timed_visibility_half_open {Json : Type} (JSON_parse : string -> option Json)
    (spread : Json -> Json -> Json) xmlRoot root host u p s t sid timed item :
  mountVmlPlayer JSON_parse spread xmlRoot root host u = Ok p ->
  activeSceneAt p s t = Some sid -> sid <> "" ->
  timedByScene p !! sid = Some timed -> item ∈ timed ->
  start item = Fin 1 -> end_ item = Fin 2 ->
  let before := viewOf (scanScenes t (playerScenes p) None (views s)).2 (element item) in
  let after := viewOf (views (handleTick p s t).1) (element item) in
  (Num.le (Fin 1) t = true -> Num.lt t (Fin 2) = true ->
   isVisible t item = true
   /\ styleDisplay after = default "" (savedDisplay before)
   /\ savedDisplay after = savedDisplay before)
  /\ (t = Fin 2 ->
      isVisible t item = false
      /\ styleDisplay after = "none"
      /\ savedDisplay after = Some (default (styleDisplay before) (savedDisplay before))).
Proof.
  intros Hmount Hact Hne Htimed Hin Hstart Hend.
  apply (timed_visibility p s t sid timed item); try assumption.
  eapply mountVmlPlayer_timed; eassumption.
Qed.

(** The caption of [captionDoc], authored with the display [flex]: the tick
    at 2 hides it, the tick at 1.999 that follows shows it again with its
    own display. *)
Lemma timed_visibility_half_open_witness :
  mountVmlPlayer noJson noSpread captionDoc captionDoc [] true = Ok twoScenes
  /\ (let after := viewOf (views (handleTick twoScenes captionAuthored (Fin 2)).1)
                          (element caption) in
      styleDisplay (viewOf (views captionAuthored) (element caption)) = "flex"
      /\ isVisible (Fin 2) caption = false
      /\ styleDisplay after = "none" /\ savedDisplay after = Some "flex")
  /\ (let after := viewOf (views (handleTick twoScenes captionHidden (Fin (1999 # 1000))).1)
                          (element caption) in
      styleDisplay (viewOf (views captionHidden) (element caption)) = "none"
      /\ isVisible (Fin (1999 # 1000)) caption = true
      /\ styleDisplay after = "flex").
Proof.
  assert (Hmount : mountVmlPlayer noJson noSpread captionDoc captionDoc [] true = Ok twoScenes)
    by (vm_compute; reflexivity).
  assert (Hin : caption ∈ [caption]) by (apply list_elem_of_here).
  split; [exact Hmount|]. split.
  - destruct (proj2 (timed_visibility_half_open noJson noSpread captionDoc captionDoc [] true
                       twoScenes captionAuthored (Fin 2) "A" [caption] caption
                       Hmount eq_refl ltac:(discriminate) eq_refl Hin eq_refl eq_refl) eq_refl)
      as (H1 & H2 & H3).
    split_and!; [reflexivity|exact H1|exact H2|exact H3].
  - destruct (proj1 (timed_visibility_half_open noJson noSpread captionDoc captionDoc [] true
                       twoScenes captionHidden (Fin (1999 # 1000)) "A" [caption] caption
                       Hmount eq_refl ltac:(discriminate) eq_refl Hin eq_refl eq_refl)
                eq_refl eq_refl)
      as (H1 & H2 & _).
    split_and!; [reflexivity|exact H1|exact H2].
Defined.

Lemma scanCues_no_scene_event t frame cues : forall active,
  List.filter isSceneEvent (scanCues t frame cues active).2 = [].
Proof.
  induction cues as [|c rest IH]; intros active; [reflexivity|].
  cbn [scanCues].
  destruct (cueIsActive t c && negb (bool_decide (cueId c ∈ active))).
  - specialize (IH ({[cueId c]} ∪ active)). destruct (scanCues t frame rest _). cbn in *. exact IH.
  - destruct (negb (cueIsActive t c) && bool_decide (cueId c ∈ active)).
    + specialize (IH (active ∖ {[cueId c]})). destruct (scanCues t frame rest _). cbn in *. exact IH.
    + apply IH.
Qed.

Lemma handleTick_scene_events p s t :
  List.filter isSceneEvent (handleTick p s t).2
  = sceneEvents (lastActiveSceneId s) (activeSceneAt p s t) t
      (Num.floor (Num.mul t (playerFps p))).
Proof.
  unfold activeSceneAt, handleTick.
  destruct (scanScenes t (playerScenes p) None (views s)) as [active views1].
  pose proof (scanCues_no_scene_event t (Num.floor (Num.mul t (playerFps p)))
                (playerCues p) (activeCues s)) as Hcues.
  destruct (scanCues _ _ _ _) as [cues' evs]. cbn [fst snd] in *.
  rewrite !List.filter_app, Hcues. cbn [List.filter isSceneEvent app].
  assert (Hs : forall l a f, List.filter isSceneEvent (sceneEvents l a t f) = sceneEvents l a t f).
  { intros l a f. unfold sceneEvents. case_bool_decide; [reflexivity|].
    destruct l as [x|], a as [y|]; try destruct (String.eqb x ""); try destruct (String.eqb y "");
      reflexivity. }
  rewrite Hs. destruct (onTimeUpdate p); cbn; now rewrite app_nil_r.
Qed.

Lemma handleTick_last p s t : lastActiveSceneId (handleTick p s t).1 = activeSceneAt p s t.
Proof.
  unfold activeSceneAt, handleTick.
  destruct (scanScenes t (playerScenes p) None (views s)) as [active views1].
  now destruct (scanCues _ _ _ _).
Qed.

(** C8.  [lastActiveSceneId] is the scene that the previous tick found
    active.  When the tick finds another scene active, its scene events
    are [scene:end] for the previous id and then [scene:start] for the new
    one, in this order and on this tick; when no scene was active before,
    the only scene event is [scene:start]; when the active scene is the
    same, there is none. *)
Theorem scene_end_precedes_scene_start p s t :
  let frame := Num.floor (Num.mul t (playerFps p)) in
  lastActiveSceneId (handleTick p s t).1 = activeSceneAt p s t
  /\ (forall a b,
         lastActiveSceneId s = Some a -> activeSceneAt p s t = Some b ->
         a <> "" -> b <> "" -> a <> b ->
         List.filter isSceneEvent (handleTick p s t).2
         = [SceneEnd a t frame; SceneStart b t frame])
  /\ (forall b,
         lastActiveSceneId s = None -> activeSceneAt p s t = Some b -> b <> "" ->
         List.filter isSceneEvent (handleTick p s t).2 = [SceneStart b t frame])
  /\ (activeSceneAt p s t = lastActiveSceneId s ->
      List.filter isSceneEvent (handleTick p s t).2 = []).
Proof.
  intros frame. split; [apply handleTick_last|].
  rewrite handleTick_scene_events. fold frame. unfold sceneEvents.
  split; [|split].
  - intros a b -> -> Ha Hb Hab. rewrite bool_decide_eq_false_2 by congruence.
    destruct (String.eqb_spec a ""); [congruence|].
    destruct (String.eqb_spec b ""); [congruence|]. reflexivity.
  - intros b -> -> Hb. rewrite bool_decide_eq_false_2 by congruence.
    destruct (String.eqb_spec b ""); [congruence|]. reflexivity.
  - intros ->. now rewrite bool_decide_eq_true_2.
Qed.

Lemma scene_end_precedes_scene_start_witness :
  List.filter isSceneEvent (handleTick twoScenes duringA (Fin 5)).2
  = [SceneEnd "A" (Fin 5) (Fin 150); SceneStart "B" (Fin 5) (Fin 150)]
  /\ List.filter isSceneEvent (handleTick twoScenes beforeFirstTick (Fin 1)).2
     = [SceneStart "A" (Fin 1) (Fin 30)].
Proof.
  split.
  - apply (proj1 (proj2 (scene_end_precedes_scene_start twoScenes duringA (Fin 5))) "A" "B");
      solve [reflexivity | discriminate].
  - apply (proj1 (proj2 (proj2 (scene_end_precedes_scene_start twoScenes beforeFirstTick (Fin 1)))) "A");
      solve [reflexivity | discriminate].
Defined.

End RuntimeFacts.

(** ** Time expressions and the resolver on the sample compositions *)

Module ResolverExamples.
Import TimeExpr Xml Samples.

(** C9.  A number with the suffix [f] is divided by the frame rate of the
    context, with [ms] by 1000, with [s] or no suffix it is kept; 24 frames
    at 25 frames per second are 0.96 and 500 ms are 0.5 seconds.  But
    [parseNumber] accepts no decimal numeral, so that the [fps] attribute
    [25] is not read: the composition runs at 30 frames per second and its
    [24f] is 0.8 seconds. *)
Theorem unit_suffixes_and_fps_attribute :
  (forall v ctx, evalTimeAst (ANumber v (Some UnitF)) ctx = Ok (Num.div v (fps ctx)))
  /\ (forall v ctx, evalTimeAst (ANumber v (Some UnitMs)) ctx = Ok (Num.div v (Num.of_Z 1000)))
  /\ (forall v ctx, evalTimeAst (ANumber v (Some UnitS)) ctx = Ok v)
  /\ (forall v ctx, evalTimeAst (ANumber v None) ctx = Ok v)
  /\ parseTimeExpression "24f" = Ok (ANumber (Fin 24) (Some UnitF))
  /\ parseTimeExpression "500ms" = Ok (ANumber (Fin 500) (Some UnitMs))
  /\ Num.div (Fin 24) (Fin 25) = Fin (24 # 25)
  /\ Num.div (Fin 500) (Num.of_Z 1000) = Fin (1 # 2)
  /\ parseNumber (Some "25") = None
  /\ (forall (Json : Type) (JSON_parse : string -> option Json) (spread : Json -> Json -> Json),
         exists c,
           loadVideoFileFromXml JSON_parse spread fps25 = Ok c
           /\ metaFps c = Fin 30
           /\ sceneTime <$> compositionScenes c
              = [Some {| timeStart := Some (Fin (4 # 5)); timeEnd := Some (Fin (13 # 10)) |}]).
Proof.
  repeat split; try reflexivity.
  intros Json JSON_parse spread. eexists. split; [vm_compute; reflexivity|].
  split; reflexivity.
Qed.

(** C3.  In [forwardRef] every cue id is unique, and the first scene holds
    a cue followed by an element whose start refers to the second scene.
    The first pass over the first scene registers the cue id and stops at
    the reference; the pass ends with that scene still pending; the attempt
    of the second pass throws the duplicate-cue-id error, which is the error
    of the whole resolution. *)
Theorem failed_pass_keeps_cue_ids :
  forall (Json : Type) (JSON_parse : string -> option Json) (spread : Json -> Json -> Json),
  exists root sceneA,
    let els := sceneElementsOf root in
    let st0 := initialState (Json := Json) (length els) in
    NoDup (allCueIdAttrs root)
    /\ els !! 0%nat = Some sceneA
    /\ Dom.children sceneA
       = [ Element "cue" [("id", "c1")] [];
           Element "title" [("start", "scene(b).start")] [] ]
    /\ sceneCueIds sceneA = ["c1"]
    /\ cueIds st0 = ∅
    /\ (sceneBody JSON_parse spread (Fin 30) els st0 0 sceneA).2
       = Throw (MissingTimeReferenceError "scene(b).start")
    /\ "c1" ∈ cueIds (sceneBody JSON_parse spread (Fin 30) els st0 0 sceneA).1
    /\ (exists st1,
           resolvePass JSON_parse spread (Fin 30) els (pending st0) st0 false = Ok (st1, true)
           /\ pending st1 = [0%nat]
           /\ "c1" ∈ cueIds st1
           /\ resolvePass JSON_parse spread (Fin 30) els (pending (addPass st1)) (addPass st1) false
              = Throw (errDuplicateCue "c1"))
    /\ loadVideoFileFromXml JSON_parse spread root = Throw (errDuplicateCue "c1").
Proof.
  intros Json JSON_parse spread. exists forwardRef, sceneWithCue.
  cbv zeta. split; [|split; [|split; [|split; [|split; [|split; [|split; [|split]]]]]]].
  - vm_compute. apply NoDup_singleton.
  - reflexivity.
  - reflexivity.
  - reflexivity.
  - reflexivity.
  - vm_compute. reflexivity.
  - apply (bool_decide_unpack _); vm_compute; exact I.
  - eexists. split; [vm_compute; reflexivity|].
    split; [reflexivity|]. split; [apply (bool_decide_unpack _); vm_compute; exact I|].
    vm_compute. reflexivity.
  - vm_compute. reflexivity.
Qed.

(** C1, on the code.  The scenes of [backwardRef] and of [forwardRef] are
    the same and every cue id is unique; with the scene that is referred to
    first the composition resolves, and the scenes of [forwardRef] resolve
    one after the other in the order second, first; yet with the reference
    pointing forward the resolution ends in the duplicate-cue-id error of
    the retry.  The two scenes of [cycle] wait for each other's end: the
    error names both. *)
Theorem forward_reference_after_cue_fails :
  forall (Json : Type) (JSON_parse : string -> option Json) (spread : Json -> Json -> Json),
    NoDup (allCueIdAttrs forwardRef)
    /\ (exists c,
           loadVideoFileFromXml JSON_parse spread backwardRef = Ok c
           /\ sceneId <$> compositionScenes c = ["b"; "a"])
    /\ (exists final,
           ResolverSpec.runInOrder JSON_parse spread (Fin 30) (sceneElementsOf forwardRef)
             [1; 0]%nat (initialState 2) = Some final)
    /\ loadVideoFileFromXml JSON_parse spread forwardRef = Throw (errDuplicateCue "c1")
    /\ loadVideoFileFromXml JSON_parse spread cycle
       = Throw (Error "Unresolved time references for scenes: a, b").
Proof.
  intros Json JSON_parse spread. split; [|split; [|split; [|split]]].
  - vm_compute. apply NoDup_singleton.
  - eexists. split; [vm_compute; reflexivity|]. reflexivity.
  - eexists. vm_compute. reflexivity.
  - vm_compute. reflexivity.
  - vm_compute. reflexivity.
Qed.

End ResolverExamples.

(** ** The fixed-point loop: what a pass keeps and what it changes *)

Module ResolverFacts.
Import TimeExpr Xml ResolverSpec.


Lemma parseCue_id el ctx cue : parseCue el ctx = Ok cue -> attrIf el "id" = Some (cueId cue).
Proof.
  unfold parseCue. destruct (attrIf el "id") as [id|]; [|discriminate].
  destruct (parseTimeRange el ctx _) as [time|]; [|discriminate]. cbn.
  destruct (parseCueChildren _ ctx) as [[segs bullets]|]; [|discriminate]. cbn.
  now intros [= <-].
Qed.

Section Facts.
Context {Json : Type}.
Variable JSON_parse : string -> option Json.
Variable spread : Json -> Json -> Json.
Variable fps : number.
Variable sceneElements : list Node.

Local Abbreviation State := (ResolverState (Json := Json)).
Local Abbreviation children := (sceneChildren JSON_parse spread fps sceneElements).
Local Abbreviation body := (sceneBody JSON_parse spread fps sceneElements).
Local Abbreviation pass := (resolvePass JSON_parse spread fps sceneElements).
Local Abbreviation loop := (resolveLoop JSON_parse spread fps sceneElements).
Local Abbreviation attempts := (passAttempts JSON_parse spread fps sceneElements).
Local Abbreviation next := (nextPass JSON_parse spread fps sceneElements).
Local Abbreviation ends := (endsBy JSON_parse spread fps sceneElements).

Lemma sameScenes_refl (st : State) : sameScenes st st.
Proof. repeat split. Qed.

Lemma sameScenes_trans (st1 st2 st3 : State) : sameScenes st1 st2 -> sameScenes st2 st3 -> sameScenes st1 st3.
Proof. unfold sameScenes. intuition congruence. Qed.

Lemma sameScenes_registerCue (st : State) cue : sameScenes st (registerCue st cue).
Proof. repeat split. Qed.

Ltac children_step :=
  match goal with
  | |- context [String.eqb ?a ?b] => destruct (String.eqb a b) eqn:?
  | |- context [parseCue ?c ?x] => destruct (parseCue c x) eqn:?
  | |- context [parsePause ?c ?x] => destruct (parsePause c x) eqn:?
  | |- context [parseLayer ?j ?c ?x] => destruct (parseLayer j c x) eqn:?
  | |- context [parseComponentOrContainer ?j ?s ?c ?x ?i] =>
      destruct (parseComponentOrContainer j s c x i) as [[? ?]|] eqn:?
  | |- context [bool_decide ?P] => destruct (bool_decide P) eqn:?
  end.

Lemma sceneChildren_frame index cs : forall st acc st' r,
  children index cs st acc = (st', r) -> sameScenes st st' /\ cueIds st ⊆ cueIds st'.
Proof.
  induction cs as [|child rest IH]; intros st acc st' r H; cbn [sceneChildren] in H.
  - injection H as <- <-. split; [apply sameScenes_refl|set_solver].
  - revert H. repeat children_step; intros H;
      try (injection H as <- <-; split; [apply sameScenes_refl|set_solver]);
      try (apply IH in H; exact H).
    apply IH in H as [Hs Hc]. split.
    + eapply sameScenes_trans; [apply sameScenes_registerCue|exact Hs].
    + cbn [registerCue cueIds] in Hc. set_solver.
Qed.

Lemma sceneChildren_ok index cs : forall st acc st' acc',
  children index cs st acc = (st', Ok acc') ->
  NoDup (omap cueIdOf cs)
  /\ (forall id, id ∈ omap cueIdOf cs -> id ∉ cueIds st)
  /\ cueIds st' = list_to_set (omap cueIdOf cs) ∪ cueIds st.
Proof.
  induction cs as [|child rest IH]; intros st acc st' acc' H; cbn [sceneChildren] in H.
  - injection H as <- <-. cbn. split; [constructor|]. split; [|set_solver].
    intros id Hid. now apply elem_of_nil in Hid.
  - cbn [omap list_omap]. revert H.
    destruct (String.eqb (Dom.tagName child) "cue") eqn:Hcue.
    + destruct (parseCue child _) as [cue|] eqn:Hparse; [|discriminate].
      assert (Hid : cueIdOf child = Some (cueId cue)).
      { unfold cueIdOf. rewrite Hcue. eapply parseCue_id, Hparse. }
      rewrite Hid.
      destruct (bool_decide (cueId cue ∈ cueIds st)) eqn:Hdup; [discriminate|].
      apply bool_decide_eq_false in Hdup.
      intros H. apply IH in H as [Hnd [Hfresh Hids]].
      cbn [registerCue cueIds] in Hfresh, Hids.
      split; [|split].
      * constructor; [|exact Hnd]. intros Hin. apply Hfresh in Hin. set_solver.
      * intros id [->|Hin]%elem_of_cons; [exact Hdup|]. apply Hfresh in Hin. set_solver.
      * rewrite Hids. cbn [list_to_set]. set_solver.
    + assert (Hid : cueIdOf child = None) by (unfold cueIdOf; now rewrite Hcue).
      rewrite Hid.
      repeat children_step; intros H; try discriminate; apply IH in H; exact H.
Qed.

Lemma sceneBody_frame st index el st' r :
  body st index el = (st', r) -> sameScenes st st' /\ cueIds st ⊆ cueIds st'.
Proof.
  unfold sceneBody. destruct (attrIf el "id"); [|intros [= <- <-]; split; [apply sameScenes_refl|set_solver]].
  destruct (parseTiming el _); [|intros [= <- <-]; split; [apply sameScenes_refl|set_solver]].
  destruct (children index (Dom.children el) st _) as [st1 r1] eqn:Hc.
  intros [= <- <-]. now apply sceneChildren_frame in Hc.
Qed.

Lemma sceneBody_ok st index el st' data :
  body st index el = (st', Ok data) ->
  NoDup (sceneCueIds el)
  /\ (forall id, id ∈ sceneCueIds el -> id ∉ cueIds st)
  /\ cueIds st' = list_to_set (sceneCueIds el) ∪ cueIds st.
Proof.
  unfold sceneBody. destruct (attrIf el "id"); [|discriminate].
  destruct (parseTiming el _); [|discriminate].
  destruct (children index (Dom.children el) st _) as [st1 [acc|e]] eqn:Hc; [|discriminate].
  intros [= <- _]. now apply sceneChildren_ok in Hc.
Qed.


(** *** One pass *)

Lemma commitScene_pending (st : State) index data :
  pending (commitScene st index data) = filter (fun i => i <> index) (pending st).
Proof. reflexivity. Qed.

Lemma pass_no_progress snapshot : forall (st : State) progressed st',
  pass snapshot st progressed = Ok (st', false) ->
  progressed = false /\ pending st' = pending st.
Proof.
  induction snapshot as [|index rest IH]; intros st progressed st' H; cbn [resolvePass] in H.
  - now injection H as <- <-.
  - destruct (sceneElements !! index) as [el|]; [|discriminate].
    destruct (body st index el) as [st1 [data|[what|msg]]] eqn:Hbody; [| |discriminate].
    + apply IH in H as [H _]. discriminate.
    + apply IH in H as [-> H]. split; [reflexivity|].
      apply sceneBody_frame in Hbody as [(_ & _ & _ & Hp & _) _]. congruence.
Qed.

Lemma pass_pending snapshot : forall (st : State) progressed st' progressed',
  NoDup snapshot -> (forall i, i ∈ snapshot -> i ∈ pending st) ->
  pass snapshot st progressed = Ok (st', progressed') ->
  (length (pending st') <= length (pending st))%nat
  /\ (forall i, i ∈ pending st' -> i ∈ pending st)
  /\ (progressed' = true -> progressed = true \/ (length (pending st') < length (pending st))%nat).
Proof.
  induction snapshot as [|index rest IH]; intros st progressed st' progressed' Hnd Hin H;
    cbn [resolvePass] in H.
  - injection H as <- <-. split; [lia|]. split; [tauto|]. now left.
  - apply NoDup_cons in Hnd as [Hfresh Hnd].
    destruct (sceneElements !! index) as [el|]; [|discriminate].
    destruct (body st index el) as [st1 [data|[what|msg]]] eqn:Hbody; [| |discriminate].
    + apply sceneBody_frame in Hbody as [(_ & _ & _ & Hp & _) _].
      apply IH in H as (Hlen & Hsub & _); [|exact Hnd|].
      * rewrite commitScene_pending, Hp in Hlen, Hsub.
        assert (Hlt : (length (filter (fun i => i <> index) (pending st)) < length (pending st))%nat).
        { apply (length_filter_lt _ _ index); [apply Hin, list_elem_of_here|tauto]. }
        split; [lia|]. split; [|right; lia].
        intros i Hi. apply Hsub in Hi. now apply list_elem_of_filter in Hi as [_ Hi].
      * intros i Hi. rewrite commitScene_pending, Hp. apply list_elem_of_filter. split.
        -- intros ->. contradiction.
        -- apply Hin. now apply list_elem_of_further.
    + apply sceneBody_frame in Hbody as [(_ & _ & _ & Hp & _) _].
      apply IH in H; [|exact Hnd|].
      * now rewrite Hp in H.
      * intros i Hi. rewrite Hp. apply Hin. now apply list_elem_of_further.
Qed.

Lemma pass_NoDup snapshot : forall (st : State) progressed st' progressed',
  NoDup (pending st) ->
  pass snapshot st progressed = Ok (st', progressed') -> NoDup (pending st').
Proof.
  induction snapshot as [|index rest IH]; intros st progressed st' progressed' Hnd H;
    cbn [resolvePass] in H.
  - now injection H as <- <-.
  - destruct (sceneElements !! index) as [el|]; [|discriminate].
    destruct (body st index el) as [st1 [data|[what|msg]]] eqn:Hbody; [| |discriminate];
      apply sceneBody_frame in Hbody as [(_ & _ & _ & Hp & _) _];
      apply IH in H; try exact H.
    + rewrite commitScene_pending, Hp. now apply NoDup_filter.
    + now rewrite Hp.
Qed.

Lemma pass_throw snapshot : forall (st : State) progressed err,
  (forall i, i ∈ snapshot -> (i < length sceneElements)%nat) ->
  pass snapshot st progressed = Throw err ->
  (forall what, err <> MissingTimeReferenceError what)
  /\ exists st0 st1 index el,
       (st0, index) ∈ attempts snapshot st
       /\ sceneElements !! index = Some el
       /\ body st0 index el = (st1, Throw err).
Proof.
  induction snapshot as [|index rest IH]; intros st progressed err Hlt H;
    cbn [resolvePass passAttempts] in *.
  - discriminate.
  - assert (Hrest : forall i, i ∈ rest -> (i < length sceneElements)%nat).
    { intros i Hi. apply Hlt. now apply list_elem_of_further. }
    destruct (sceneElements !! index) as [el|] eqn:Hel.
    + destruct (body st index el) as [st1 [data|[what|msg]]] eqn:Hbody.
      * destruct (IH _ _ _ Hrest H) as (Hnot & st0 & st2 & i & el' & Hin & Hi & Hthrow).
        split; [exact Hnot|]. exists st0, st2, i, el'. split; [now right|now split].
      * destruct (IH _ _ _ Hrest H) as (Hnot & st0 & st2 & i & el' & Hin & Hi & Hthrow).
        split; [exact Hnot|]. exists st0, st2, i, el'. split; [now right|now split].
      * injection H as <-. split; [discriminate|].
        exists st, st1, index, el. split; [now left|now split].
    + apply lookup_ge_None in Hel. specialize (Hlt index (list_elem_of_here _ _)). lia.
Qed.


(** *** The loop *)

Lemma pending_addPass (st : State) : pending (addPass st) = pending st.
Proof. reflexivity. Qed.

Lemma pass_passes snapshot : forall (st : State) progressed st' progressed',
  pass snapshot st progressed = Ok (st', progressed') -> passes st' = passes st.
Proof.
  induction snapshot as [|index rest IH]; intros st progressed st' progressed' H;
    cbn [resolvePass] in H.
  - now injection H as <- <-.
  - destruct (sceneElements !! index) as [el|]; [|discriminate].
    destruct (body st index el) as [st1 [data|[what|msg]]] eqn:Hbody; [| |discriminate];
      apply sceneBody_frame in Hbody as [(_ & _ & _ & _ & Hp) _];
      apply IH in H; cbn in H; congruence.
Qed.

(** Every pass that resolves something shortens [pending]: with enough
    fuel for one pass per pending scene the loop ends, after a chain of
    passes, by one of its ways out, and never by the test of the number of
    passes. *)
Lemma loop_exit fuel : forall st : State,
  NoDup (pending st) ->
  (forall i, i ∈ pending st -> (i < length sceneElements)%nat) ->
  (passes st + length (pending st) <= length sceneElements)%nat ->
  (length (pending st) < fuel)%nat ->
  exists r last w,
    loop fuel st = Some r /\ rtc next st last /\ ends last w r /\ w <> NotConvergedFailure.
Proof.
  induction fuel as [|fuel IH]; intros st Hnd Hlt Hpasses Hfuel; [lia|].
  cbn [resolveLoop].
  destruct (pending st) as [|i0 p0] eqn:Hp.
  - exists (Ok st), st, Success. split_and!; [reflexivity|reflexivity|now split|discriminate].
  - rewrite <- Hp in *.
    assert (Hne : pending st <> []) by (rewrite Hp; discriminate).
    destruct (pass (pending st) st false) as [[st' progressed]|err] eqn:Hpass.
    + destruct progressed; cbn [negb].
      * pose proof (pass_passes _ _ _ _ _ Hpass) as Hn.
        destruct (pass_pending _ _ _ _ _ Hnd (fun i Hi => Hi) Hpass) as (Hlen & Hsub & Hprog).
        destruct (Hprog eq_refl) as [?|Hshort]; [discriminate|].
        assert (Htest : (length sceneElements + 2 <? passes (addPass st'))%nat = false).
        { apply Nat.ltb_ge. cbn [addPass passes]. lia. }
        rewrite Htest.
        destruct (IH (addPass st')) as (r & last & w & Hr & Hchain & Hends & Hw).
        -- rewrite pending_addPass. eapply pass_NoDup; eassumption.
        -- intros i Hi. rewrite pending_addPass in Hi. auto.
        -- cbn [addPass passes pending]. lia.
        -- rewrite pending_addPass. lia.
        -- exists r, last, w. split_and!; try assumption.
           eapply rtc_l; [|exact Hchain]. split; [exact Hne|]. now exists st'.
      * eexists _, st, NoProgressFailure.
        split_and!; [reflexivity|reflexivity| |discriminate].
        split; [exact Hne|]. now exists st'.
    + destruct (pass_throw _ _ _ _ Hlt Hpass) as (Hnot & Hattempt).
      exists (Throw err), st, SceneFailure.
      split_and!; [reflexivity|reflexivity| |discriminate].
      split; [exact Hne|]. exists err. now split_and!.
Qed.

Lemma resolveScenes_exit :
  exists r last w,
    loop (S (length sceneElements)) (initialState (length sceneElements)) = Some r
    /\ resolveScenes JSON_parse spread fps sceneElements = r
    /\ passStart JSON_parse spread fps sceneElements last
    /\ ends last w r
    /\ w <> NotConvergedFailure.
Proof.
  destruct (loop_exit (S (length sceneElements)) (initialState (length sceneElements)))
    as (r & last & w & Hr & Hchain & Hends & Hw).
  - apply NoDup_seq.
  - intros i Hi. apply elem_of_seq in Hi. lia.
  - cbn [initialState passes pending]. rewrite length_seq. lia.
  - cbn [initialState pending]. rewrite length_seq. lia.
  - exists r, last, w. unfold resolveScenes. rewrite Hr. now split_and!.
Qed.

(** The pass in which the loop is left is followed by no pass, it is left
    in one way only, and there is one such pass. *)
Lemma ends_final (st st' : State) w r : ends st w r -> next st st' -> False.
Proof.
  intros Hends (Hne & st1 & Hpass & Htest & _).
  destruct w; unfold endsBy in Hends.
  - destruct Hends as [Hp _]. contradiction.
  - destruct Hends as (_ & st2 & Hpass' & _). congruence.
  - destruct Hends as (_ & st2 & Hpass' & Htest' & _). congruence.
  - destruct Hends as (_ & err & Hpass' & _). congruence.
Qed.

Lemma ends_unique (st : State) w r w' r' : ends st w r -> ends st w' r' -> w = w' /\ r = r'.
Proof.
  intros H H'.
  destruct w; unfold endsBy in H;
    [destruct H as [Hp ->]
    |destruct H as (Hne & st1 & Hpass & ->)
    |destruct H as (Hne & st1 & Hpass & Htest & ->)
    |destruct H as (Hne & err & Hpass & -> & _)];
    (destruct w'; unfold endsBy in H';
     [destruct H' as [Hp' ->]
     |destruct H' as (Hne' & st1' & Hpass' & ->)
     |destruct H' as (Hne' & st1' & Hpass' & Htest' & ->)
     |destruct H' as (Hne' & err' & Hpass' & -> & _)]);
    try contradiction; try congruence; split; congruence.
Qed.

Lemma next_deterministic (st a b : State) : next st a -> next st b -> a = b.
Proof. intros (_ & a1 & Ha & _ & ->) (_ & b1 & Hb & _ & ->). congruence. Qed.

Lemma last_unique (st a b : State) w r w' r' :
  rtc next st a -> rtc next st b -> ends a w r -> ends b w' r' -> a = b.
Proof.
  intros Ha. revert b. induction Ha as [st|st mid a Hstep Ha IH]; intros b Hb Hends Hends'.
  - apply rtc_inv in Hb as [Hb|(mid & Hstep & _)]; [exact Hb|].
    exfalso. exact (ends_final _ _ _ _ Hends Hstep).
  - apply rtc_inv in Hb as [<-|(mid' & Hstep' & Hb)].
    + exfalso. exact (ends_final _ _ _ _ Hends' Hstep).
    + rewrite <- (next_deterministic _ _ _ Hstep Hstep') in Hb. now apply IH.
Qed.


(** *** Cue ids of the resolved scenes *)









End Facts.


End ResolverFacts.

(** ** More knowledge never changes an answer

    An attempt that ends without an unresolved reference, with a value or
    with another exception, ends in the same way in every state that knows
    at least the same times. *)

Module StableFacts.
Import TimeExpr Xml ResolverSpec.

Lemma stable_refl {A} (r : result A) : stable r r.
Proof. now intros _. Qed.

Lemma stable_bind {A B} (m m' : result A) (f f' : A -> result B) :
  stable m m' -> (forall a, stable (f a) (f' a)) -> stable (m ≫= f) (m' ≫= f').
Proof.
  intros Hm Hf Hnot. destruct m as [a|e].
  - rewrite Hm by discriminate. cbn. apply Hf. exact Hnot.
  - rewrite Hm; [reflexivity|]. intros what Hwhat. apply (Hnot what). now rewrite Hwhat.
Qed.

Lemma AstNode_forall (P : AstNode -> Prop) :
  (forall v u, P (ANumber v u)) ->
  (forall v, P (AIdentifier v)) ->
  (forall op l r, P l -> P r -> P (ABinary op l r)) ->
  (forall op v, P v -> P (AUnary op v)) ->
  (forall name args, Forall P args -> P (ACall name args)) ->
  (forall target prop, P target -> P (AProperty target prop)) ->
  forall e, P e.
Proof.
  intros Hn Hi Hb Hu Hc Hp. fix IH 1. intros [v u|v|op l r|op v|name args|target prop].
  - apply Hn.
  - apply Hi.
  - apply Hb; apply IH.
  - apply Hu; apply IH.
  - apply Hc. induction args as [|a args IHargs]; constructor; [apply IH|exact IHargs].
  - apply Hp; apply IH.
Qed.

Lemma lookupOr_stable what v v' :
  (forall x, v = Some x -> v' = Some x) -> stable (lookupOr what v) (lookupOr what v').
Proof.
  intros H Hnot. destruct v as [x|]; [now rewrite (H x eq_refl)|].
  exfalso. now apply (Hnot what).
Qed.

(** The two sides are the same program run in two contexts: they are taken
    apart together. *)
Ltac stable_eval :=
  repeat match goal with
         | |- stable ?r ?r => apply stable_refl
         | |- stable (_ ≫= _) (_ ≫= _) => apply stable_bind; [|intros ?]
         | |- stable (lookupOr _ _) (lookupOr _ _) => apply lookupOr_stable
         | |- stable (if ?b then _ else _) (if ?b then _ else _) => destruct b
         | |- stable (match ?x with _ => _ end) (match ?x with _ => _ end) => destruct x
         | H : Forall _ (_ :: _) |- _ => apply Forall_cons in H; destruct H
         end.

Lemma evalTimeAst_stable ctx ctx' : ctxLe ctx ctx' ->
  forall e, stable (evalTimeAst e ctx) (evalTimeAst e ctx').
Proof.
  intros (Hfps & Hss & Hse & Hcs & Hps & Hpe & Hns).
  induction e as [v u|v|op l r IHl IHr|op v IHv|name args IHargs|target prop IHt]
    using AstNode_forall.
  - cbn. rewrite Hfps. apply stable_refl.
  - apply stable_refl.
  - cbn [evalTimeAst]. repeat (apply stable_bind; [|intros ?]); try assumption. apply stable_refl.
  - cbn [evalTimeAst]. repeat (apply stable_bind; [|intros ?]); try assumption. apply stable_refl.
  - cbn [evalTimeAst].
    set (go := fix go (l : list AstNode) : result (list number) := _).
    set (go' := fix go (l : list AstNode) : result (list number) := _).
    assert (Hgo : stable (go args) (go' args)).
    { induction IHargs as [|a l Ha _ IH]; [apply stable_refl|]. cbn.
      repeat (apply stable_bind; [|intros ?]); try assumption. apply stable_refl. }
    clearbody go go'. stable_eval; auto.
  - clear IHt. cbn [evalTimeAst]. stable_eval; auto.
Qed.

Lemma parseTimeValue_stable ctx ctx' value : ctxLe ctx ctx' ->
  stable (parseTimeValue value ctx) (parseTimeValue value ctx').
Proof.
  intros Hle. unfold parseTimeValue. apply stable_bind; [apply stable_refl|intros e].
  now apply evalTimeAst_stable.
Qed.

Section Stable.
Context {Json : Type}.
Variable JSON_parse : string -> option Json.
Variable spread : Json -> Json -> Json.
Variables ctx ctx' : TimeEvalContext.
Hypothesis Hle : ctxLe ctx ctx'.

Ltac stable_step :=
  match goal with
  | |- stable ?r ?r => apply stable_refl
  | |- stable (parseTimeValue _ _) (parseTimeValue _ _) => apply parseTimeValue_stable; exact Hle
  | |- stable (_ ≫= _) (_ ≫= _) => apply stable_bind; [|intros ?]
  | |- stable (if ?b then _ else _) (if ?b then _ else _) => destruct b
  | |- stable (match ?x with _ => _ end) (match ?x with _ => _ end) => destruct x
  | |- stable (let '(_, _) := ?x in _) (let '(_, _) := ?x in _) => destruct x
  end.

Lemma timeAttr_stable el name : stable (timeAttr el name ctx) (timeAttr el name ctx').
Proof. unfold timeAttr. repeat stable_step. Qed.

Lemma parseContainerTiming_stable el :
  stable (parseContainerTiming el ctx) (parseContainerTiming el ctx').
Proof.
  unfold parseContainerTiming.
  repeat first [apply timeAttr_stable | stable_step].
Qed.

Lemma parseTiming_stable el : stable (parseTiming el ctx) (parseTiming el ctx').
Proof.
  unfold parseTiming.
  repeat first [apply timeAttr_stable | stable_step].
Qed.

Lemma parseTimeRange_stable el label :
  stable (parseTimeRange el ctx label) (parseTimeRange el ctx' label).
Proof.
  unfold parseTimeRange.
  repeat first [apply timeAttr_stable | stable_step].
Qed.

Lemma parsePause_stable el : stable (parsePause el ctx) (parsePause el ctx').
Proof.
  unfold parsePause.
  repeat first [apply timeAttr_stable | stable_step].
Qed.

Lemma parseCueChildren_stable cs : stable (parseCueChildren cs ctx) (parseCueChildren cs ctx').
Proof.
  induction cs as [|child rest IH]; [apply stable_refl|]. cbn [parseCueChildren].
  repeat first [exact IH | apply timeAttr_stable | apply parsePause_stable | stable_step].
Qed.

Lemma parseCue_stable el : stable (parseCue el ctx) (parseCue el ctx').
Proof.
  unfold parseCue.
  repeat first [apply parseTimeRange_stable | apply parseCueChildren_stable | stable_step].
Qed.

Lemma parseComponentElement_stable el idx override :
  stable (parseComponentElement JSON_parse el ctx idx override)
         (parseComponentElement JSON_parse el ctx' idx override).
Proof.
  unfold parseComponentElement.
  repeat first [apply parseTiming_stable | stable_step].
Qed.

Lemma parseContainerChildren_stable el : forall idx start flow styles markup,
  stable (parseContainerChildren JSON_parse spread el ctx idx start flow styles markup)
         (parseContainerChildren JSON_parse spread el ctx' idx start flow styles markup).
Proof.
  induction el as [d|t a cs IH] using RuntimeFacts.Node_forall;
    intros idx start flow styles markup.
  - cbn [parseContainerChildren]. repeat stable_step.
  - cbn [parseContainerChildren].
    apply stable_bind; [apply stable_refl|intros containerStyles].
    apply stable_bind; [apply stable_refl|intros containerMarkup].
    match goal with
    | |- stable (?f _ _ _ _ _) (?g _ _ _ _ _) =>
        assert (Hloop : forall components componentIndex cursor maxEnd,
                   stable (f cs components componentIndex cursor maxEnd)
                          (g cs components componentIndex cursor maxEnd));
        [|apply Hloop]
    end.
    induction IH as [|child rest Hchild _ IHrest]; intros components componentIndex cursor maxEnd.
    + apply stable_refl.
    + cbn fix beta iota.
      repeat first [apply IHrest | apply Hchild | apply parseContainerTiming_stable
                   | apply timeAttr_stable | apply parseComponentElement_stable | stable_step].
Qed.

Lemma parseComponentOrContainer_stable child idx :
  stable (parseComponentOrContainer JSON_parse spread child ctx idx)
         (parseComponentOrContainer JSON_parse spread child ctx' idx).
Proof.
  unfold parseComponentOrContainer.
  repeat first [apply parseContainerTiming_stable | apply parseContainerChildren_stable
               | apply parseComponentElement_stable | stable_step].
Qed.

Lemma parseLayerChildren_stable cs : forall components idx,
  stable (parseLayerChildren JSON_parse spread cs ctx components idx)
         (parseLayerChildren JSON_parse spread cs ctx' components idx).
Proof.
  induction cs as [|child rest IH]; intros components idx; [apply stable_refl|].
  cbn [parseLayerChildren].
  repeat first [apply IH | apply parseComponentOrContainer_stable | stable_step].
Qed.

Lemma parseLayer_stable child :
  stable (parseLayer JSON_parse spread child ctx) (parseLayer JSON_parse spread child ctx').
Proof.
  unfold parseLayer.
  repeat first [apply parseTiming_stable | apply parseLayerChildren_stable | stable_step].
Qed.

End Stable.

End StableFacts.

(** ** The loop resolves what some order resolves

    The first half of C1 for the compositions in which an attempt that
    stops on an unresolved reference has registered no cue. *)

Module OrderFacts.
Import TimeExpr Xml ResolverSpec ResolverFacts StableFacts Samples.

Section Order.
Context {Json : Type}.
Variable JSON_parse : string -> option Json.
Variable spread : Json -> Json -> Json.
Variable fps : number.
Variable sceneElements : list Node.

Local Abbreviation State := (ResolverState (Json := Json)).
Local Abbreviation children := (sceneChildren JSON_parse spread fps sceneElements).
Local Abbreviation body := (sceneBody JSON_parse spread fps sceneElements).
Local Abbreviation pass := (resolvePass JSON_parse spread fps sceneElements).
Local Abbreviation loop := (resolveLoop JSON_parse spread fps sceneElements).
Local Abbreviation run := (runInOrder JSON_parse spread fps sceneElements).
Local Abbreviation ctxOf := (sceneCtx fps sceneElements).

(** *** An attempt in a state that knows more *)

Lemma sceneCtx_le (st st' : State) index : stateLe st st' -> ctxLe (ctxOf st index) (ctxOf st' index).
Proof.
  intros (Hsc & Hss & Hse & Hcs).
  assert (Hprev : forall p, match index with O => None | S i => scenes st !! i end = Some p ->
                            match index with O => None | S i => scenes st' !! i end = Some p).
  { destruct index as [|i]; [discriminate|]. intros p Hp. exact (lookup_weaken _ _ _ _ Hp Hsc). }
  repeat split; cbn.
  - intros id v Hv. exact (lookup_weaken _ _ _ _ Hv Hss).
  - intros id v Hv. exact (lookup_weaken _ _ _ _ Hv Hse).
  - intros id v Hv. exact (lookup_weaken _ _ _ _ Hv Hcs).
  - intros v Hv. apply bind_Some in Hv as (p & Hp & Hv). apply bind_Some. exists p.
    split; [now apply Hprev|]. exact (lookup_weaken _ _ _ _ Hv Hss).
  - intros v Hv. apply bind_Some in Hv as (p & Hp & Hv). apply bind_Some. exists p.
    split; [now apply Hprev|]. exact (lookup_weaken _ _ _ _ Hv Hse).
  - intros v Hv. apply bind_Some in Hv as (p & Hp & Hv). apply bind_Some. exists p.
    split; [exact Hp|]. apply bind_Some in Hv as (q & Hq & Hv). apply bind_Some. exists q.
    split; [exact Hq|]. exact (lookup_weaken _ _ _ _ Hv Hss).
Qed.

Lemma stateLe_registerCue (st st' : State) cue :
  stateLe st st' -> stateLe (registerCue st cue) (registerCue st' cue).
Proof.
  intros (Hsc & Hss & Hse & Hcs). repeat split; cbn; try assumption.
  destruct (cueTime cue); [now apply insert_mono|assumption].
Qed.

Lemma cueIdOf_parsed child ctx cue :
  String.eqb (Dom.tagName child) "cue" = true -> parseCue child ctx = Ok cue ->
  cueIdOf child = Some (cueId cue).
Proof. intros Htag Hcue. unfold cueIdOf. rewrite Htag. now apply parseCue_id in Hcue. Qed.

Lemma cueIdOf_other child :
  String.eqb (Dom.tagName child) "cue" = false -> cueIdOf child = None.
Proof. intros Htag. unfold cueIdOf. now rewrite Htag. Qed.

Lemma notMissing_throw {A B} e : notMissing (A := A) (Throw e) -> notMissing (A := B) (Throw e).
Proof. intros Hnot what [= ->]. now apply (Hnot what). Qed.

(** The children of a scene give the same answer in a state that knows at
    least the same times and answers the duplicate test alike. *)
Lemma children_mono index cs : forall (st st' : State) acc st1 r,
  stateLe st st' -> agree cs st st' ->
  children index cs st acc = (st1, r) -> notMissing r ->
  exists st1', children index cs st' acc = (st1', r).
Proof.
  induction cs as [|child rest IH]; intros st st' acc st1 r Hle Hag H Hnot;
    cbn [sceneChildren] in H |- *.
  - injection H as <- <-. now eexists.
  - pose proof (sceneCtx_le st st' index Hle) as Hctx.
    destruct (String.eqb (Dom.tagName child) "cue") eqn:Hcue.
    + pose proof (parseCue_stable _ _ Hctx child) as Hst.
      destruct (parseCue child (ctxOf st index)) as [cue|e] eqn:Hp.
      * rewrite Hst by discriminate.
        pose proof (cueIdOf_parsed _ _ _ Hcue Hp) as Hid.
        assert (Hin : cueId cue ∈ omap cueIdOf (child :: rest)).
        { cbn. rewrite Hid. set_solver. }
        destruct (bool_decide (cueId cue ∈ cueIds st)) eqn:Hdup.
        -- apply bool_decide_eq_true in Hdup. apply (Hag _ Hin) in Hdup.
           rewrite bool_decide_eq_true_2 by exact Hdup. injection H as <- <-. now eexists.
        -- apply bool_decide_eq_false in Hdup.
           rewrite bool_decide_eq_false_2 by (intros Hc; apply Hdup; now apply (Hag _ Hin)).
           eapply IH; [| |exact H|exact Hnot].
           ++ now apply stateLe_registerCue.
           ++ intros id Hrest. cbn.
              assert (Hin' : id ∈ omap cueIdOf (child :: rest)) by (cbn; rewrite Hid; set_solver).
              specialize (Hag id Hin'). set_solver.
      * injection H as <- <-. rewrite Hst; [now eexists|exact (notMissing_throw e Hnot)].
    + assert (Hag' : agree rest st st').
      { intros id Hid. apply Hag. cbn. now rewrite (cueIdOf_other _ Hcue). }
      destruct (String.eqb (Dom.tagName child) "pause").
      { pose proof (parsePause_stable _ _ Hctx child) as Hst.
        destruct (parsePause child (ctxOf st index)) as [p|e] eqn:Hp.
        - rewrite Hst by discriminate. eapply IH; eassumption.
        - injection H as <- <-. rewrite Hst; [now eexists|exact (notMissing_throw e Hnot)]. }
      destruct (String.eqb (Dom.tagName child) "layer").
      { pose proof (parseLayer_stable JSON_parse spread _ _ Hctx child) as Hst.
        destruct (parseLayer _ _ child (ctxOf st index)) as [p|e] eqn:Hp.
        - rewrite Hst by discriminate. eapply IH; eassumption.
        - injection H as <- <-. rewrite Hst; [now eexists|exact (notMissing_throw e Hnot)]. }
      pose proof (parseComponentOrContainer_stable JSON_parse spread _ _ Hctx child
                    (accComponentIndex acc)) as Hst.
      destruct (parseComponentOrContainer _ _ child (ctxOf st index) _) as [[cs' idx]|e] eqn:Hp.
      * rewrite Hst by discriminate. eapply IH; eassumption.
      * injection H as <- <-. rewrite Hst; [now eexists|exact (notMissing_throw e Hnot)].
Qed.

Lemma body_mono (st st' : State) index el st1 r :
  stateLe st st' -> agree (Dom.children el) st st' ->
  body st index el = (st1, r) -> notMissing r ->
  exists st1', body st' index el = (st1', r).
Proof.
  intros Hle Hag H Hnot. unfold sceneBody in H |- *.
  destruct (attrIf el "id") as [id|]; [|injection H as <- <-; now eexists].
  pose proof (parseTiming_stable _ _ (sceneCtx_le st st' index Hle) el) as Hst.
  destruct (parseTiming el (ctxOf st index)) as [timing|e] eqn:Hp.
  - rewrite Hst by discriminate.
    destruct (children index (Dom.children el) st _) as [st2 r2] eqn:Hc.
    injection H as <- <-.
    destruct (children_mono _ _ _ _ _ _ _ Hle Hag Hc) as [st2' Hc'].
    { intros what ->. now apply (Hnot what). }
    rewrite Hc'. now eexists.
  - injection H as <- <-. rewrite Hst; [now eexists|exact (notMissing_throw e Hnot)].
Qed.


(** *** What a successful attempt writes *)

Lemma registerCues_same (st : State) cues : sameScenes st (registerCues st cues).
Proof.
  revert st. induction cues as [|cue cues IH]; intros st; [apply sameScenes_refl|].
  change (registerCues st (cue :: cues)) with (registerCues (registerCue st cue) cues).
  eapply sameScenes_trans; [apply sameScenes_registerCue|apply IH].
Qed.

Lemma registerCues_starts (st : State) cues :
  cueStartIndex (registerCues st cues) = cueStarts cues (cueStartIndex st).
Proof.
  revert st. induction cues as [|cue cues IH]; intros st; [reflexivity|].
  change (registerCues st (cue :: cues)) with (registerCues (registerCue st cue) cues).
  now rewrite IH.
Qed.

Lemma stateLe_registerCues (st st' : State) cues :
  stateLe st st' -> stateLe (registerCues st cues) (registerCues st' cues).
Proof.
  revert st st'. induction cues as [|cue cues IH]; intros st st' Hle; [exact Hle|].
  change (stateLe (registerCues (registerCue st cue) cues) (registerCues (registerCue st' cue) cues)).
  apply IH. now apply stateLe_registerCue.
Qed.

Lemma cueStarts_cons cue cues m :
  cueStarts (cue :: cues) m
  = cueStarts cues (match cueTime cue with
                    | Some t => <[ cueId cue := rangeStart t ]> m
                    | None => m
                    end).
Proof. reflexivity. Qed.

Lemma cueStarts_lookup cues : forall m c,
  cueStarts cues m !! c
  = match cueStarts cues ∅ !! c with Some v => Some v | None => m !! c end.
Proof.
  induction cues as [|cue cues IH]; intros m c.
  - change (m !! c = match (∅ : gmap string number) !! c with Some v => Some v | None => m !! c end).
    now rewrite lookup_empty.
  - rewrite !cueStarts_cons, IH, (IH (match cueTime cue with Some _ => _ | None => _ end)).
    destruct (cueStarts cues ∅ !! c); [reflexivity|].
    destruct (cueTime cue) as [t|]; [|now rewrite lookup_empty].
    destruct (decide (cueId cue = c)) as [->|Hne].
    + now rewrite !lookup_insert_eq.
    + rewrite !lookup_insert_ne by exact Hne. now rewrite lookup_empty.
Qed.

Lemma cueStarts_ids cues : forall c v, cueStarts cues ∅ !! c = Some v -> c ∈ cueId <$> cues.
Proof.
  induction cues as [|cue cues IH]; intros c v H.
  - change ((∅ : gmap string number) !! c = Some v) in H. now rewrite lookup_empty in H.
  - rewrite cueStarts_cons, cueStarts_lookup in H. rewrite fmap_cons.
    destruct (cueStarts cues ∅ !! c) eqn:Hc.
    { apply list_elem_of_further. eapply IH; eassumption. }
    destruct (cueTime cue) as [t|]; [|now rewrite lookup_empty in H].
    destruct (decide (cueId cue = c)) as [->|Hne]; [apply list_elem_of_here|].
    rewrite lookup_insert_ne in H by exact Hne. now rewrite lookup_empty in H.
Qed.

Lemma children_regs index cs : forall (st : State) acc st1 acc',
  children index cs st acc = (st1, Ok acc') ->
  exists items,
    accItems acc' = accItems acc ++ items
    /\ st1 = registerCues st (cuesIn items)
    /\ cueId <$> cuesIn items = omap cueIdOf cs.
Proof.
  induction cs as [|child rest IH]; intros st acc st1 acc' H; cbn [sceneChildren] in H.
  - injection H as <- <-. exists []. now rewrite app_nil_r.
  - destruct (String.eqb (Dom.tagName child) "cue") eqn:Hcue.
    + destruct (parseCue child _) as [cue|e] eqn:Hp; [|discriminate].
      destruct (bool_decide _); [discriminate|].
      apply IH in H as (items & Hitems & Hst & Hids). cbn in Hitems.
      exists (ItemCue cue :: items). rewrite <- app_assoc in Hitems.
      split; [exact Hitems|]. split; [exact Hst|].
      cbn. rewrite (cueIdOf_parsed _ _ _ Hcue Hp). now f_equal.
    + cbn. rewrite (cueIdOf_other _ Hcue).
      destruct (String.eqb (Dom.tagName child) "pause").
      { destruct (parsePause child _) as [p|e]; [|discriminate].
        apply IH in H as (items & Hitems & Hst & Hids). cbn in Hitems.
        exists (ItemPause p :: items). rewrite <- app_assoc in Hitems. now repeat split. }
      destruct (String.eqb (Dom.tagName child) "layer").
      { destruct (parseLayer _ _ child _) as [p|e]; [|discriminate].
        now apply IH in H. }
      destruct (parseComponentOrContainer _ _ child _ _) as [[cs' idx]|e]; [|discriminate].
      now apply IH in H.
Qed.

Lemma body_regs (st : State) index el st1 data :
  body st index el = (st1, Ok data) ->
  st1 = registerCues st (cuesIn (sceneItems data))
  /\ cueId <$> cuesIn (sceneItems data) = sceneCueIds el
  /\ attrIf el "id" = Some (sceneId data).
Proof.
  unfold sceneBody. destruct (attrIf el "id") as [id|]; [|discriminate].
  destruct (parseTiming el _) as [timing|e]; [|discriminate].
  destruct (children index (Dom.children el) st _) as [st2 r2] eqn:Hc.
  intros [= <- H].
  destruct r2 as [acc|e]; [|discriminate]. cbn in H.
  destruct (jsonAttr JSON_parse el "styles"); [|discriminate].
  destruct (jsonAttr JSON_parse el "markup"); [|discriminate].
  cbn in H. injection H as <-. cbn.
  apply children_regs in Hc as (items & Hitems & Hst & Hids). cbn in Hitems. subst items.
  now repeat split.
Qed.

(** After the attempt and the commit, a place holds what the scene writes
    there, and what it held before where the scene writes nothing. *)
Lemma step_look (st : State) index el st1 data k :
  body st index el = (st1, Ok data) ->
  look (commitScene st1 index data) k
  = match entry index data k with Some v => Some v | None => look st k end.
Proof.
  intros Hbody. apply body_regs in Hbody as (-> & _ & _).
  destruct (registerCues_same st (cuesIn (sceneItems data))) as (Hsc & Hss & Hse & _).
  destruct k as [i|id|id|id]; cbn.
  - rewrite Hsc. destruct (decide (i = index)) as [->|Hne].
    + now rewrite lookup_insert_eq.
    + now rewrite lookup_insert_ne by congruence.
  - rewrite Hss. destruct (decide (id = sceneId data)) as [->|Hne].
    + destruct (sceneTime data ≫= timeStart) as [v|]; cbn; [now rewrite lookup_insert_eq|reflexivity].
    + destruct (sceneTime data ≫= timeStart) as [v|]; cbn;
        [now rewrite lookup_insert_ne by congruence|reflexivity].
  - rewrite Hse. destruct (decide (id = sceneId data)) as [->|Hne].
    + destruct (sceneTime data ≫= timeEnd) as [v|]; cbn; [now rewrite lookup_insert_eq|reflexivity].
    + destruct (sceneTime data ≫= timeEnd) as [v|]; cbn;
        [now rewrite lookup_insert_ne by congruence|reflexivity].
  - rewrite registerCues_starts, cueStarts_lookup.
    now destruct (cueStarts _ ∅ !! id).
Qed.

Lemma entry_owner (st : State) index el st1 data k v :
  sceneElements !! index = Some el ->
  body st index el = (st1, Ok data) ->
  entry index data k = Some v -> owner sceneElements k index.
Proof.
  intros Hel Hbody Hentry. apply body_regs in Hbody as (_ & Hids & Hid).
  exists el. split; [exact Hel|].
  destruct k as [i|id|id|id]; cbn in Hentry.
  - now destruct (decide (i = index)).
  - destruct (decide (id = sceneId data)) as [->|]; [exact Hid|discriminate].
  - destruct (decide (id = sceneId data)) as [->|]; [exact Hid|discriminate].
  - rewrite <- Hids. destruct (cueStarts _ ∅ !! id) as [x|] eqn:Hx; [|discriminate].
    eapply cueStarts_ids; eassumption.
Qed.


(** *** Places and their scenes *)

Local Abbreviation owner := (ResolverSpec.owner sceneElements).
Local Abbreviation owned := (ResolverSpec.owned (Json := Json) sceneElements).
Local Abbreviation settled := (ResolverSpec.settled (Json := Json) sceneElements).
Local Abbreviation sceneCount := (length sceneElements).

Lemma owner_lt k i : owner k i -> (i < sceneCount)%nat.
Proof. intros (el & Hel & _). now apply lookup_lt_Some in Hel. Qed.

Lemma stateLe_look (st st' : State) :
  (forall k v, look st k = Some v -> look st' k = Some v) -> stateLe st st'.
Proof.
  intros H. repeat split; apply map_subseteq_spec; intros i x Hx.
  - specialize (H (KScene i) (VScene x)). cbn in H. rewrite Hx in H.
    specialize (H eq_refl). apply fmap_Some in H as (y & Hy & [= ->]). exact Hy.
  - specialize (H (KStart i) (VNum x)). cbn in H. rewrite Hx in H.
    specialize (H eq_refl). apply fmap_Some in H as (y & Hy & [= ->]). exact Hy.
  - specialize (H (KEnd i) (VNum x)). cbn in H. rewrite Hx in H.
    specialize (H eq_refl). apply fmap_Some in H as (y & Hy & [= ->]). exact Hy.
  - specialize (H (KCue i) (VNum x)). cbn in H. rewrite Hx in H.
    specialize (H eq_refl). apply fmap_Some in H as (y & Hy & [= ->]). exact Hy.
Qed.

Lemma owned_initial : owned (initialState sceneCount).
Proof.
  split.
  - intros [i|id|id|id] v H; cbn in H; now rewrite lookup_empty in H.
  - intros c Hc. cbn in Hc. set_solver.
Qed.

Lemma commit_pending (st st1 : State) index el data i :
  body st index el = (st1, Ok data) ->
  i ∉ pending (commitScene st1 index data) <-> i = index \/ i ∉ pending st.
Proof.
  intros Hbody. apply sceneBody_frame in Hbody as [(_ & _ & _ & Hp & _) _].
  cbn [commitScene pending]. rewrite Hp, list_elem_of_filter.
  destruct (decide (i = index)); intuition.
Qed.

Lemma commit_owned (st st1 : State) index el data :
  sceneElements !! index = Some el ->
  body st index el = (st1, Ok data) ->
  owned st -> owned (commitScene st1 index data).
Proof.
  intros Hel Hbody [Hown Hreg]. split.
  - intros k v Hk. rewrite (step_look _ _ _ _ _ _ Hbody) in Hk.
    destruct (entry index data k) as [w|] eqn:He.
    + exists index. split; [eapply entry_owner; eassumption|].
      apply (commit_pending _ _ _ _ _ _ Hbody). now left.
    + destruct (Hown k v Hk) as (i & Hi & Hnot). exists i. split; [exact Hi|].
      apply (commit_pending _ _ _ _ _ _ Hbody). now right.
  - intros c Hc. cbn [commitScene cueIds] in Hc.
    destruct (sceneBody_ok _ _ _ _ _ _ _ _ _ Hbody) as (_ & _ & Hids). rewrite Hids in Hc.
    apply elem_of_union in Hc as [Hc|Hc].
    + exists index. split; [exists el; split; [exact Hel|now apply elem_of_list_to_set in Hc]|].
      apply (commit_pending _ _ _ _ _ _ Hbody). now left.
    + destruct (Hreg c Hc) as (i & Hi & Hnot). exists i. split; [exact Hi|].
      apply (commit_pending _ _ _ _ _ _ Hbody). now right.
Qed.

(** *** The scenes resolved in a given order *)

Lemma run_cons index rest (st fin : State) :
  run (index :: rest) st = Some fin ->
  exists el st1 data,
    sceneElements !! index = Some el
    /\ body st index el = (st1, Ok data)
    /\ run rest (commitScene st1 index data) = Some fin.
Proof.
  cbn [runInOrder]. destruct (sceneElements !! index) as [el|]; [|discriminate].
  destruct (body st index el) as [st1 [data|e]] eqn:Hbody; [|discriminate].
  intros H. now exists el, st1, data.
Qed.

Lemma run_app pre : forall post (st fin : State),
  run (pre ++ post) st = Some fin ->
  exists mid, run pre st = Some mid /\ run post mid = Some fin.
Proof.
  induction pre as [|index pre IH]; intros post st fin H; [now exists st|].
  change ((index :: pre) ++ post) with (index :: (pre ++ post)) in H.
  apply run_cons in H as (el & st1 & data & Hel & Hbody & H).
  apply IH in H as (mid & Hpre & Hpost). exists mid. split; [|exact Hpost].
  cbn [runInOrder]. now rewrite Hel, Hbody.
Qed.

Lemma run_owned order : forall st fin : State, run order st = Some fin -> owned st -> owned fin.
Proof.
  induction order as [|index rest IH]; intros st fin H Hown; [now injection H as <-|].
  apply run_cons in H as (el & st1 & data & Hel & Hbody & H).
  eapply IH; [exact H|]. eapply commit_owned; eassumption.
Qed.

(** A place that belongs to none of the scenes of the order is left alone. *)
Lemma run_frame order : forall (st fin : State) k,
  run order st = Some fin -> (forall j, j ∈ order -> ~ owner k j) -> look fin k = look st k.
Proof.
  induction order as [|index rest IH]; intros st fin k H Hk; [now injection H as <-|].
  apply run_cons in H as (el & st1 & data & Hel & Hbody & H).
  rewrite (IH _ _ k H) by (intros j Hj; apply Hk; now right).
  rewrite (step_look _ _ _ _ _ _ Hbody).
  destruct (entry index data k) as [v|] eqn:He; [|reflexivity].
  exfalso. apply (Hk index); [now left|]. eapply entry_owner; eassumption.
Qed.

Lemma run_pending order : forall (st fin : State) i,
  run order st = Some fin -> i ∉ pending fin <-> i ∈ order \/ i ∉ pending st.
Proof.
  induction order as [|index rest IH]; intros st fin i H.
  - injection H as <-. split; [now right|]. intros [Hin|Hnot]; [|exact Hnot].
    now apply not_elem_of_nil in Hin.
  - apply run_cons in H as (el & st1 & data & Hel & Hbody & H).
    rewrite (IH _ _ i H), (commit_pending _ _ _ _ _ _ Hbody), elem_of_cons. tauto.
Qed.


Lemma run_app_2 pre : forall post (st mid fin : State),
  run pre st = Some mid -> run post mid = Some fin -> run (pre ++ post) st = Some fin.
Proof.
  induction pre as [|index pre IH]; intros post st mid fin Hpre Hpost.
  - now injection Hpre as ->.
  - apply run_cons in Hpre as (el & st1 & data & Hel & Hbody & Hpre).
    change ((index :: pre) ++ post) with (index :: (pre ++ post)).
    cbn [runInOrder]. rewrite Hel, Hbody. eapply IH; eassumption.
Qed.

Lemma first_such (P : nat -> Prop) `{!forall i, Decision (P i)} (l : list nat) :
  (exists j, j ∈ l /\ P j) ->
  exists pre j post, l = pre ++ j :: post /\ P j /\ forall i, i ∈ pre -> ~ P i.
Proof.
  induction l as [|x l IH]; intros (j & Hj & HP); [now apply not_elem_of_nil in Hj|].
  destruct (decide (P x)) as [Hx|Hx].
  - exists [], x, l. repeat split; [exact Hx|]. intros i Hi. now apply not_elem_of_nil in Hi.
  - apply elem_of_cons in Hj as [->|Hj]; [contradiction|].
    destruct IH as (pre & k & post & -> & Hk & Hpre); [now exists j|].
    exists (x :: pre), k, post. repeat split; [exact Hk|].
    intros i [->|Hi]%elem_of_cons; [exact Hx|now apply Hpre].
Qed.

Lemma settled_addPass (final st : State) : settled final st -> settled final (addPass st).
Proof. intros H. exact H. Qed.

(** *** A satisfiable order *)

Section Satisfiable.
Hypothesis Hscenes : distinctSceneIds sceneElements.
Hypothesis Hcues : distinctCueIds sceneElements.
Hypothesis Hfail : failedAttemptRegistersNothing JSON_parse spread fps sceneElements.
Variable order : list nat.
Variable final : State.
Hypothesis Hnodup : NoDup order.
Hypothesis Hall : forall i, i ∈ order <-> (i < sceneCount)%nat.
Hypothesis Hrun : run order (initialState sceneCount) = Some final.

Lemma owner_unique k i j : owner k i -> owner k j -> i = j.
Proof.
  intros (eli & Hi & Hki) (elj & Hj & Hkj). destruct k as [x|id|id|id].
  - congruence.
  - eapply Hscenes; eassumption.
  - eapply Hscenes; eassumption.
  - eapply Hcues; eassumption.
Qed.

Lemma prefix_pending pre (mid : State) i :
  run pre (initialState sceneCount) = Some mid ->
  i ∉ pending mid <-> i ∈ pre \/ ~ (i < sceneCount)%nat.
Proof.
  intros Hpre. rewrite (run_pending _ _ _ i Hpre). cbn [initialState pending].
  rewrite elem_of_seq. split; (intros [H|H]; [now left|right; lia]).
Qed.

Lemma prefix_settled pre post (mid : State) :
  order = pre ++ post ->
  run pre (initialState sceneCount) = Some mid -> run post mid = Some final ->
  settled final mid.
Proof.
  intros Horder Hpre Hpost. split.
  - eapply run_owned; [exact Hpre|apply owned_initial].
  - intros k i Hk Hi. symmetry. apply (run_frame _ _ _ k Hpost). intros j Hj Hkj.
    assert (j = i) as -> by (eapply owner_unique; eassumption).
    apply (prefix_pending _ _ _ Hpre) in Hi as [Hi|Hi]; [|apply Hi; eapply owner_lt; eassumption].
    rewrite Horder in Hnodup. apply NoDup_app in Hnodup as (_ & Hdisj & _).
    now apply (Hdisj i).
Qed.

Lemma order_split j :
  j ∈ order ->
  exists pre post (mid mid1 : State) el data,
    order = pre ++ j :: post
    /\ run pre (initialState sceneCount) = Some mid
    /\ sceneElements !! j = Some el
    /\ body mid j el = (mid1, Ok data)
    /\ settled final mid
    /\ settled final (commitScene mid1 j data)
    /\ j ∈ pending mid.
Proof.
  intros Hj. apply list_elem_of_split in Hj as (pre & post & Horder).
  pose proof Hrun as H. rewrite Horder in H.
  apply run_app in H as (mid & Hpre & Hpost).
  pose proof Hpost as H. apply run_cons in H as (el & mid1 & data & Hel & Hbody & Hrest).
  exists pre, post, mid, mid1, el, data. split_and!; try assumption.
  - eapply prefix_settled; eauto.
  - apply (prefix_settled (pre ++ [j]) post).
    + now rewrite <- app_assoc.
    + eapply run_app_2; [exact Hpre|]. cbn [runInOrder]. now rewrite Hel, Hbody.
    + exact Hrest.
  - destruct (decide (j ∈ pending mid)) as [Hin|Hnot]; [exact Hin|exfalso].
    apply (prefix_pending _ _ _ Hpre) in Hnot as [Hnot|Hnot].
    + rewrite Horder in Hnodup. apply NoDup_app in Hnodup as (_ & Hdisj & _).
      apply (Hdisj j Hnot). now left.
    + apply Hnot. now apply lookup_lt_Some in Hel.
Qed.

(** A settled state whose scenes have all left [pending] in another one
    knows no more than the other one. *)
Lemma settled_le (low st : State) :
  settled final low -> settled final st ->
  (forall i, (i < sceneCount)%nat -> i ∉ pending low -> i ∉ pending st) ->
  stateLe low st.
Proof.
  intros [[Hown _] Hlow] [_ Hst] Hsub. apply stateLe_look. intros k v Hk.
  destruct (Hown k v Hk) as (i & Hi & Hnot).
  rewrite (Hst k i Hi), <- (Hlow k i Hi Hnot); [exact Hk|].
  apply Hsub; [eapply owner_lt; eassumption|exact Hnot].
Qed.

Lemma settled_top (st : State) : settled final st -> stateLe st (clearCueIds final).
Proof.
  intros [[Hown _] Hst]. apply stateLe_look. intros k v Hk.
  destruct (Hown k v Hk) as (i & Hi & Hnot).
  change (look (clearCueIds final) k) with (look final k).
  now rewrite <- (Hst k i Hi Hnot).
Qed.

Lemma no_own_cue (st : State) j el c :
  owned st -> j ∈ pending st -> sceneElements !! j = Some el ->
  c ∈ sceneCueIds el -> c ∉ cueIds st.
Proof.
  intros [_ Hreg] Hj Hel Hc Hin. destruct (Hreg c Hin) as (i & Hi & Hnot).
  assert (i = j) as ->; [|contradiction].
  eapply owner_unique; [exact Hi|]. now exists el.
Qed.

Lemma agree_fresh (st st' : State) el :
  (forall c, c ∈ sceneCueIds el -> c ∉ cueIds st) ->
  (forall c, c ∈ sceneCueIds el -> c ∉ cueIds st') ->
  agree (Dom.children el) st st'.
Proof. intros H H' c Hc. split; intros Hin; exfalso; [now apply (H c)|now apply (H' c)]. Qed.

(** An attempt that does not stop on an unresolved reference gives the
    scene that the given order gives. *)
Lemma attempt_settled (st st1 : State) j el r :
  settled final st -> j ∈ pending st ->
  sceneElements !! j = Some el ->
  body st j el = (st1, r) -> notMissing r ->
  exists data, r = Ok data /\ settled final (commitScene st1 j data).
Proof.
  intros Hst Hj Hel Hbody Hnot.
  assert (Hord : j ∈ order) by (apply Hall; now apply lookup_lt_Some in Hel).
  destruct (order_split j Hord)
    as (pre & post & mid & mid1 & el' & data & Horder & Hpre & Hel' & Hmid & Hsmid & Hsnext & Hjmid).
  assert (el' = el) as -> by congruence.
  destruct (sceneBody_ok _ _ _ _ _ _ _ _ _ Hmid) as (_ & Hfresh & _).
  destruct (body_mono st (clearCueIds final) j el st1 r) as [top1 Htop]; try assumption.
  { now apply settled_top. }
  { apply agree_fresh; [|intros c _; cbn; set_solver].
    intros c Hc. eapply no_own_cue; [apply Hst|eassumption..]. }
  destruct (body_mono mid (clearCueIds final) j el mid1 (Ok data)) as [top2 Htop2]; try assumption.
  { now apply settled_top. }
  { apply agree_fresh; [exact Hfresh|intros c _; cbn; set_solver]. }
  { intros what. discriminate. }
  rewrite Htop in Htop2. injection Htop2 as _ ->.
  exists data. split; [reflexivity|]. split.
  - eapply commit_owned; [exact Hel|exact Hbody|apply Hst].
  - intros k i Hk Hi. apply (commit_pending _ _ _ _ _ _ Hbody) in Hi.
    rewrite (step_look _ _ _ _ _ _ Hbody).
    destruct (decide (i = j)) as [->|Hne].
    + destruct Hsnext as [_ Hnext]. rewrite <- (Hnext k j Hk).
      * rewrite (step_look _ _ _ _ _ _ Hmid).
        destruct (entry j data k); [reflexivity|].
        destruct (look st k) as [v|] eqn:Hv.
        { destruct Hst as [[Hown _] _]. destruct (Hown k v Hv) as (i & Hi' & Hpend).
          assert (i = j) as -> by (eapply owner_unique; eassumption). contradiction. }
        destruct (look mid k) as [v|] eqn:Hv'; [|reflexivity].
        destruct Hsmid as [[Hown _] _]. destruct (Hown k v Hv') as (i & Hi' & Hpend).
        assert (i = j) as -> by (eapply owner_unique; eassumption). contradiction.
      * apply (commit_pending _ _ _ _ _ _ Hmid). now left.
    + destruct Hi as [Hi|Hi]; [contradiction|].
      destruct (entry j data k) as [v|] eqn:He.
      { exfalso. apply Hne. eapply owner_unique; [exact Hk|]. eapply entry_owner; eassumption. }
      destruct Hst as [_ Hhas]. now apply Hhas with i.
Qed.

(** The first scene of the order that is still pending resolves. *)
Lemma attempt_ready (st : State) :
  settled final st -> (exists j, j ∈ pending st /\ (j < sceneCount)%nat) ->
  exists j el st1 data,
    j ∈ pending st /\ sceneElements !! j = Some el /\ body st j el = (st1, Ok data).
Proof.
  intros Hst (j0 & Hj0 & Hlt0).
  destruct (first_such (fun i => i ∈ pending st) order) as (pre & j & post & Horder & Hj & Hbefore).
  { exists j0. split; [now apply Hall|exact Hj0]. }
  assert (Hord : j ∈ order) by (rewrite Horder; set_solver).
  destruct (order_split j Hord)
    as (pre' & post' & mid & mid1 & el & data & Horder' & Hpre & Hel & Hmid & Hsmid & _ & Hjmid).
  assert (Hsame : pre' = pre).
  { rewrite Horder' in Horder. rewrite Horder' in Hnodup.
    clear -Horder Hnodup. revert pre Horder. induction pre' as [|x pre' IH]; intros pre Horder.
    - destruct pre as [|y pre]; [reflexivity|]. cbn in Horder. injection Horder as -> ->.
      apply NoDup_cons in Hnodup as [Hnot _]. exfalso. apply Hnot. set_solver.
    - destruct pre as [|y pre]; cbn in Horder; injection Horder as -> Horder.
      + apply NoDup_cons in Hnodup as [Hnot _]. exfalso. apply Hnot. set_solver.
      + f_equal. apply IH; [|exact Horder]. now apply NoDup_cons in Hnodup as [_ Hnd]. }
  subst pre'.
  destruct (sceneBody_ok _ _ _ _ _ _ _ _ _ Hmid) as (_ & Hfresh & _).
  destruct (body_mono mid st j el mid1 (Ok data)) as [st1 Hbody]; try assumption.
  - apply settled_le; [exact Hsmid|exact Hst|]. intros i Hlt Hi.
    apply (prefix_pending _ _ _ Hpre) in Hi as [Hi|Hi]; [now apply Hbefore|contradiction].
  - apply agree_fresh; [exact Hfresh|]. intros c Hc. eapply no_own_cue; [apply Hst|eassumption..].
  - intros what. discriminate.
  - now exists j, el, st1, data.
Qed.


(** A pass never throws; when it makes no progress, every scene of the
    snapshot has stopped on an unresolved reference in the state that the
    pass started from. *)
Lemma pass_settled snapshot : forall (st : State) progressed,
  settled final st -> NoDup snapshot ->
  (forall i, i ∈ snapshot -> i ∈ pending st /\ (i < sceneCount)%nat) ->
  exists st' progressed',
    pass snapshot st progressed = Ok (st', progressed')
    /\ settled final st'
    /\ (progressed' = false ->
        st' = st
        /\ forall j, j ∈ snapshot ->
             exists el what, sceneElements !! j = Some el
               /\ body st j el = (st, Throw (MissingTimeReferenceError what))).
Proof.
  induction snapshot as [|j rest IH]; intros st progressed Hst Hnd Hin; cbn [resolvePass].
  - exists st, progressed. split_and!; try done. intros _. split; [reflexivity|].
    intros j Hj. now apply not_elem_of_nil in Hj.
  - apply NoDup_cons in Hnd as [Hj Hnd].
    destruct (Hin j) as [Hpend Hlt]; [now left|].
    destruct (lookup_lt_is_Some_2 sceneElements j Hlt) as [el Hel]. rewrite Hel.
    destruct (body st j el) as [st1 r] eqn:Hbody.
    destruct r as [data|[what|msg]].
    + destruct (attempt_settled st st1 j el (Ok data) Hst Hpend Hel Hbody)
        as (data' & [= <-] & Hnext); [intros what; discriminate|].
      destruct (IH (commitScene st1 j data) true Hnext Hnd) as (st' & p' & Hpass & Hst' & Hno).
      { intros i Hi. destruct (Hin i) as [Hip Hil]; [now right|]. split; [|exact Hil].
        destruct (decide (i ∈ pending (commitScene st1 j data))) as [Hyes|Hnot]; [exact Hyes|].
        apply (commit_pending _ _ _ _ _ _ Hbody) in Hnot as [->|Hnot]; contradiction. }
      exists st', p'. split_and!; try assumption. intros ->. exfalso.
      apply pass_no_progress in Hpass as [Hfalse _]. discriminate.
    + pose proof (Hfail _ _ _ _ _ Hel Hbody) as ->.
      destruct (IH st progressed Hst Hnd) as (st' & p' & Hpass & Hst' & Hno).
      { intros i Hi. apply Hin. now right. }
      exists st', p'. split_and!; try assumption. intros Hp. destruct (Hno Hp) as [-> Hall'].
      split; [reflexivity|]. intros i [->|Hi]%elem_of_cons; [now exists el, what|now apply Hall'].
    + exfalso.
      destruct (attempt_settled st st1 j el (Throw (Error msg)) Hst Hpend Hel Hbody)
        as (data' & Habs & _); [intros what; discriminate|discriminate].
Qed.

(** Every pass makes progress, so the loop ends with nothing pending. *)
Lemma loop_settled fuel : forall st : State,
  settled final st ->
  NoDup (pending st) ->
  (forall i, i ∈ pending st -> (i < sceneCount)%nat) ->
  (passes st + length (pending st) <= sceneCount)%nat ->
  (length (pending st) < fuel)%nat ->
  exists st', loop fuel st = Some (Ok st') /\ settled final st' /\ pending st' = [].
Proof.
  induction fuel as [|fuel IH]; intros st Hst Hnd Hlt Hpasses Hfuel; [lia|].
  cbn [resolveLoop].
  destruct (pending st) as [|i0 p0] eqn:Hp.
  - exists st. now split_and!.
  - rewrite <- Hp in *.
    destruct (pass_settled (pending st) st false Hst Hnd) as (st' & progressed & Hpass & Hst' & Hno).
    { intros i Hi. split; [exact Hi|now apply Hlt]. }
    rewrite Hpass. destruct progressed; cbn [negb].
    + pose proof (pass_passes _ _ _ _ _ _ _ _ _ Hpass) as Hn.
      destruct (pass_pending _ _ _ _ _ _ _ _ _ Hnd (fun i Hi => Hi) Hpass) as (Hlen & Hsub & Hprog).
      destruct (Hprog eq_refl) as [?|Hshort]; [discriminate|].
      assert (Htest : (sceneCount + 2 <? passes (addPass st'))%nat = false).
      { apply Nat.ltb_ge. cbn [addPass passes]. lia. }
      rewrite Htest. apply IH.
      * now apply settled_addPass.
      * rewrite pending_addPass. eapply pass_NoDup; eassumption.
      * intros i Hi. rewrite pending_addPass in Hi. auto.
      * cbn [addPass passes pending]. lia.
      * rewrite pending_addPass. lia.
    + exfalso. destruct (Hno eq_refl) as [-> Hstuck].
      destruct (attempt_ready st Hst) as (j & el & st1 & data & Hj & Hel & Hbody).
      { exists i0. rewrite Hp. split; [now left|]. apply Hlt. rewrite Hp. now left. }
      destruct (Hstuck j Hj) as (el' & what & Hel' & Hbody').
      congruence.
Qed.

Lemma settled_scenes (st : State) :
  settled final st -> pending st = [] -> scenes st = scenes final.
Proof.
  intros [Hown Hhas] Hp. apply map_eq. intros i.
  assert (Hlook : look st (KScene i) = look final (KScene i)).
  { destruct (decide (i < sceneCount)%nat) as [Hlt|Hge].
    - destruct (lookup_lt_is_Some_2 sceneElements i Hlt) as [el Hel].
      apply (Hhas _ i); [now exists el|]. rewrite Hp. apply not_elem_of_nil.
    - assert (Hnone : forall s : State, owned s -> look s (KScene i) = None).
      { intros s [Hs _]. destruct (look s (KScene i)) as [v|] eqn:Hv; [|reflexivity].
        destruct (Hs _ _ Hv) as (i' & (el & Hel & <-) & _). apply lookup_lt_Some in Hel. lia. }
      rewrite !Hnone; [reflexivity| |exact Hown].
      eapply run_owned; [exact Hrun|apply owned_initial]. }
  cbn in Hlook. destruct (scenes st !! i), (scenes final !! i); cbn in Hlook; congruence.
Qed.

End Satisfiable.

(** When the scenes can be resolved one after the other in some order, each
    at its first attempt, the loop resolves them, to the same scenes. *)
Theorem satisfiable_order_resolves order (final : State) :
  distinctSceneIds sceneElements ->
  distinctCueIds sceneElements ->
  failedAttemptRegistersNothing JSON_parse spread fps sceneElements ->
  order ≡ₚ seq 0 sceneCount ->
  run order (initialState sceneCount) = Some final ->
  exists st,
    resolveScenes JSON_parse spread fps sceneElements = Ok st
    /\ pending st = []
    /\ scenes st = scenes final.
Proof.
  intros Hscenes Hcues Hfail Hperm Hrun.
  assert (Hnodup : NoDup order) by (rewrite Hperm; apply NoDup_seq).
  assert (Hall : forall i, i ∈ order <-> (i < sceneCount)%nat).
  { intros i. rewrite Hperm, elem_of_seq. lia. }
  destruct (loop_settled Hscenes Hcues Hfail order final Hnodup Hall Hrun
              (S sceneCount) (initialState sceneCount)) as (st & Hloop & Hst & Hp).
  - eapply prefix_settled with (pre := []) (post := order); eauto.
  - apply NoDup_seq.
  - intros i Hi. cbn in Hi. apply elem_of_seq in Hi. lia.
  - cbn. rewrite length_seq. lia.
  - cbn. rewrite length_seq. lia.
  - exists st. unfold resolveScenes. rewrite Hloop. split_and!; [reflexivity|exact Hp|].
    eapply settled_scenes; eassumption.
Qed.

(** A scene without cues registers nothing. *)
Lemma children_cueFree index cs : forall (st : State) acc st1 r,
  Forall (fun child => String.eqb (Dom.tagName child) "cue" = false) cs ->
  children index cs st acc = (st1, r) -> st1 = st.
Proof.
  induction cs as [|child rest IH]; intros st acc st1 r Hfree H; cbn [sceneChildren] in H.
  - now injection H as <- _.
  - apply Forall_cons in Hfree as [Hchild Hrest]. rewrite Hchild in H.
    destruct (String.eqb (Dom.tagName child) "pause").
    { destruct (parsePause child _); [now apply IH in H|now injection H as <- _]. }
    destruct (String.eqb (Dom.tagName child) "layer").
    { destruct (parseLayer _ _ child _); [now apply IH in H|now injection H as <- _]. }
    destruct (parseComponentOrContainer _ _ child _ _) as [[cs' idx]|e];
      [now apply IH in H|now injection H as <- _].
Qed.

Lemma cueFree_registers_nothing :
  Forall cueFree sceneElements ->
  failedAttemptRegistersNothing JSON_parse spread fps sceneElements.
Proof.
  intros Hfree st st' index el what Hel. unfold sceneBody.
  destruct (attrIf el "id"); [|now intros [= <- _]].
  destruct (parseTiming el _); [|now intros [= <- _]].
  destruct (children index (Dom.children el) st _) as [st1 r1] eqn:Hc.
  intros [= <- _]. eapply children_cueFree; [|exact Hc].
  eapply Forall_forall in Hfree; [exact Hfree|]. eapply list_elem_of_lookup_2; eassumption.
Qed.


(** *** The order in which the loop resolves *)

(** The count of passes has no part in the attempt of a scene. *)
Lemma children_passes n index cs : forall (st : State) acc,
  children index cs (setPasses n st) acc
  = (setPasses n (children index cs st acc).1, (children index cs st acc).2).
Proof.
  induction cs as [|child rest IH]; intros st acc; cbn [sceneChildren]; [reflexivity|].
  change (ctxOf (setPasses n st) index) with (ctxOf st index).
  destruct (String.eqb (Dom.tagName child) "cue").
  { destruct (parseCue child _) as [cue|e]; [|reflexivity].
    change (cueIds (setPasses n st)) with (cueIds st).
    destruct (bool_decide _); [reflexivity|].
    change (registerCue (setPasses n st) cue) with (setPasses n (registerCue st cue)).
    apply IH. }
  destruct (String.eqb (Dom.tagName child) "pause").
  { destruct (parsePause child _); [apply IH|reflexivity]. }
  destruct (String.eqb (Dom.tagName child) "layer").
  { destruct (parseLayer _ _ child _); [apply IH|reflexivity]. }
  destruct (parseComponentOrContainer _ _ child _ _) as [[cs' idx]|e]; [apply IH|reflexivity].
Qed.

Lemma body_passes n (st : State) index el :
  body (setPasses n st) index el
  = (setPasses n (body st index el).1, (body st index el).2).
Proof.
  unfold sceneBody. destruct (attrIf el "id"); [|reflexivity].
  change (ctxOf (setPasses n st) index) with (ctxOf st index).
  destruct (parseTiming el _); [|reflexivity].
  rewrite children_passes. now destruct (children index (Dom.children el) st _).
Qed.

Lemma run_passes n order : forall st : State,
  run order (setPasses n st) = setPasses n <$> run order st.
Proof.
  induction order as [|index rest IH]; intros st; cbn [runInOrder]; [reflexivity|].
  destruct (sceneElements !! index) as [el|]; [|reflexivity].
  rewrite body_passes. destruct (body st index el) as [st1 [data|e]]; [|reflexivity].
  apply (IH (commitScene st1 index data)).
Qed.

Section Resolved.
Hypothesis Hfail : failedAttemptRegistersNothing JSON_parse spread fps sceneElements.

Lemma pass_run snapshot : forall (st : State) progressed st' progressed',
  NoDup snapshot ->
  pass snapshot st progressed = Ok (st', progressed') ->
  exists done,
    run done st = Some st' /\ NoDup done /\ forall i, i ∈ done -> i ∈ snapshot.
Proof.
  induction snapshot as [|j rest IH]; intros st progressed st' progressed' Hnd H;
    cbn [resolvePass] in H.
  - injection H as <- _. exists []. split_and!; [reflexivity|constructor|]. now intros i Hi.
  - apply NoDup_cons in Hnd as [Hj Hnd].
    destruct (sceneElements !! j) as [el|] eqn:Hel; [|discriminate].
    destruct (body st j el) as [st1 [data|[what|msg]]] eqn:Hbody; [| |discriminate].
    + apply IH in H as (done & Hrun & Hdone & Hsub); [|exact Hnd].
      exists (j :: done). split_and!.
      * cbn [runInOrder]. now rewrite Hel, Hbody.
      * apply NoDup_cons. split; [|exact Hdone]. intros Hin. apply Hj. now apply Hsub.
      * intros i [->|Hi]%elem_of_cons; [now left|right; now apply Hsub].
    + pose proof (Hfail _ _ _ _ _ Hel Hbody) as ->.
      apply IH in H as (done & Hrun & Hdone & Hsub); [|exact Hnd].
      exists done. split_and!; try assumption. intros i Hi. right. now apply Hsub.
Qed.

Lemma loop_run fuel : forall st fin : State,
  NoDup (pending st) ->
  loop fuel st = Some (Ok fin) ->
  exists done fin',
    run done st = Some fin'
    /\ scenes fin' = scenes fin /\ pending fin' = []
    /\ NoDup done /\ forall i, i ∈ done -> i ∈ pending st.
Proof.
  induction fuel as [|fuel IH]; intros st fin Hnd H; cbn [resolveLoop] in H.
  - destruct (pending st) eqn:Hp; [|discriminate]. injection H as <-.
    exists [], st. split_and!; first [done|constructor|intros i Hi; now apply not_elem_of_nil in Hi].
  - destruct (pending st) as [|i0 p0] eqn:Hp.
    { injection H as <-. exists [], st. split_and!; first [done|constructor|intros i Hi; now apply not_elem_of_nil in Hi]. }
    rewrite <- Hp in *.
    destruct (pass (pending st) st false) as [[st' progressed]|err] eqn:Hpass; [|discriminate].
    destruct progressed; cbn [negb] in H; [|discriminate].
    destruct (_ <? _)%nat; [discriminate|].
    destruct (pass_run _ _ _ _ _ Hnd Hpass) as (done & Hrun & Hdone & Hsub).
    apply IH in H as (done' & fin' & Hrun' & Hsc & Hp' & Hdone' & Hsub').
    2:{ rewrite pending_addPass. eapply pass_NoDup; eassumption. }
    change (addPass st') with (setPasses (S (passes st')) st') in Hrun'.
    rewrite run_passes in Hrun'.
    destruct (run done' st') as [fin0|] eqn:Hrun0; [|discriminate]. injection Hrun' as <-.
    exists (done ++ done'), fin0. split_and!; try assumption.
    + eapply run_app_2; eassumption.
    + apply NoDup_app. split_and!; try assumption.
      intros i Hi Hi'. apply Hsub' in Hi'. rewrite pending_addPass in Hi'.
      revert Hi'. apply (run_pending _ _ _ i Hrun). now left.
    + intros i [Hi|Hi]%elem_of_app; [now apply Hsub|].
      apply Hsub' in Hi. rewrite pending_addPass in Hi.
      destruct (decide (i ∈ pending st)) as [Hyes|Hnot]; [exact Hyes|exfalso].
      revert Hi. apply (run_pending _ _ _ i Hrun). now right.
Qed.

(** A resolution that succeeds has resolved the scenes one after the other
    in some order. *)
Theorem resolved_in_some_order (st : State) :
  resolveScenes JSON_parse spread fps sceneElements = Ok st ->
  exists order final,
    order ≡ₚ seq 0 sceneCount
    /\ run order (initialState sceneCount) = Some final
    /\ scenes final = scenes st.
Proof.
  unfold resolveScenes.
  destruct (loop _ _) as [[st'|err]|] eqn:Hloop; try discriminate. intros [= ->].
  apply loop_run in Hloop as (order & final & Hrun & Hsc & Hp & Hnd & Hsub); [|apply NoDup_seq].
  exists order, final. split_and!; try assumption.
  apply NoDup_Permutation; [exact Hnd|apply NoDup_seq|]. intros i. split; [apply Hsub|].
  intros Hi. destruct (run_pending _ _ _ i Hrun) as [Hto _].
  destruct Hto as [Hin|Hnot]; [rewrite Hp; apply not_elem_of_nil|exact Hin|contradiction].
Qed.

End Resolved.

(** Where failed attempts register nothing and the ids are distinct, the
    loop resolves the composition exactly when some order resolves it. *)
Corollary resolves_iff_some_order :
  distinctSceneIds sceneElements ->
  distinctCueIds sceneElements ->
  failedAttemptRegistersNothing JSON_parse spread fps sceneElements ->
  (exists st, resolveScenes JSON_parse spread fps sceneElements = Ok st)
  <-> (exists order final,
         order ≡ₚ seq 0 sceneCount /\ run order (initialState sceneCount) = Some final).
Proof.
  intros Hscenes Hcues Hfail. split.
  - intros [st Hres].
    destruct (resolved_in_some_order Hfail st Hres) as (order & final & Hperm & Hrun & _).
    now exists order, final.
  - intros (order & final & Hperm & Hrun).
    destruct (satisfiable_order_resolves order final Hscenes Hcues Hfail Hperm Hrun)
      as (st & Hres & _).
    now exists st.
Qed.
End Order.

(** *** A forward reference that comes before the cue *)

Lemma lateCue_title ctx :
  parseComponentOrContainer noJson noSpread
    (Element "title" [("start", "scene(b).start")] []) ctx 0
  = match getSceneStart ctx "b" with
    | Some v =>
        Ok ([ {| compId := "title-0"; compType := "Title";
                 compProps := {| propsObject := None; propsAttrs := [] |};
                 compTiming := Some {| startSec := Some v; endSec := None |};
                 compVisible := None; compZIndex := None;
                 compStyles := None; compMarkup := None |} ], 1%nat)
    | None => Throw (MissingTimeReferenceError "scene(b).start")
    end.
Proof.
  destruct ctx as [f gs ge gc ps pe ns]. vm_compute.
  match goal with |- context [gs ?x] => now destruct (gs x) end.
Qed.

Lemma lateCue_registers_nothing fps :
  failedAttemptRegistersNothing noJson noSpread fps (sceneElementsOf referenceBeforeCue).
Proof.
  intros st st' index el what Hel.
  change (sceneElementsOf referenceBeforeCue) with [sceneWithLateCue; sceneAtZero] in *.
  assert (Hcases : el = sceneWithLateCue \/ el = sceneAtZero).
  { apply list_elem_of_lookup_2 in Hel. set_solver. }
  clear Hel. destruct Hcases as [-> | ->]; unfold sceneBody.
  - change (attrIf sceneWithLateCue "id") with (Some "a").
    change (parseTiming sceneWithLateCue (sceneCtx fps [sceneWithLateCue; sceneAtZero] st index))
      with (Ok (@None Timing)).
    change (Dom.children sceneWithLateCue)
      with [Element "title" [("start", "scene(b).start")] []; Element "cue" [("id", "c1")] []].
    cbn [sceneChildren].
    change (Dom.tagName (Element "title" [("start", "scene(b).start")] []) =? "cue") with false.
    change (Dom.tagName (Element "title" [("start", "scene(b).start")] []) =? "pause") with false.
    change (Dom.tagName (Element "title" [("start", "scene(b).start")] []) =? "layer") with false.
    cbv iota. cbn [accComponentIndex]. rewrite lateCue_title.
    destruct (getSceneStart _ "b") as [v|]; [|now intros [= <- _]].
    change (Dom.tagName (Element "cue" [("id", "c1")] []) =? "cue") with true. cbv iota.
    match goal with
    | |- context [parseCue ?c ?x] =>
        change (parseCue c x)
          with (Ok {| cueId := "c1"; cueLabel := "c1"; cueSegments := []; cueBullets := [];
                      cueProvider := None; cueTime := None |})
    end.
    cbv iota. cbn [cueId]. destruct (bool_decide _); [discriminate|].
    change (jsonAttr noJson sceneWithLateCue "styles") with (Ok (@None unit)).
    change (jsonAttr noJson sceneWithLateCue "markup") with (Ok (@None unit)).
    discriminate.
  - change (attrIf sceneAtZero "id") with (Some "b").
    change (parseTiming sceneAtZero (sceneCtx fps [sceneWithLateCue; sceneAtZero] st index))
      with (Ok (Some {| startSec := Some (Num.of_Z 0); endSec := None |})).
    change (Dom.children sceneAtZero) with (@nil Node).
    cbn [sceneChildren].
    change (jsonAttr noJson sceneAtZero "styles") with (Ok (@None unit)).
    change (jsonAttr noJson sceneAtZero "markup") with (Ok (@None unit)).
    discriminate.
Qed.

Lemma distinct_with_sceneAtZero sceneEl :
  attrIf sceneEl "id" = Some "a" ->
  distinctSceneIds [sceneEl; sceneAtZero] /\ distinctCueIds [sceneEl; sceneAtZero].
Proof.
  intros Ha.
  split; intros [|[|i]] [|[|j]] eli elj id Hi Hj; try discriminate Hi; try discriminate Hj;
    injection Hi as <-; injection Hj as <-; try reflexivity.
  - rewrite Ha. change (attrIf sceneAtZero "id") with (Some "b"). congruence.
  - rewrite Ha. change (attrIf sceneAtZero "id") with (Some "b"). congruence.
  - change (sceneCueIds sceneAtZero) with (@nil string). intros _ H. now apply not_elem_of_nil in H.
  - change (sceneCueIds sceneAtZero) with (@nil string). intros H. now apply not_elem_of_nil in H.
Qed.

Lemma lateCue_distinct :
  distinctSceneIds (sceneElementsOf referenceBeforeCue)
  /\ distinctCueIds (sceneElementsOf referenceBeforeCue).
Proof. now apply (distinct_with_sceneAtZero sceneWithLateCue). Qed.

(** The loop resolves [referenceBeforeCue]: the second scene, then the first. *)
Lemma referenceBeforeCue_resolves :
  exists st,
    resolveScenes noJson noSpread (Fin 30) (sceneElementsOf referenceBeforeCue) = Ok st
    /\ pending st = []
    /\ sceneId <$> scenesArray st 2 = ["a"; "b"].
Proof.
  destruct lateCue_distinct as [Hscenes Hcues].
  destruct (satisfiable_order_resolves noJson noSpread (Fin 30) (sceneElementsOf referenceBeforeCue)
              [1; 0]%nat
              (default (initialState 0)
                 (runInOrder noJson noSpread (Fin 30) (sceneElementsOf referenceBeforeCue)
                    [1; 0]%nat (initialState 2)))
              Hscenes Hcues (lateCue_registers_nothing _))
    as (st & Hres & Hp & Hsc).
  - change (length (sceneElementsOf referenceBeforeCue)) with 2%nat. cbn [seq].
    apply perm_swap.
  - vm_compute. reflexivity.
  - exists st. split_and!; [exact Hres|exact Hp|]. unfold scenesArray. rewrite Hsc.
    vm_compute. reflexivity.
Qed.

(** In [forwardRef] the cue comes before the reference: the attempt of its
    first scene registers the cue and then stops, and the loop does not
    resolve what the order second, first resolves. *)
Lemma forwardRef_attempt_registers :
  ~ failedAttemptRegistersNothing noJson noSpread (Fin 30) (sceneElementsOf forwardRef).
Proof.
  intros Hfail.
  destruct (distinct_with_sceneAtZero sceneWithCue eq_refl) as [Hscenes Hcues].
  destruct (satisfiable_order_resolves noJson noSpread (Fin 30) (sceneElementsOf forwardRef)
              [1; 0]%nat
              (default (initialState 0)
                 (runInOrder noJson noSpread (Fin 30) (sceneElementsOf forwardRef)
                    [1; 0]%nat (initialState 2)))
              Hscenes Hcues Hfail)
    as (st & Hres & _).
  - change (length (sceneElementsOf forwardRef)) with 2%nat. cbn [seq]. apply perm_swap.
  - vm_compute. reflexivity.
  - vm_compute in Hres. discriminate Hres.
Qed.

End OrderFacts.

(** ** The loop of the resolver: outcomes and cue ids *)

Module ResolverTheorems.
Import TimeExpr Xml ResolverSpec ResolverFacts Samples.

(** C5, as the code has it.  With fuel for one pass more than there are
    scenes the loop ends, and the run leaves it in exactly one of four
    ways: nothing is pending (success); a pass over the pending scenes has
    resolved none (the error names them); the number of passes exceeds the
    number of scenes plus two (the did-not-converge error); or the attempt
    of a scene has thrown an exception that is no unresolved reference,
    which leaves the loop at once.  The way is that of the last pass of the
    run; it is never the third one, since every pass that resolves a scene
    shortens the pending set. *)
Theorem resolution_loop_outcomes {Json : Type} (JSON_parse : string -> option Json)
    (spread : Json -> Json -> Json) (fps : number) (sceneElements : list Node) :
  exists r w,
    resolveLoop JSON_parse spread fps sceneElements (S (length sceneElements))
      (initialState (length sceneElements)) = Some r
    /\ resolveScenes JSON_parse spread fps sceneElements = r
    /\ Outcome JSON_parse spread fps sceneElements r w
    /\ w <> NotConvergedFailure
    /\ (forall r' w', Outcome JSON_parse spread fps sceneElements r' w' -> r' = r /\ w' = w).
Proof.
  destruct (resolveScenes_exit JSON_parse spread fps sceneElements)
    as (r & last & w & Hloop & Hres & Hstart & Hends & Hw).
  exists r, w. split_and!; try assumption.
  - now exists last.
  - intros r' w' (last' & Hstart' & Hends').
    assert (Hsame : last' = last) by (eapply last_unique; eassumption).
    subst last'.
    destruct (ends_unique _ _ _ _ _ _ _ _ _ Hends Hends') as [-> ->]. now split.
Qed.

(** The three exits of the loop's own tests do not cover a scene whose
    start is no time expression: its error leaves the loop. *)
Lemma expression_error_is_a_fourth_outcome :
  resolveScenes noJson noSpread (Fin 30) [sceneStartingSoon]
  = Throw (Error ("Unknown identifier " +:+ Str.quoted "soon" +:+ " in time expression."))
  /\ ~ loopExit [sceneStartingSoon] (resolveScenes noJson noSpread (Fin 30) [sceneStartingSoon]).
Proof.
  assert (H : resolveScenes noJson noSpread (Fin 30) [sceneStartingSoon]
              = Throw (Error ("Unknown identifier " +:+ Str.quoted "soon" +:+ " in time expression.")))
    by (vm_compute; reflexivity).
  split; [exact H|]. rewrite H.
  intros [[st [Hst _]]|[[p [_ Hp]]|Hc]]; [discriminate| |discriminate].
  unfold errUnresolved in Hp. cbn in Hp. discriminate.
Qed.





End ResolverTheorems.

(** ** Patches and sealed scenes *)

Module PatchFacts.
Import Patch Samples.

Lemma splitLast_None p : splitLast p = None -> p = [].
Proof.
  unfold splitLast. destruct (rev p) eqn:Hr; [|discriminate].
  intros _. apply (f_equal (@rev nat)) in Hr. now rewrite rev_involutive in Hr.
Qed.

Lemma tagName_updateAt f : (forall n, Dom.tagName (f n) = Dom.tagName n) ->
  forall n p, Dom.tagName (updateAt f n p) = Dom.tagName n.
Proof. intros Hf n [|i p]; cbn [updateAt]; [apply Hf|]. now destruct n. Qed.

Lemma isElement_updateAt f : (forall n, Dom.isElement (f n) = Dom.isElement n) ->
  forall n p, Dom.isElement (updateAt f n p) = Dom.isElement n.
Proof. intros Hf n [|i p]; cbn [updateAt]; [apply Hf|]. now destruct n. Qed.

Ltac same_node := let n := fresh in intros n; destruct n; try reflexivity.

(** No patch turns the root into another kind of node. *)
Lemma applyPatch_root enforce d patch d' err :
  applyPatch enforce d patch = (d', err) -> isScene (root d') = isScene (root d).
Proof.
  assert (Hupd : forall f n p,
             (forall n, Dom.tagName (f n) = Dom.tagName n) ->
             (forall n, Dom.isElement (f n) = Dom.isElement n) ->
             isScene (updateAt f n p) = isScene n).
  { intros f n p Ht He. unfold isScene. now rewrite tagName_updateAt, isElement_updateAt. }
  unfold applyPatch.
  repeat match goal with
         | |- context [match ?x with _ => _ end] =>
             lazymatch x with
             | patch => destruct patch
             | _ => destruct x eqn:?
             end
         end;
    intros [= <- <-]; try reflexivity; cbn [withRoot root]; apply Hupd; same_node.
  - unfold insertChild. now destruct (_ ≫= _).
  - unfold insertChild. now destruct (_ ≫= _).
Qed.

Lemma applyPatches_root enforce patches : forall d d' err,
  applyPatches enforce d patches = (d', err) -> isScene (root d') = isScene (root d).
Proof.
  induction patches as [|patch rest IH]; intros d d' err H; cbn [applyPatches] in H.
  - now injection H as <- <-.
  - destruct (applyPatch enforce d patch) as [d1 [e|]] eqn:Hp.
    + injection H as <- <-. eapply applyPatch_root, Hp.
    + apply IH in H. rewrite H. eapply applyPatch_root, Hp.
Qed.

Lemma applyPatches_app enforce before : forall d d' rest,
  applyPatches enforce d before = (d', None) ->
  applyPatches enforce d (before ++ rest) = applyPatches enforce d' rest.
Proof.
  induction before as [|patch before IH]; intros d d' rest H; cbn [applyPatches app] in *.
  - now injection H as <-.
  - destruct (applyPatch enforce d patch) as [d1 [e|]]; [discriminate|]. now apply IH.
Qed.

Lemma allowed_root_not_scene n : Xml.inList (Dom.tagName n) Xml.allowedRoots = true -> isScene n = false.
Proof.
  unfold isScene, Xml.inList, Xml.allowedRoots. cbn [existsb].
  destruct (String.eqb_spec (Dom.tagName n) "scene") as [->|_]; [discriminate|].
  intros _. apply andb_false_r.
Qed.

Lemma sealed_scene_patch d patch id p scene :
  isScene (root d) = false ->
  targetId patch = Some id -> findById d id = Some p ->
  findSceneAncestor d p = Some scene -> sealedAttr scene = true ->
  applyPatch true d patch = (d, Some (errSealed scene)).
Proof.
  intros Hroot Hid Hfind Hscene Hsealed.
  assert (Hassert : assertNotSealed true d p = Some (errSealed scene)).
  { unfold assertNotSealed. cbn [negb]. now rewrite Hscene, Hsealed. }
  assert (Hsplit : exists parent i, splitLast p = Some (parent, i)).
  { destruct (splitLast p) as [[parent i]|] eqn:Hs; [eauto|]. apply splitLast_None in Hs. subst p.
    unfold findSceneAncestor in Hscene. cbn in Hscene. rewrite Hroot in Hscene. discriminate. }
  destruct Hsplit as (parent & i & Hsplit).
  destruct patch; try discriminate Hid; injection Hid as ->; cbn [applyPatch];
    rewrite Hfind, ?Hsplit, Hassert; reflexivity.
Qed.

(** C10, as the code has it.  With the enforcement on, in the document that
    the patches before it have made, a structural patch whose target has
    a sealed scene as its nearest enclosing scene element (the target
    itself when it is a scene) throws the sealed-scene error with the id of
    that scene, leaves the document as it was, and ends the batch. *)
Theorem sealed_scene_patch_rejected xmlRoot before patch after id d p scene :
  Xml.inList (Dom.tagName xmlRoot) Xml.allowedRoots = true ->
  applyPatches true {| root := xmlRoot; replaced := None |} before = (d, None) ->
  targetId patch = Some id -> findById d id = Some p ->
  findSceneAncestor d p = Some scene -> sealedAttr scene = true ->
  applyPatch true d patch = (d, Some (errSealed scene))
  /\ applyPatches true {| root := xmlRoot; replaced := None |} (before ++ patch :: after)
     = (d, Some (errSealed scene))
  /\ applyVomPatchesInBrowser xmlRoot (before ++ patch :: after) true = Throw (errSealed scene).
Proof.
  intros Hallowed Hbefore Hid Hfind Hscene Hsealed.
  assert (Hroot : isScene (root d) = false).
  { rewrite (applyPatches_root _ _ _ _ _ Hbefore). now apply allowed_root_not_scene. }
  pose proof (sealed_scene_patch d patch id p scene Hroot Hid Hfind Hscene Hsealed) as Hpatch.
  assert (Hall : applyPatches true {| root := xmlRoot; replaced := None |} (before ++ patch :: after)
                 = (d, Some (errSealed scene))).
  { rewrite (applyPatches_app _ _ _ _ _ Hbefore). cbn [applyPatches]. now rewrite Hpatch. }
  split; [exact Hpatch|]. split; [exact Hall|].
  unfold applyVomPatchesInBrowser. now rewrite Hallowed, Hall.
Qed.

Lemma sealed_scene_patch_rejected_witness :
  let d0 := {| root := sealedDoc; replaced := None |} in
  exists d,
    applyPatches true d0 [SetAttr "u" "x" (Some "1")] = (d, None)
    /\ applyPatches true d0 [SetAttr "u" "x" (Some "1"); SetText "t" "Bye"; RemoveNode "u"]
       = (d, Some (Error ("Cannot patch sealed scene " +:+ Str.quoted "intro" +:+ ".")))
    /\ applyVomPatchesInBrowser sealedDoc
         [SetAttr "u" "x" (Some "1"); SetText "t" "Bye"; RemoveNode "u"] true
       = Throw (Error ("Cannot patch sealed scene " +:+ Str.quoted "intro" +:+ ".")).
Proof.
  cbv zeta. eexists. split; [vm_compute; reflexivity|].
  refine (proj2 (sealed_scene_patch_rejected sealedDoc [SetAttr "u" "x" (Some "1")]
                   (SetText "t" "Bye") [RemoveNode "u"] "t" _ [0; 0]%nat
                   (Element "scene" [("id", "intro"); ("sealed", "true")]
                      [Element "title" [("id", "t")] [Text "Hello"]])
                   eq_refl _ eq_refl _ _ eq_refl)); vm_compute; reflexivity.
Defined.

(** A patch below a sealed scene is applied when a scene that is not
    sealed stands between the sealed scene and its target. *)
Lemma patch_inside_nested_sealed_scene_applies :
  let d := {| root := nestedSealedDoc; replaced := None |} in
  exists p d',
    findById d "t" = Some p
    /\ insideSealedScene d p
    /\ applyPatch true d (SetAttr "t" "x" (Some "1")) = (d', None)
    /\ d' <> d
    /\ applyVomPatchesInBrowser nestedSealedDoc [SetAttr "t" "x" (Some "1")] true
       = Ok (documentElement d').
Proof.
  cbv zeta. exists [0; 0; 0]%nat. eexists.
  split; [reflexivity|]. split; [|split; [vm_compute; reflexivity|split; [discriminate|reflexivity]]].
  exists (Element "scene" [("id", "outer"); ("sealed", "true")]
            [Element "scene" [("id", "inner")] [Element "title" [("id", "t")] []]]).
  split; [|split; reflexivity].
  cbn. apply list_elem_of_further, list_elem_of_here.
Qed.

End PatchFacts.

(** ** Scenes without a start *)

Module SceneStartFacts.
Import Runtime Samples.

Lemma cursorAfter_snoc cursor timing scene :
  cursorAfter cursor (timing ++ [scene]) = default (cursorAfter cursor timing) (sceneEnd scene).
Proof. unfold cursorAfter. now rewrite foldl_app. Qed.

Lemma sceneTimingsFrom_start fps els : forall cursor k el scene,
  els !! k = Some el ->
  Dom.getAttribute el.1.2 "start" = None ->
  (sceneTimingsFrom fps els cursor).1 !! k = Some scene ->
  sceneStart scene = cursorAfter cursor (take k (sceneTimingsFrom fps els cursor).1).
Proof.
  induction els as [|x rest IH]; intros cursor k el scene Hel Hstart Hk; [discriminate|].
  cbn [sceneTimingsFrom] in *.
  destruct (sceneTimingsFrom fps rest _) as [timing cueTiming] eqn:Hrest.
  cbn [fst] in *. destruct k as [|k].
  - injection Hel as ->. injection Hk as <-. cbn [sceneStart take cursorAfter foldl].
    unfold timeSecondsAttr. now rewrite Hstart.
  - cbn [take lookup list_lookup] in *. cbn [cursorAfter foldl sceneEnd].
    match type of Hrest with
    | sceneTimingsFrom _ _ ?c = _ => specialize (IH c k el scene Hel Hstart)
    end.
    rewrite Hrest in IH. now apply IH.
Qed.

Section WithJson.
Context {Json : Type}.
Variable JSON_parse : string -> option Json.
Variable spread : Json -> Json -> Json.

Lemma computeSceneTimings_scenes xmlRoot root host t :
  computeSceneTimings JSON_parse spread xmlRoot root host = Ok t ->
  scenes t = (sceneTimingsFrom (Runtime.fps t) (querySelectorAll root [] host "scene") (Fin 0)).1.
Proof.
  unfold computeSceneTimings.
  destruct (Xml.loadVideoFileFromXml _ _ _) as [c|]; [|discriminate]. cbn.
  destruct (sceneTimingsFrom _ _ _) as [timing cueTiming] eqn:Hfrom. intros [= <-].
  cbn [scenes Runtime.fps]. change (Fin 0) with (Num.of_Z 0). now rewrite Hfrom.
Qed.

(** C4, as the code has it.  In the scene timings of the player
    ([computeSceneTimings]) a scene element with no [start] attribute starts
    at the end of the nearest scene before it that has an end, at 0 when
    there is none: at 0 when it is the first scene, at the end of the scene
    before it when that scene has one.  The resolver ([parseTiming]) does not
    chain the scenes: without [start] the start is 0 when there is a
    [duration] and absent when there is not. *)
Theorem scene_without_start :
  (forall xmlRoot root host t k el scene,
      computeSceneTimings JSON_parse spread xmlRoot root host = Ok t ->
      querySelectorAll root [] host "scene" !! k = Some el ->
      Dom.getAttribute el.1.2 "start" = None ->
      scenes t !! k = Some scene ->
      sceneStart scene = cursorAfter (Fin 0) (take k (scenes t))
      /\ (k = 0%nat -> sceneStart scene = Fin 0)
      /\ (forall j prev e, k = S j -> scenes t !! j = Some prev -> sceneEnd prev = Some e ->
                           sceneStart scene = e))
  /\ (forall el ctx timing,
         Xml.attrIf el "start" = None ->
         Xml.parseTiming el ctx = Ok (Some timing) ->
         Xml.startSec timing
         = match Xml.attrIf el "duration" with
           | Some _ => Some (Fin 0)
           | None => None
           end).
Proof.
  split.
  - intros xmlRoot root host t k el scene Ht Hel Hstart Hk.
    pose proof (computeSceneTimings_scenes _ _ _ _ Ht) as Hscenes.
    assert (Hgen : sceneStart scene = cursorAfter (Fin 0) (take k (scenes t))).
    { rewrite Hscenes in Hk |- *. eapply sceneTimingsFrom_start; eassumption. }
    split; [exact Hgen|]. split.
    + intros ->. exact Hgen.
    + intros j prev e -> Hj He. rewrite Hgen, (take_S_r _ _ _ Hj), cursorAfter_snoc. now rewrite He.
  - intros el ctx timing Hstart. unfold Xml.parseTiming. rewrite Hstart.
    destruct (Xml.attrIf el "end") as [endRaw|] eqn:Hend,
             (Xml.attrIf el "duration") as [durationRaw|] eqn:Hdur;
      cbn; unfold Xml.timeAttr; rewrite ?Hend; try discriminate;
      repeat match goal with
             | |- context [TimeExpr.parseTimeValue ?a ?b] => destruct (TimeExpr.parseTimeValue a b)
             end; cbn; intros [= <-]; reflexivity.
Qed.

End WithJson.

Lemma scene_without_start_witness :
  exists t scene,
    computeSceneTimings noJson noSpread chained chained [] = Ok t
    /\ scenes t !! 1%nat = Some scene
    /\ sceneStart scene = Fin 3.
Proof.
  destruct (computeSceneTimings noJson noSpread chained chained []) as [t|] eqn:Ht;
    [|vm_compute in Ht; discriminate].
  assert (Hel : querySelectorAll chained [] [] "scene" !! 1%nat
                = Some ([1%nat], Element "scene" [("id", "b"); ("duration", "2")] [], [chained]))
    by reflexivity.
  assert (Hscenes : (fun s => (sceneStart s, sceneEnd s)) <$> scenes t
                    = [(Fin 0, Some (Fin 3)); (Fin 3, Some (Fin 5))]).
  { vm_compute in Ht. injection Ht as <-. reflexivity. }
  destruct (scenes t) as [|a [|b [|c rest]]] eqn:Hs; try discriminate.
  injection Hscenes as Ha1 Ha2 Hb1 Hb2.
  exists t, b. split; [reflexivity|]. split; [now rewrite Hs|].
  eapply (proj2 (proj2 (proj1 (scene_without_start noJson noSpread) chained chained [] t 1%nat
                          _ b Ht Hel eq_refl _)) 0%nat a (Fin 3) eq_refl).
  - now rewrite Hs.
  - exact Ha2.
  Unshelve. now rewrite Hs.
Defined.

(** The resolved composition does not chain the scenes, and the player
    does not start a scene at the end of the scene before it when that
    scene has no end. *)
Lemma scene_without_start_not_at_previous_end :
  (exists c,
      Xml.loadVideoFileFromXml noJson noSpread chained = Ok c
      /\ Xml.sceneTime <$> Xml.compositionScenes c
         = [ Some {| Xml.timeStart := Some (Fin 0); Xml.timeEnd := Some (Fin 3) |};
             Some {| Xml.timeStart := Some (Fin 0); Xml.timeEnd := Some (Fin 2) |} ])
  /\ (exists t,
         computeSceneTimings noJson noSpread openSceneBetween openSceneBetween [] = Ok t
         /\ (fun scene => (sceneId scene, sceneStart scene, sceneEnd scene)) <$> scenes t
            = [ ("s1", Fin 0, Some (Fin 2)); ("s2", Fin 2, None); ("s3", Fin 2, Some (Fin 3)) ]).
Proof.
  split; eexists; (split; [vm_compute; reflexivity|reflexivity]).
Qed.

End SceneStartFacts.

(** * Further properties of the code *)

Module PatchLaws.
Import Patch PatchSpec Samples.

(** *** [findById] *)

Lemma findPath_children id cs :
  Forall (fun c => firstWithId id c (findPath id c)) cs ->
  forall i,
    match (fix first (cs : list Node) (i : nat) : option Path :=
             match cs with
             | [] => None
             | c :: rest =>
                 match findPath id c with
                 | Some p => Some (i :: p)
                 | None => first rest (S i)
                 end
             end) cs i with
    | Some [] => False
    | Some (j :: p) =>
        exists c, (i <= j)%nat /\ cs !! (j - i)%nat = Some c
                  /\ firstWithId id c (Some p)
                  /\ forall k c' q el, (k < j - i)%nat -> cs !! k = Some c' ->
                                       nodeAt c' q = Some el ->
                                       Dom.getAttribute el "id" <> Some id
    | None => forall k c q el, cs !! k = Some c -> nodeAt c q = Some el ->
                               Dom.getAttribute el "id" <> Some id
    end.
Proof.
  induction 1 as [|c rest Hc _ IH]; intros i.
  - intros k c p el Hk. now rewrite lookup_nil in Hk.
  - destruct (findPath id c) as [p|] eqn:Hf.
    + exists c. rewrite Nat.sub_diag. split_and!; try done. intros k c' q el Hk. lia.
    + specialize (IH (S i)).
      match goal with
      | |- match ?x with _ => _ end => destruct x as [[|j p]|] eqn:Hrest
      end; [exact IH| |].
      * destruct IH as (c' & Hle & Hlook & Hfound & Hearlier).
        exists c'. split; [lia|].
        replace (j - i)%nat with (S (j - S i)) by lia. split_and!; try assumption.
        intros [|k] c'' q el Hk Hlk Hat.
        -- injection Hlk as <-. now apply (Hc q el).
        -- apply (Hearlier k c'' q el); [lia|exact Hlk|exact Hat].
      * intros [|k] c' p el Hk Hat.
        -- injection Hk as <-. now apply (Hc p el).
        -- now apply (IH k c' p el).
Qed.

Lemma findPath_first id n : firstWithId id n (findPath id n).
Proof.
  induction n as [d|t a cs IH] using RuntimeFacts.Node_forall.
  - cbn. intros [|i p] el; [|discriminate]. intros [= <-]. discriminate.
  - cbn [findPath]. destruct (bool_decide _) eqn:Hb.
    + apply bool_decide_eq_true in Hb. split.
      * exists (Element t a cs). now split_and!.
      * intros [|i q] el Hq; discriminate Hq.
    + apply bool_decide_eq_false in Hb.
      pose proof (findPath_children id cs IH 0%nat) as H.
      match goal with
      | |- firstWithId _ _ ?x => destruct x as [[|j p]|] eqn:Hrest
      end; [contradiction| |].
      * destruct H as (c & _ & Hlook & [(el & Hat & Hel & Hid) Hfirst] & Hearlier).
        rewrite Nat.sub_0_r in Hlook, Hearlier. split.
        -- exists el. split_and!; try assumption. cbn [nodeAt]. rewrite Hlook. exact Hat.
        -- intros [|k q] el' Hq Hat'.
           ++ injection Hat' as <-. exact Hb.
           ++ cbn [nodeAt] in Hat'. destruct (cs !! k) as [c'|] eqn:Hk; [|discriminate].
              cbn [pathBefore] in Hq. apply orb_true_iff in Hq as [Hlt|Heq].
              ** apply Nat.ltb_lt in Hlt. now apply (Hearlier k c' q el').
              ** apply andb_true_iff in Heq as [Heq Hq]. apply Nat.eqb_eq in Heq. subst k.
                 assert (c' = c) as -> by congruence. now apply (Hfirst q el').
      * intros [|k p] el Hat.
        -- injection Hat as <-. exact Hb.
        -- cbn [nodeAt] in Hat. destruct (cs !! k) as [c|] eqn:Hk; [|discriminate].
           now apply (H k c p el).
Qed.



(** *** A patch whose id is not in the document *)




(** *** [setAttr] *)

Lemma nodeAt_updateAt f : forall p n el,
  nodeAt n p = Some el -> nodeAt (updateAt f n p) p = Some (f el).
Proof.
  induction p as [|i p IH]; intros n el H; cbn [nodeAt updateAt] in *.
  - now injection H as <-.
  - destruct n as [t a cs|]; [|discriminate]. cbn [nodeAt].
    destruct (cs !! i) as [c|] eqn:Hc; [|discriminate]. cbn in H.
    rewrite list_lookup_alter_eq, Hc. cbn. now apply IH.
Qed.

Lemma lookupAttr_set name value attrs :
  Dom.lookupAttr name (setAttrList name value attrs) = Some value.
Proof.
  induction attrs as [|[k v] r IH]; cbn.
  - now rewrite String.eqb_refl.
  - destruct (String.eqb k name) eqn:Hk; cbn; now rewrite Hk.
Qed.

Lemma lookupAttr_set_other name value other attrs :
  other <> name ->
  Dom.lookupAttr other (setAttrList name value attrs) = Dom.lookupAttr other attrs.
Proof.
  intros Hne. induction attrs as [|[k v] r IH]; cbn.
  - destruct (String.eqb_spec name other); [congruence|reflexivity].
  - destruct (String.eqb_spec k name) as [->|Hk]; cbn.
    + destruct (String.eqb_spec name other); [congruence|reflexivity].
    + now rewrite IH.
Qed.

Lemma lookupAttr_remove name attrs :
  Dom.lookupAttr name (filter (fun kv => kv.1 <> name) attrs) = None.
Proof.
  induction attrs as [|[k v] r IH]; [reflexivity|].
  rewrite filter_cons. cbn [fst]. destruct (decide (k <> name)) as [Hk|Hk]; [|exact IH].
  cbn. destruct (String.eqb_spec k name); [contradiction|exact IH].
Qed.

Lemma lookupAttr_remove_other name other attrs :
  other <> name ->
  Dom.lookupAttr other (filter (fun kv => kv.1 <> name) attrs) = Dom.lookupAttr other attrs.
Proof.
  intros Hne. induction attrs as [|[k v] r IH]; [reflexivity|].
  rewrite filter_cons. cbn [fst]. destruct (decide (k <> name)) as [Hk|Hk]; cbn.
  - now rewrite IH.
  - assert (k = name) as -> by (destruct (decide (k = name)); [assumption|contradiction]).
    destruct (String.eqb_spec name other); [congruence|exact IH].
Qed.

(** X3.  A [setAttr] patch that finds its element outside a sealed scene,
    and whose name is a plain attribute name when it sets a value, leaves
    the value in the attribute of the element it addresses, or the element
    without the attribute when the value is null; the other attributes, the
    tag and the child nodes of the element are as before. *)
Theorem setAttr_then_getAttribute enforce d id name value p el :
  findById d id = Some p -> nodeAt (root d) p = Some el ->
  assertNotSealed enforce d p = None ->
  (is_Some value -> plainName name = true) ->
  exists d' el',
    applyPatch enforce d (SetAttr id name value) = (d', None)
    /\ nodeAt (root d') p = Some el'
    /\ Dom.getAttribute el' name = value
    /\ (forall other, other <> name -> Dom.getAttribute el' other = Dom.getAttribute el other)
    /\ Dom.tagName el' = Dom.tagName el
    /\ Dom.childNodes el' = Dom.childNodes el.
Proof.
  intros Hfind Hat Hopen _.
  assert (Hel : Dom.isElement el = true).
  { pose proof (findPath_first id (root d)) as H. unfold findById in Hfind. rewrite Hfind in H.
    destruct H as [(el0 & Hat0 & Hel0 & _) _]. congruence. }
  destruct el as [t a cs|]; [|discriminate].
  cbn [applyPatch]. rewrite Hfind, Hopen.
  eexists. eexists. split; [reflexivity|]. cbn [withRoot root].
  split; [apply nodeAt_updateAt; exact Hat|].
  destruct value as [v|]; cbn; split_and!; try reflexivity.
  - apply lookupAttr_set.
  - intros other Hne. now apply lookupAttr_set_other.
  - apply lookupAttr_remove.
  - intros other Hne. now apply lookupAttr_remove_other.
Qed.

Lemma setAttr_then_getAttribute_witness :
  exists d' el',
    applyPatch true {| root := sealedDoc; replaced := None |} (SetAttr "u" "lang" (Some "en"))
    = (d', None)
    /\ nodeAt (root d') [1; 0]%nat = Some el'
    /\ Dom.getAttribute el' "lang" = Some "en"
    /\ Dom.getAttribute el' "id" = Some "u".
Proof.
  destruct (setAttr_then_getAttribute true {| root := sealedDoc; replaced := None |}
              "u" "lang" (Some "en") [1; 0]%nat (Element "title" [("id", "u")] [])
              eq_refl eq_refl eq_refl (fun _ => eq_refl))
    as (d' & el' & Hpatch & Hat & Hget & Hother & _).
  exists d', el'. split_and!; try assumption.
  rewrite Hother; [reflexivity|discriminate].
Defined.

(** *** [appendNode] *)

Lemma elementPosition_shift cs : forall k pos,
  elementPosition cs k pos = (fun q => (pos + q)%nat) <$> elementPosition cs k 0.
Proof.
  induction cs as [|c rest IH]; intros k pos; cbn [elementPosition]; [reflexivity|].
  destruct (Dom.isElement c).
  - destruct k as [|k]; [cbn; f_equal; lia|].
    rewrite (IH k (S pos)), (IH k 1%nat).
    destruct (elementPosition rest k 0); cbn; [f_equal; lia|reflexivity].
  - rewrite (IH k (S pos)), (IH k 1%nat).
    destruct (elementPosition rest k 0); cbn; [f_equal; lia|reflexivity].
Qed.

Local Abbreviation elements := (filter (fun c => Dom.isElement c = true)).
Local Abbreviation others := (filter (fun c => Dom.isElement c <> true)).

Lemma insert_among_elements new cs : forall k,
  Dom.isElement new = true ->
  let placed := match elementPosition cs k 0 with
                | Some pos => take pos cs ++ new :: drop pos cs
                | None => cs ++ [new]
                end in
  elements placed
  = (if (k <? length (elements cs))%nat
     then take k (elements cs) ++ new :: drop k (elements cs)
     else elements cs ++ [new])
  /\ others placed = others cs.
Proof.
  intros k Hnew. revert k. cbv zeta.
  induction cs as [|c rest IH]; intros k.
  - cbn [elementPosition app]. rewrite !filter_cons, !filter_nil.
    destruct (decide (Dom.isElement new = true)); [|contradiction].
    destruct (decide (Dom.isElement new <> true)); [contradiction|].
    now destruct k.
  - cbn [elementPosition]. destruct (Dom.isElement c) eqn:Hc.
    + destruct k as [|k].
      * cbn [take drop app]. rewrite !filter_cons, Hc, Hnew.
        destruct (decide (true = true)); [|contradiction].
        destruct (decide (true <> true)); [contradiction|]. now split.
      * rewrite elementPosition_shift. specialize (IH k).
        destruct (elementPosition rest k 0) as [pos|]; cbn [fmap option_fmap option_map Nat.add].
        -- cbn [take drop app]. rewrite !(filter_cons _ c), Hc.
           destruct (decide (true = true)); [|contradiction].
           destruct (decide (true <> true)); [contradiction|].
           destruct IH as [-> ->]. split; [|reflexivity].
           cbn [length]. change (S k <? S ?n)%nat with (k <? n)%nat.
           now destruct (k <? _)%nat.
        -- change ((c :: rest) ++ [new]) with (c :: (rest ++ [new])).
           rewrite !(filter_cons _ c), Hc.
           destruct (decide (true = true)); [|contradiction].
           destruct (decide (true <> true)); [contradiction|].
           destruct IH as [-> ->]. split; [|reflexivity].
           cbn [length]. change (S k <? S ?n)%nat with (k <? n)%nat.
           now destruct (k <? _)%nat.
    + rewrite elementPosition_shift. specialize (IH k).
      destruct (elementPosition rest k 0) as [pos|]; cbn [fmap option_fmap option_map Nat.add].
      * cbn [take drop app]. rewrite !(filter_cons _ c), Hc.
        destruct (decide (false = true)); [discriminate|].
        destruct (decide (false <> true)); [|contradiction].
        destruct IH as [-> ->]. now split.
      * change ((c :: rest) ++ [new]) with (c :: (rest ++ [new])).
        rewrite !(filter_cons _ c), Hc.
        destruct (decide (false = true)); [discriminate|].
        destruct (decide (false <> true)); [|contradiction].
        destruct IH as [-> ->]. now split.
Qed.

(** X4.  An [appendNode] patch that is applied puts the new element among the
    child elements of the parent: before the child element that had the
    index, or last when there is no index or no such child element.  The
    index counts elements only; the text nodes of the parent stay. *)
Theorem appendNode_index_counts_elements enforce d id nodeXml index p parent newNode :
  findById d id = Some p -> nodeAt (root d) p = Some parent ->
  assertNotSealed enforce d p = None ->
  parseFragment nodeXml = Ok newNode ->
  exists d' parent',
    applyPatch enforce d (AppendNode id nodeXml index) = (d', None)
    /\ nodeAt (root d') p = Some parent'
    /\ Dom.children parent'
       = (match index with
          | Some k =>
              if (k <? length (Dom.children parent))%nat
              then take k (Dom.children parent) ++ newNode :: drop k (Dom.children parent)
              else Dom.children parent ++ [newNode]
          | None => Dom.children parent ++ [newNode]
          end)
    /\ others (Dom.childNodes parent') = others (Dom.childNodes parent)
    /\ Dom.attributes parent' = Dom.attributes parent.
Proof.
  intros Hfind Hat Hopen Hfrag.
  assert (Hnew : Dom.isElement newNode = true).
  { unfold parseFragment in Hfrag.
    destruct (find Dom.isElement nodeXml) as [first|] eqn:Hf; [|discriminate].
    injection Hfrag as <-. now apply find_some in Hf as [_ Hf]. }
  assert (Hel : Dom.isElement parent = true).
  { pose proof (findPath_first id (root d)) as H. unfold findById in Hfind. rewrite Hfind in H.
    destruct H as [(el0 & Hat0 & Hel0 & _) _]. congruence. }
  destruct parent as [t a cs|]; [|discriminate].
  cbn [applyPatch]. rewrite Hfind, Hopen, Hfrag.
  eexists. eexists. split; [reflexivity|]. cbn [withRoot root].
  split; [apply nodeAt_updateAt; exact Hat|].
  unfold Dom.children. cbn [insertChild Dom.childNodes Dom.attributes].
  destruct index as [k|]; cbn [mbind option_bind].
  - pose proof (insert_among_elements newNode cs k Hnew) as [Hels Hothers].
    destruct (elementPosition cs k 0); cbn [Dom.childNodes Dom.attributes]; now split_and!.
  - cbn [Dom.childNodes Dom.attributes]. rewrite !filter_app, !filter_cons, !filter_nil.
    destruct (decide (Dom.isElement newNode = true)); [|contradiction].
    destruct (decide (Dom.isElement newNode <> true)); [contradiction|].
    rewrite app_nil_r. now split_and!.
Qed.

Lemma appendNode_index_counts_elements_witness :
  exists d' parent',
    applyPatch false {| root := sealedDoc; replaced := None |}
      (AppendNode "intro" [Text " "; Element "subtitle" [] []] (Some 0%nat)) = (d', None)
    /\ nodeAt (root d') [0]%nat = Some parent'
    /\ Dom.children parent'
       = [Element "subtitle" [] []; Element "title" [("id", "t")] [Text "Hello"]].
Proof.
  destruct (appendNode_index_counts_elements false {| root := sealedDoc; replaced := None |}
              "intro" [Text " "; Element "subtitle" [] []] (Some 0%nat) [0]%nat
              (Element "scene" [("id", "intro"); ("sealed", "true")]
                 [Element "title" [("id", "t")] [Text "Hello"]])
              (Element "subtitle" [] []) eq_refl eq_refl eq_refl eq_refl)
    as (d' & parent' & Hpatch & Hat & Hchildren & _).
  exists d', parent'. split_and!; try assumption.
Defined.

(** *** [sealScene] *)

Lemma findPath_alter id g : forall cs i k,
  (forall c, findPath id (g c) = findPath id c) ->
  (fix first (cs : list Node) (i : nat) : option Path :=
     match cs with
     | [] => None
     | c :: rest =>
         match findPath id c with
         | Some p => Some (i :: p)
         | None => first rest (S i)
         end
     end) (alter g k cs) i
  = (fix first (cs : list Node) (i : nat) : option Path :=
       match cs with
       | [] => None
       | c :: rest =>
           match findPath id c with
           | Some p => Some (i :: p)
           | None => first rest (S i)
           end
       end) cs i.
Proof.
  induction cs as [|c rest IH]; intros i k Hg; [reflexivity|].
  destruct k as [|k]; cbn [alter list_alter].
  - now rewrite Hg.
  - destruct (findPath id c); [reflexivity|]. now apply IH.
Qed.

Lemma findPath_updateAt id f :
  (forall t a cs, exists a', f (Element t a cs) = Element t a' cs
                             /\ Dom.lookupAttr "id" a' = Dom.lookupAttr "id" a) ->
  (forall s, f (Text s) = Text s) ->
  forall p n, findPath id (updateAt f n p) = findPath id n.
Proof.
  intros Hel Htext. induction p as [|i p IH]; intros n; cbn [updateAt].
  - destruct n as [t a cs|s]; [|now rewrite Htext].
    destruct (Hel t a cs) as (a' & -> & Hid). cbn [findPath]. now rewrite Hid.
  - destruct n as [t a cs|s]; [|reflexivity].
    cbn [findPath]. destruct (bool_decide _); [reflexivity|].
    now apply findPath_alter.
Qed.

Lemma nodesAlong_last : forall p n el,
  nodeAt n p = Some el -> exists l, nodesAlong n p = l ++ [el].
Proof.
  induction p as [|i p IH]; intros n el H; cbn [nodeAt nodesAlong] in *.
  - injection H as <-. now exists [].
  - destruct n as [t a cs|]; [|discriminate].
    destruct (cs !! i) as [c|]; [|discriminate]. cbn in H.
    destruct (IH c el H) as [l ->]. now exists (Element t a cs :: l).
Qed.

(** X5.  Sealing takes effect at once: in a batch applied with enforcement, a
    structural patch addressed to a scene that the patch before it has
    sealed throws the sealed-scene error, which names the scene. *)
Theorem sealScene_then_patch_rejected xmlRoot s p scene patch :
  Xml.inList (Dom.tagName xmlRoot) Xml.allowedRoots = true ->
  findPath s xmlRoot = Some p -> nodeAt xmlRoot p = Some scene ->
  Dom.tagName scene = "scene" ->
  targetId patch = Some s ->
  applyVomPatchesInBrowser xmlRoot [SealScene s; patch] true
  = Throw (Error ("Cannot patch sealed scene " +:+ Str.quoted s +:+ ".")).
Proof.
  intros Hallowed Hfind Hat Htag Htarget.
  pose proof (findPath_first s xmlRoot) as Hspec. rewrite Hfind in Hspec.
  destruct Hspec as [(el & Hat' & Hel & Hid) _].
  assert (el = scene) as -> by congruence.
  destruct scene as [t a cs|]; [|discriminate]. cbn in Htag. subst t.
  set (d := {| root := xmlRoot; replaced := None |}).
  set (d' := withRoot d (updateAt (setAttribute "sealed" "true") xmlRoot p)).
  set (sealed := Element "scene" (setAttrList "sealed" "true" a) cs).
  assert (Hseal : applyPatch true d (SealScene s) = (d', None)).
  { cbn [applyPatch]. unfold findById. cbn [root d]. rewrite Hfind, Hat. reflexivity. }
  assert (Hat2 : nodeAt (root d') p = Some sealed).
  { apply (nodeAt_updateAt (setAttribute "sealed" "true") p xmlRoot _ Hat). }
  assert (Hfind2 : findById d' s = Some p).
  { unfold findById. cbn [root d' withRoot]. rewrite findPath_updateAt; [exact Hfind| |reflexivity].
    intros t a0 cs0. eexists. split; [reflexivity|]. now apply lookupAttr_set_other. }
  assert (Hscene : findSceneAncestor d' p = Some sealed).
  { unfold findSceneAncestor. destruct (nodesAlong_last _ _ _ Hat2) as [l ->].
    now rewrite rev_app_distr. }
  assert (Hsealed : sealedAttr sealed = true).
  { unfold sealedAttr, Dom.getAttribute. cbn [Dom.attributes sealed]. now rewrite lookupAttr_set. }
  assert (Hroot : isScene (root d') = false).
  { rewrite (PatchFacts.applyPatch_root _ _ _ _ _ Hseal). now apply PatchFacts.allowed_root_not_scene. }
  pose proof (PatchFacts.sealed_scene_patch d' patch s p sealed Hroot Htarget Hfind2 Hscene Hsealed)
    as Hpatch.
  unfold applyVomPatchesInBrowser. rewrite Hallowed. cbn [negb applyPatches]. fold d.
  rewrite Hseal, Hpatch. unfold errSealed, Dom.getAttribute. cbn [Dom.attributes sealed].
  rewrite lookupAttr_set_other by discriminate.
  unfold Dom.getAttribute in Hid. cbn [Dom.attributes] in Hid. now rewrite Hid.
Qed.

Lemma sealScene_then_patch_rejected_witness :
  applyVomPatchesInBrowser sealedDoc [SealScene "open"; SetText "open" "x"] true
  = Throw (Error ("Cannot patch sealed scene " +:+ Str.quoted "open" +:+ ".")).
Proof.
  exact (sealScene_then_patch_rejected sealedDoc "open" [1]%nat
           (Element "scene" [("id", "open")] [Element "title" [("id", "u")] []])
           (SetText "open" "x") eq_refl eq_refl eq_refl eq_refl eq_refl).
Defined.

End PatchLaws.

Module ClockLaws.
Import Timeline TimelineSpec Samples.


(** *** A frame is requested only while the clock runs *)

Lemma requested_running cfg s :
  reachable cfg s -> requested s = true -> raf s = true /\ running s = true.
Proof.
  induction 1 as [|s Hs IH|s Hs IH|s ts Hs IH]; intros Hreq.
  - discriminate.
  - unfold start in *. destruct (running s) eqn:Hr; [|now cbn]. rewrite Hr. now apply IH.
  - unfold stop in Hreq. cbn in Hreq. destruct (raf s) eqn:Hraf; [discriminate|].
    destruct (IH Hreq). congruence.
  - unfold animationFrame in *. destruct (requested s) eqn:Hq; [|cbn in Hreq; congruence].
    destruct (IH eq_refl) as [Hraf Hrun]. unfold tick in *. cbn [running] in *.
    rewrite Hrun in *. cbn [negb] in *.
    destruct (advance cfg _) as [nextTime goesOn]. cbn in *.
    destruct goesOn; [now split|discriminate].
Qed.

(** X6.  After [stop] no frame callback calls a subscriber or moves the time,
    whatever frames the browser still runs. *)
Theorem stopped_clock_is_silent cfg s stamps :
  reachable cfg s -> frames cfg (stop s) stamps = (stop s, []).
Proof.
  intros Hs. apply TimelineFacts.frames_idle. unfold stop. cbn.
  destruct (raf s) eqn:Hraf; [reflexivity|].
  destruct (requested s) eqn:Hreq; [|reflexivity].
  destruct (requested_running cfg s Hs Hreq). congruence.
Qed.

Lemma stopped_clock_is_silent_witness :
  frames clampConfig (stop (start initial)) [Fin 0; Fin 16; Fin 32]
  = (stop (start initial), []).
Proof.
  apply (stopped_clock_is_silent clampConfig (start initial) [Fin 0; Fin 16; Fin 32]).
  apply reach_start, reach_initial.
Defined.

(** *** The arithmetic of a tick *)



Lemma delta_finite s ts :
  (lastTs s = None \/ exists l, lastTs s = Some (Fin l)) ->
  exists dq, delta s (Fin ts) = Fin dq
             /\ (dq == (ts - match lastTs s with Some (Fin l) => l | _ => ts end) / 1000)%Q.
Proof.
  intros [Hl|[l Hl]]; unfold delta; rewrite Hl; cbn [default Num.sub Num.lift2 Num.div Num.of_Z].
  - eexists. split; [reflexivity|]. now rewrite !Qred_correct.
  - eexists. split; [reflexivity|]. now rewrite !Qred_correct.
Qed.

(** *** A bounded clock stays within its duration *)




(** *** A live clock shows the time that has passed *)

Lemma live_frame cfg s ts q :
  clockMode cfg = Live ->
  running s = true -> requested s = true -> time s = Fin q ->
  (lastTs s = None \/ exists l, lastTs s = Some (Fin l)) ->
  exists s' q',
    animationFrame cfg s (Fin ts) = (s', Some (Fin q'))
    /\ running s' = true /\ requested s' = true
    /\ time s' = Fin q' /\ lastTs s' = Some (Fin ts)
    /\ (q' == q + (ts - match lastTs s with Some (Fin l) => l | _ => ts end) / 1000)%Q.
Proof.
  intros Hmode Hrun Hreq Hq Hlast.
  destruct (delta_finite s ts Hlast) as (dq & Hdelta & Hdq).
  unfold animationFrame. rewrite Hreq. unfold tick. cbn [running time]. rewrite Hrun. cbn [negb].
  match goal with
  | |- context [delta ?r (Fin ts)] => change (delta r (Fin ts)) with (delta s (Fin ts))
  end.
  rewrite Hdelta, Hq. unfold advance. rewrite Hmode. cbn [Num.add Num.lift2].
  eexists. eexists. split; [reflexivity|]. cbn. split_and!; try reflexivity.
  now rewrite Qred_correct, Hdq.
Qed.

Lemma live_frames cfg : forall stamps s l q0 q,
  clockMode cfg = Live ->
  running s = true -> requested s = true -> time s = Fin q -> lastTs s = Some (Fin l) ->
  (q0 <= q)%Q -> ascending l stamps ->
  running (frames cfg s (Fin <$> stamps)).1 = true
  /\ length (frames cfg s (Fin <$> stamps)).2 = length stamps
  /\ Num.ge (time (frames cfg s (Fin <$> stamps)).1) (Fin q0) = true
  /\ Forall (fun t => Num.ge t (Fin q0) = true) (frames cfg s (Fin <$> stamps)).2.
Proof.
  induction stamps as [|ts rest IH]; intros s l q0 q Hmode Hrun Hreq Hq Hlast Hle Hasc.
  - cbn. rewrite Hq. split_and!; [exact Hrun|reflexivity|now apply Qle_bool_iff|constructor].
  - destruct Hasc as [Hstep Hasc].
    destruct (live_frame cfg s ts q Hmode Hrun Hreq Hq)
      as (s1 & q1 & Hframe & Hrun1 & Hreq1 & Hq1 & Hlast1 & Heq1).
    { right. now exists l. }
    rewrite Hlast in Heq1.
    assert (Hle1 : (q0 <= q1)%Q).
    { rewrite Heq1. apply Qle_trans with q; [exact Hle|].
      rewrite <- (Qplus_0_r q) at 1. apply Qplus_le_r.
      apply Qle_shift_div_l; [reflexivity|]. rewrite Qmult_0_l.
      now apply (Qplus_le_l _ _ l); ring_simplify. }
    destruct (IH s1 ts q0 q1 Hmode Hrun1 Hreq1 Hq1 Hlast1 Hle1 Hasc) as (Hr & Hlen & Hge & Hall).
    rewrite fmap_cons. cbn [frames]. rewrite Hframe.
    destruct (frames cfg s1 (Fin <$> rest)) as [s2 outs] eqn:Hrest. cbn [fst snd] in *.
    split_and!; [exact Hr|cbn; now rewrite Hlen|exact Hge|].
    constructor; [now apply Qle_bool_iff|exact Hall].
Qed.

(** X8.  A live clock that is started and then run by frames whose
    timestamps do not decrease goes on for ever and never goes back: every
    frame calls the subscribers, none stops the clock whatever the duration
    and the loop flag say, and neither a time handed to a subscriber nor
    the time at the end is below the time at the start. *)
Theorem live_clock_never_stops_or_goes_back cfg s q t0 stamps :
  clockMode cfg = Live -> running s = false -> time s = Fin q ->
  ascending t0 stamps ->
  let run := frames cfg (start s) (Fin <$> t0 :: stamps) in
  running run.1 = true
  /\ length run.2 = S (length stamps)
  /\ Num.ge (time run.1) (Fin q) = true
  /\ Forall (fun t => Num.ge t (Fin q) = true) run.2.
Proof.
  intros Hmode Hrun Hq Hasc. cbv zeta.
  destruct (live_frame cfg (start s) t0 q Hmode)
    as (s1 & q1 & Hframe & Hrun1 & Hreq1 & Hq1 & Hlast1 & Heq1).
  { unfold start. now rewrite Hrun. }
  { unfold start. now rewrite Hrun. }
  { unfold start. now rewrite Hrun. }
  { left. unfold start. now rewrite Hrun. }
  assert (Hnone : lastTs (start s) = None) by (unfold start; now rewrite Hrun).
  rewrite Hnone in Heq1.
  assert (Hle1 : (q <= q1)%Q).
  { rewrite Heq1. rewrite <- (Qplus_0_r q) at 1. apply Qplus_le_r.
    apply Qle_shift_div_l; [reflexivity|]. rewrite Qmult_0_l.
    apply (Qplus_le_l _ _ t0); ring_simplify. apply Qle_refl. }
  destruct (live_frames cfg stamps s1 t0 q q1 Hmode Hrun1 Hreq1 Hq1 Hlast1 Hle1 Hasc)
    as (Hr & Hlen & Hge & Hall).
  rewrite fmap_cons. cbn [frames]. rewrite Hframe.
  destruct (frames cfg s1 (Fin <$> stamps)) as [s2 outs] eqn:Hrest. cbn [fst snd] in *.
  split_and!; [exact Hr|cbn; now rewrite Hlen|exact Hge|].
  constructor; [now apply Qle_bool_iff|exact Hall].
Qed.

Lemma live_clock_never_stops_or_goes_back_witness :
  let run :=
    frames {| fps := Fin 30; clockMode := Live; loop := false; duration := Some (Fin 1) |}
      (start (stop (runningAt 2 0))) (Fin <$> [5000; 5016; 5500]%Q) in
  running run.1 = true /\ run.2 = [Fin 2; Fin (252 # 125); Fin (5 # 2)].
Proof.
  cbv zeta. split; [|reflexivity].
  refine (proj1 (live_clock_never_stops_or_goes_back
                   {| fps := Fin 30; clockMode := Live; loop := false;
                      duration := Some (Fin 1) |}
                   (stop (runningAt 2 0)) 2 5000 [5016; 5500]%Q eq_refl eq_refl eq_refl _)).
  cbn. split_and!; [discriminate|discriminate|exact I].
Defined.

End ClockLaws.

Module SchedulerLaws.
Import Runtime RuntimeFacts SchedulerSpec Samples.

(** *** The flags of the scene elements *)

Lemma scanScenes_other t scenes : forall act vs h,
  h ∉ sceneElement <$> scenes -> viewOf (scanScenes t scenes act vs).2 h = viewOf vs h.
Proof.
  induction scenes as [|scene rest IH]; intros act vs h Hnot; [reflexivity|].
  rewrite fmap_cons in Hnot. apply not_elem_of_cons in Hnot as [Hne Hrest].
  cbn [scanScenes]. destruct (sceneIsActive t scene (head rest));
    rewrite IH by exact Hrest; now apply viewOf_onElement_ne.
Qed.

Lemma scanScenes_view t scenes : forall act vs i scene,
  NoDup (sceneElement <$> scenes) -> scenes !! i = Some scene ->
  viewOf (scanScenes t scenes act vs).2 (sceneElement scene)
  = (if sceneIsActive t scene (scenes !! S i) then activateScene else deactivateScene)
      (viewOf vs (sceneElement scene)).
Proof.
  induction scenes as [|first rest IH]; intros act vs i scene Hnd Hi; [discriminate|].
  rewrite fmap_cons in Hnd. apply NoDup_cons in Hnd as [Hfirst Hnd].
  destruct i as [|i].
  - injection Hi as ->. cbn [scanScenes].
    change ((scene :: rest) !! 1%nat) with (rest !! 0%nat). rewrite <- head_lookup.
    destruct (sceneIsActive t scene (head rest));
      rewrite scanScenes_other by exact Hfirst; apply viewOf_onElement_eq.
  - cbn [scanScenes]. change ((first :: rest) !! S (S i)) with (rest !! S i).
    cbn in Hi.
    assert (Hne : sceneElement first <> sceneElement scene).
    { intros Heq. apply Hfirst. rewrite Heq. apply list_elem_of_fmap. exists scene.
      split; [reflexivity|]. eapply list_elem_of_lookup_2, Hi. }
    destruct (sceneIsActive t first (head rest));
      rewrite (IH _ _ i scene Hnd Hi); now rewrite viewOf_onElement_ne.
Qed.

Lemma applyTimed_flags t (timed : list TimedElement) : forall vs h,
  runtimeActive (viewOf (foldl (applyTimed t) vs timed) h) = runtimeActive (viewOf vs h)
  /\ runtimeHidden (viewOf (foldl (applyTimed t) vs timed) h) = runtimeHidden (viewOf vs h).
Proof.
  induction timed as [|item rest IH]; intros vs h; [now split|].
  cbn [foldl]. destruct (IH (applyTimed t vs item) h) as [-> ->].
  unfold applyTimed. destruct (decide (element item = h)) as [<-|Hne].
  - rewrite viewOf_onElement_eq. now destruct (isVisible t item).
  - now rewrite viewOf_onElement_ne.
Qed.

(** X9.  After a tick every scene element carries one of the two runtime flags
    and not the other: [data-runtime-active] when the scene is active at
    the time of the tick, [data-runtime-hidden] when it is not. *)
Theorem every_scene_is_flagged p s t i scene :
  NoDup (sceneElement <$> playerScenes p) ->
  playerScenes p !! i = Some scene ->
  let v := viewOf (views (handleTick p s t).1) (sceneElement scene) in
  let active := sceneIsActive t scene (playerScenes p !! S i) in
  runtimeActive v = active /\ runtimeHidden v = negb active.
Proof.
  intros Hnd Hi. cbv zeta.
  pose proof (scanScenes_view t (playerScenes p) None (views s) i scene Hnd Hi) as Hview.
  unfold handleTick.
  destruct (scanScenes t (playerScenes p) None (views s)) as [active views1].
  destruct (scanCues _ _ _ _) as [cues' evs]. cbn [fst snd views] in *.
  destruct (Str.truthy active).
  - destruct (applyTimed_flags t (default [] (active ≫= fun id => timedByScene p !! id))
                views1 (sceneElement scene)) as [-> ->].
    rewrite Hview. now destruct (sceneIsActive t scene _).
  - rewrite Hview. now destruct (sceneIsActive t scene _).
Qed.

Lemma every_scene_is_flagged_witness :
  let v := viewOf (views (handleTick twoScenes beforeFirstTick (Fin 5)).1) [0]%nat in
  runtimeActive v = false /\ runtimeHidden v = true.
Proof.
  refine (every_scene_is_flagged twoScenes beforeFirstTick (Fin 5) 0
            {| sceneId := "A"; sceneStart := Fin 0; sceneEnd := Some (Fin 4);
               sceneElement := [0]%nat |} _ eq_refl).
  apply (bool_decide_unpack _). vm_compute. exact I.
Defined.

(** *** The active scene *)

Lemma scanScenes_active t scenes : forall act vs,
  match (scanScenes t scenes act vs).1 with
  | Some id =>
      (exists i scene,
          scenes !! i = Some scene /\ sceneId scene = id
          /\ sceneIsActive t scene (scenes !! S i) = true
          /\ forall j later, (i < j)%nat -> scenes !! j = Some later ->
                             sceneIsActive t later (scenes !! S j) = false)
      \/ (act = Some id
          /\ forall j later, scenes !! j = Some later ->
                             sceneIsActive t later (scenes !! S j) = false)
  | None =>
      act = None
      /\ forall j later, scenes !! j = Some later ->
                         sceneIsActive t later (scenes !! S j) = false
  end.
Proof.
  induction scenes as [|first rest IH]; intros act vs.
  - cbn. destruct act; [right|]; (split; [reflexivity|intros j later Hj; discriminate Hj]).
  - cbn [scanScenes]. destruct (sceneIsActive t first (head rest)) eqn:Hfirst.
    + specialize (IH (Some (sceneId first)) (onElement activateScene (sceneElement first) vs)).
      destruct (scanScenes t rest _ _) as [[id|] views1]; cbn [fst] in *.
      * left. destruct IH as [(i & scene & Hi & Hid & Hact & Hlater)|[[= <-] Hnone]].
        -- exists (S i), scene. split_and!; try assumption.
           intros [|j] later Hlt Hj; [lia|]. apply (Hlater j later); [lia|exact Hj].
        -- exists 0%nat, first. split_and!; try reflexivity.
           ++ change ((first :: rest) !! 1%nat) with (rest !! 0%nat).
              now rewrite <- head_lookup.
           ++ intros [|j] later Hlt Hj; [lia|]. now apply (Hnone j later).
      * now destruct IH.
    + specialize (IH act (onElement deactivateScene (sceneElement first) vs)).
      assert (Hhead : sceneIsActive t first ((first :: rest) !! 1%nat) = false).
      { change ((first :: rest) !! 1%nat) with (rest !! 0%nat). now rewrite <- head_lookup. }
      destruct (scanScenes t rest _ _) as [[id|] views1]; cbn [fst] in *.
      * destruct IH as [(i & scene & Hi & Hid & Hact & Hlater)|[-> Hnone]].
        -- left. exists (S i), scene. split_and!; try assumption.
           intros [|j] later Hlt Hj; [lia|]. apply (Hlater j later); [lia|exact Hj].
        -- right. split; [reflexivity|].
           intros [|j] later Hj; [now injection Hj as <-|now apply (Hnone j later)].
      * destruct IH as [-> Hnone]. split; [reflexivity|].
        intros [|j] later Hj; [now injection Hj as <-|now apply (Hnone j later)].
Qed.

(** X10.  The scene that a tick reports as active is the last scene of the
    document that is active at that time, and none is reported only when no
    scene is active. *)
Theorem last_active_scene_wins p s t :
  match lastActiveSceneId (handleTick p s t).1 with
  | Some id =>
      exists i scene,
        playerScenes p !! i = Some scene /\ sceneId scene = id
        /\ sceneIsActive t scene (playerScenes p !! S i) = true
        /\ forall j later, (i < j)%nat -> playerScenes p !! j = Some later ->
                           sceneIsActive t later (playerScenes p !! S j) = false
  | None =>
      forall j later, playerScenes p !! j = Some later ->
                      sceneIsActive t later (playerScenes p !! S j) = false
  end.
Proof.
  rewrite handleTick_last. unfold activeSceneAt.
  pose proof (scanScenes_active t (playerScenes p) None (views s)) as H.
  destruct (scanScenes t (playerScenes p) None (views s)).1 as [id|].
  - destruct H as [H|[[=] _]]. exact H.
  - apply H.
Qed.

(** *** Cue events *)

Lemma scanCues_spec t frame cues : forall active,
  NoDup (cueId <$> cues) ->
  let r := scanCues t frame cues active in
  (forall id, id ∉ cueId <$> cues -> id ∈ r.1 <-> id ∈ active)
  /\ (forall cue, cue ∈ cues -> cueId cue ∈ r.1 <-> cueIsActive t cue = true)
  /\ (forall e, e ∈ r.2 <->
        exists cue, cue ∈ cues
          /\ ((e = CueStart (cueId cue) t frame
               /\ cueIsActive t cue = true /\ cueId cue ∉ active)
              \/ (e = CueEnd (cueId cue) t frame
                  /\ cueIsActive t cue = false /\ cueId cue ∈ active))).
Proof.
  induction cues as [|c rest IH]; intros active Hnd; cbv zeta.
  - cbn. split_and!; [done|intros cue Hc; now apply not_elem_of_nil in Hc|].
    intros e. split; [intros He; now apply not_elem_of_nil in He|].
    intros (cue & Hc & _). now apply not_elem_of_nil in Hc.
  - rewrite fmap_cons in Hnd. apply NoDup_cons in Hnd as [Hc Hnd].
    cbn [scanCues].
    assert (Hfresh : forall cue, cue ∈ rest -> cueId cue <> cueId c).
    { intros cue Hin Heq. apply Hc. rewrite <- Heq. apply list_elem_of_fmap. now exists cue. }
    destruct (cueIsActive t c) eqn:Hact, (bool_decide (cueId c ∈ active)) eqn:Hwas;
      cbn [andb negb];
      [apply bool_decide_eq_true in Hwas|apply bool_decide_eq_false in Hwas
      |apply bool_decide_eq_true in Hwas|apply bool_decide_eq_false in Hwas].
    + specialize (IH active Hnd). cbv zeta in IH. destruct IH as (Hother & Hcues & Hevs).
      split_and!.
      * intros id Hid. rewrite fmap_cons in Hid. apply not_elem_of_cons in Hid as [_ Hid].
        now apply Hother.
      * intros cue [->|Hin]%elem_of_cons; [|now apply Hcues].
        rewrite Hother by exact Hc. tauto.
      * intros e. rewrite Hevs. split.
        -- intros (cue & Hin & H). exists cue. split; [now right|exact H].
        -- intros (cue & [->|Hin]%elem_of_cons & H); [|now exists cue].
           destruct H as [(_ & _ & H)|(_ & H & _)]; [contradiction|congruence].
    + specialize (IH ({[cueId c]} ∪ active) Hnd). cbv zeta in IH.
      destruct (scanCues t frame rest _) as [a evs]. cbn [fst snd] in *.
      destruct IH as (Hother & Hcues & Hevs). split_and!.
      * intros id Hid. rewrite fmap_cons in Hid. apply not_elem_of_cons in Hid as [Hne Hid].
        rewrite (Hother id Hid). set_solver.
      * intros cue [->|Hin]%elem_of_cons; [|now apply Hcues].
        rewrite Hother by exact Hc. split; [done|]. intros _. set_solver.
      * intros e. rewrite elem_of_cons, Hevs. split.
        -- intros [->|(cue & Hin & H)].
           ++ exists c. split; [now left|]. left. now split_and!.
           ++ exists cue. split; [now right|].
              pose proof (Hfresh cue Hin) as Hne.
              destruct H as [(He & Ha & Hn)|(He & Ha & Hn)]; [left|right];
                split_and!; try assumption; set_solver.
        -- intros (cue & [->|Hin]%elem_of_cons & H).
           ++ destruct H as [(-> & _ & _)|(_ & H & _)]; [now left|congruence].
           ++ right. exists cue. split; [exact Hin|].
              pose proof (Hfresh cue Hin) as Hne.
              destruct H as [(He & Ha & Hn)|(He & Ha & Hn)]; [left|right];
                split_and!; try assumption; set_solver.
    + specialize (IH (active ∖ {[cueId c]}) Hnd). cbv zeta in IH.
      destruct (scanCues t frame rest _) as [a evs]. cbn [fst snd] in *.
      destruct IH as (Hother & Hcues & Hevs). split_and!.
      * intros id Hid. rewrite fmap_cons in Hid. apply not_elem_of_cons in Hid as [Hne Hid].
        rewrite (Hother id Hid). set_solver.
      * intros cue [->|Hin]%elem_of_cons; [|now apply Hcues].
        rewrite Hother by exact Hc. split; [set_solver|congruence].
      * intros e. rewrite elem_of_cons, Hevs. split.
        -- intros [->|(cue & Hin & H)].
           ++ exists c. split; [now left|]. right. now split_and!.
           ++ exists cue. split; [now right|].
              pose proof (Hfresh cue Hin) as Hne.
              destruct H as [(He & Ha & Hn)|(He & Ha & Hn)]; [left|right];
                split_and!; try assumption; set_solver.
        -- intros (cue & [->|Hin]%elem_of_cons & H).
           ++ destruct H as [(_ & H & _)|(-> & _ & _)]; [congruence|now left].
           ++ right. exists cue. split; [exact Hin|].
              pose proof (Hfresh cue Hin) as Hne.
              destruct H as [(He & Ha & Hn)|(He & Ha & Hn)]; [left|right];
                split_and!; try assumption; set_solver.
    + specialize (IH active Hnd). cbv zeta in IH. destruct IH as (Hother & Hcues & Hevs).
      split_and!.
      * intros id Hid. rewrite fmap_cons in Hid. apply not_elem_of_cons in Hid as [_ Hid].
        now apply Hother.
      * intros cue [->|Hin]%elem_of_cons; [|now apply Hcues].
        rewrite Hother by exact Hc. split; [contradiction|congruence].
      * intros e. rewrite Hevs. split.
        -- intros (cue & Hin & H). exists cue. split; [now right|exact H].
        -- intros (cue & [->|Hin]%elem_of_cons & H); [|now exists cue].
           destruct H as [(_ & H & _)|(_ & _ & H)]; [congruence|contradiction].
Qed.

Lemma handleTick_cues p s t :
  activeCues (handleTick p s t).1
  = (scanCues t (Num.floor (Num.mul t (playerFps p))) (playerCues p) (activeCues s)).1.
Proof.
  unfold handleTick. destruct (scanScenes _ _ _ _) as [active views1].
  now destruct (scanCues _ _ _ _).
Qed.

Lemma handleTick_cue_events p s t e :
  isCueEvent e = true ->
  e ∈ (handleTick p s t).2
  <-> e ∈ (scanCues t (Num.floor (Num.mul t (playerFps p))) (playerCues p) (activeCues s)).2.
Proof.
  intros He. unfold handleTick. destruct (scanScenes _ _ _ _) as [active views1].
  destruct (scanCues _ _ _ _) as [cues' evs]. cbn [fst snd].
  rewrite !elem_of_app, list_elem_of_singleton. unfold sceneEvents.
  split; [|tauto]. intros [->|[H|[H|H]]]; [discriminate|exact H| |].
  - destruct (bool_decide _); [now apply not_elem_of_nil in H|].
    apply elem_of_app in H as [H|H].
    + destruct (lastActiveSceneId s) as [a|]; [|now apply not_elem_of_nil in H].
      destruct (String.eqb a ""); [now apply not_elem_of_nil in H|].
      apply list_elem_of_singleton in H as ->. discriminate.
    + destruct active as [a|]; [|now apply not_elem_of_nil in H].
      destruct (String.eqb a ""); [now apply not_elem_of_nil in H|].
      apply list_elem_of_singleton in H as ->. discriminate.
  - destruct (onTimeUpdate p); [|now apply not_elem_of_nil in H].
    apply list_elem_of_singleton in H as ->. discriminate.
Qed.

(** X11.  With cue ids that are distinct, a tick leaves in [activeCues] exactly
    the cues that are active at its time; it fires [cue:start] for the cues
    that are active now and were not before the tick, [cue:end] for those
    that were and are no more, and no other cue event. *)
Theorem cue_events_track_activity p s t cue :
  NoDup (cueId <$> playerCues p) -> cue ∈ playerCues p ->
  let frame := Num.floor (Num.mul t (playerFps p)) in
  let s' := (handleTick p s t).1 in
  let events := (handleTick p s t).2 in
  (cueId cue ∈ activeCues s' <-> cueIsActive t cue = true)
  /\ (CueStart (cueId cue) t frame ∈ events
      <-> cueIsActive t cue = true /\ cueId cue ∉ activeCues s)
  /\ (CueEnd (cueId cue) t frame ∈ events
      <-> cueIsActive t cue = false /\ cueId cue ∈ activeCues s).
Proof.
  intros Hnd Hin. cbv zeta.
  destruct (scanCues_spec t (Num.floor (Num.mul t (playerFps p))) (playerCues p)
              (activeCues s) Hnd) as (_ & Hcues & Hevs).
  assert (Hid : forall other, other ∈ playerCues p -> cueId other = cueId cue -> other = cue).
  { intros other Hother Heq.
    apply list_elem_of_lookup in Hin as [i Hi]. apply list_elem_of_lookup in Hother as [j Hj].
    assert (i = j) as ->; [|congruence].
    eapply NoDup_lookup; [exact Hnd| |]; rewrite list_lookup_fmap.
    - now rewrite Hi.
    - rewrite Hj. cbn. now rewrite Heq. }
  rewrite handleTick_cues. split_and!.
  - now apply Hcues.
  - rewrite handleTick_cue_events by reflexivity. rewrite Hevs. split.
    + intros (other & Hother & [([= Heq] & Ha & Hn)|([=] & _)]).
      symmetry in Heq. apply Hid in Heq as ->; [now split|exact Hother].
    + intros [Ha Hn]. exists cue. split; [exact Hin|]. left. now split_and!.
  - rewrite handleTick_cue_events by reflexivity. rewrite Hevs. split.
    + intros (other & Hother & [([=] & _)|([= Heq] & Ha & Hn)]).
      symmetry in Heq. apply Hid in Heq as ->; [now split|exact Hother].
    + intros [Ha Hn]. exists cue. split; [exact Hin|]. right. now split_and!.
Qed.

Lemma cue_events_track_activity_witness :
  let cue := {| cueId := "c"; cueStart := Fin 1; cueEnd := Some (Fin 2);
                cueElement := [0; 1]%nat |} in
  (CueStart "c" (Fin (3 # 2)) (Fin 45) ∈ (handleTick withCue beforeFirstTick (Fin (3 # 2))).2
   <-> cueIsActive (Fin (3 # 2)) cue = true /\ "c" ∉ activeCues beforeFirstTick)
  /\ cueIsActive (Fin (3 # 2)) cue = true.
Proof.
  cbv zeta. split; [|reflexivity].
  refine (proj1 (proj2 (cue_events_track_activity withCue beforeFirstTick (Fin (3 # 2))
                          {| cueId := "c"; cueStart := Fin 1; cueEnd := Some (Fin 2);
                             cueElement := [0; 1]%nat |} _ _))).
  - apply NoDup_singleton.
  - apply list_elem_of_here.
Defined.

(** *** A tick that repeats the time of the tick before it *)

Lemma scanScenes_fst t scenes : forall act vs vs',
  (scanScenes t scenes act vs).1 = (scanScenes t scenes act vs').1.
Proof.
  induction scenes as [|scene rest IH]; intros act vs vs'; [reflexivity|].
  cbn [scanScenes]. destruct (sceneIsActive t scene (head rest)); apply IH.
Qed.

(** X12.  Events mark transitions only: when the cue ids are distinct, a tick
    at the time of the tick before it fires [timeline:tick] (and the time
    update) and no cue or scene event. *)
Theorem repeated_tick_fires_no_transition p s t :
  NoDup (cueId <$> playerCues p) ->
  (handleTick p (handleTick p s t).1 t).2
  = TimelineTick (Num.floor (Num.mul t (playerFps p))) t (playerFps p)
    :: (if onTimeUpdate p then [TimeUpdate t (default (Num.of_Z 0) (playerDuration p))] else []).
Proof.
  intros Hnd. set (s1 := (handleTick p s t).1).
  assert (Hscene : activeSceneAt p s1 t = lastActiveSceneId s1).
  { unfold s1. rewrite handleTick_last. unfold activeSceneAt. apply scanScenes_fst. }
  assert (Hcues : (scanCues t (Num.floor (Num.mul t (playerFps p))) (playerCues p)
                     (activeCues s1)).2 = []).
  { destruct (scanCues_spec t (Num.floor (Num.mul t (playerFps p))) (playerCues p)
                (activeCues s1) Hnd) as (_ & _ & Hevs).
    destruct (scanCues_spec t (Num.floor (Num.mul t (playerFps p))) (playerCues p)
                (activeCues s) Hnd) as (_ & Hfirst & _).
    apply elem_of_nil_inv. intros e He. apply Hevs in He as (cue & Hin & H).
    unfold s1 in H. rewrite handleTick_cues in H. specialize (Hfirst cue Hin).
    destruct H as [(_ & Ha & Hn)|(_ & Ha & Hn)]; [tauto|].
    apply Hfirst in Hn. congruence. }
  unfold activeSceneAt in Hscene. unfold handleTick at 1.
  destruct (scanScenes t (playerScenes p) None (views s1)) as [active views1].
  destruct (scanCues _ _ _ _) as [cues' evs]. cbn [fst snd] in *. subst evs active.
  unfold sceneEvents. now rewrite bool_decide_eq_true_2 by reflexivity.
Qed.

Lemma repeated_tick_fires_no_transition_witness :
  (handleTick withCue (handleTick withCue beforeFirstTick (Fin (3 # 2))).1 (Fin (3 # 2))).2
  = [TimelineTick (Fin 45) (Fin (3 # 2)) (Fin 30); TimeUpdate (Fin (3 # 2)) (Fin 6)].
Proof.
  apply (repeated_tick_fires_no_transition withCue beforeFirstTick (Fin (3 # 2))).
  apply NoDup_singleton.
Defined.

End SchedulerLaws.

Module LoaderLaws.
Import TimeExpr Xml ResolverSpec ResolverFacts StableFacts OrderFacts Samples.

(** *** [parseNumber] *)

Lemma numberPattern_backslash l : numberPattern l = true -> Str.backslash ∈ l.
Proof.
  assert (Hds : forall l r, backslashDs l = Some r -> Str.backslash ∈ l).
  { intros [|c l'] r H; [discriminate|]. cbn in H.
    destruct (Ascii.eqb_spec c Str.backslash) as [->|]; [left|discriminate]. }
  unfold numberPattern. destruct l as [|c r].
  - cbn. discriminate.
  - destruct (Ascii.eqb c "-" || Ascii.eqb c "+").
    + destruct (backslashDs r) eqn:Hr; [|discriminate]. intros _. right. eapply Hds, Hr.
    + destruct (backslashDs (c :: r)) eqn:Hr; [|discriminate]. intros _. eapply Hds, Hr.
Qed.

(** X13.  [parseNumber] gives a number only for a string that holds a backslash:
    a decimal numeral as authors write it is never read.  So the root
    attributes [fps], [width] and [height] give their fallbacks, [z] gives
    nothing, and an attribute that becomes a prop stays a string (or a
    boolean). *)
Theorem parseNumber_reads_no_plain_numeral value :
  Str.backslash ∉ Str.chars value ->
  parseNumber (Some value) = None
  /\ (forall (root : Node) name fallback,
        getAttr root name = Some value -> numberAttrOr root name fallback = fallback)
  /\ (forall el : Node, attrIf el "z" = Some value -> zAttr el = None)
  /\ (propValue value = PBool true \/ propValue value = PBool false
      \/ propValue value = PString value).
Proof.
  intros Hno.
  assert (Hnone : parseNumber (Some value) = None).
  { unfold parseNumber. destruct (String.eqb value ""); [reflexivity|].
    destruct (numberPattern (Str.chars value)) eqn:Hp; [|reflexivity].
    now apply numberPattern_backslash in Hp. }
  split_and!.
  - exact Hnone.
  - intros root name fallback Hattr. unfold numberAttrOr. rewrite Hattr.
    change (default "" (Some value)) with value. now rewrite Hnone.
  - intros el Hz. unfold zAttr. now rewrite Hz.
  - unfold propValue. destruct (String.eqb_spec value "true") as [->|_]; [now left|].
    destruct (String.eqb_spec value "false") as [->|_]; [right; now left|].
    rewrite Hnone. right; now right.
Qed.

Lemma parseNumber_reads_no_plain_numeral_witness :
  parseNumber (Some "25") = None
  /\ numberAttrOr fps25 "fps" (Num.of_Z 30) = Num.of_Z 30
  /\ propValue "25" = PString "25".
Proof.
  destruct (parseNumber_reads_no_plain_numeral "25") as (Hnone & Hattr & _ & Hprop).
  - apply (bool_decide_unpack _). vm_compute. exact I.
  - split_and!; [exact Hnone|now apply Hattr|].
    destruct Hprop as [H|[H|H]]; [discriminate H|discriminate H|exact H].
Defined.

(** *** A value that is resolved is resolved for good *)

(** X14.  A time expression that evaluates to a number, or throws an exception
    other than the unresolved-reference one, does the same in every context
    that knows at least the same scene and cue times: a later pass of the
    resolver never changes what an earlier one has computed. *)
Theorem resolved_value_is_final value ctx ctx' :
  ctxLe ctx ctx' -> notMissing (parseTimeValue value ctx) ->
  parseTimeValue value ctx' = parseTimeValue value ctx.
Proof. intros Hle Hnot. now apply parseTimeValue_stable. Qed.

Lemma resolved_value_is_final_witness :
  let known :=
    {| TimeExpr.fps := Fin 30;
       getSceneStart := fun id => if String.eqb id "b" then Some (Fin 4) else None;
       getSceneEnd := fun _ => None; getCueStart := fun _ => None;
       getPrevStart := None; getPrevEnd := None; getNextStart := None |} in
  parseTimeValue "1 + 500ms" known = Ok (Fin (3 # 2))
  /\ parseTimeValue "scene(b).start" (baseCtx (Fin 30))
     = Throw (MissingTimeReferenceError "scene(b).start")
  /\ parseTimeValue "scene(b).start" known = Ok (Fin 4).
Proof.
  cbv zeta. split; [|split; vm_compute; reflexivity].
  rewrite (resolved_value_is_final "1 + 500ms" (baseCtx (Fin 30))).
  - vm_compute. reflexivity.
  - repeat split; cbn; intros; discriminate.
  - vm_compute. intros what. discriminate.
Defined.

(** *** The scenes of a composition *)

Section Scenes.
Context {Json : Type}.
Variable JSON_parse : string -> option Json.
Variable spread : Json -> Json -> Json.
Variable fps : number.
Variable sceneElements : list Node.

Local Abbreviation State := (ResolverState (Json := Json)).
Local Abbreviation body := (sceneBody JSON_parse spread fps sceneElements).
Local Abbreviation pass := (resolvePass JSON_parse spread fps sceneElements).
Local Abbreviation loop := (resolveLoop JSON_parse spread fps sceneElements).

(** Every scene that has left [pending] is stored, under the id of its
    element. *)
Local Abbreviation stored := (fun st : State =>
  forall i el, sceneElements !! i = Some el -> i ∉ pending st ->
    exists data, scenes st !! i = Some data /\ attrIf el "id" = Some (sceneId data)).

Lemma pass_stored snapshot : forall (st : State) progressed st' progressed',
  stored st -> pass snapshot st progressed = Ok (st', progressed') -> stored st'.
Proof.
  induction snapshot as [|j rest IH]; intros st progressed st' progressed' Hst H;
    cbn [resolvePass] in H.
  - now injection H as <- _.
  - destruct (sceneElements !! j) as [elj|] eqn:Hj; [|discriminate].
    destruct (body st j elj) as [st1 [data|[what|msg]]] eqn:Hbody; [| |discriminate].
    + eapply IH; [|exact H]. intros i el Hi Hnot.
      apply (commit_pending _ _ _ _ _ _ _ _ _ _ Hbody) in Hnot.
      destruct (decide (i = j)) as [->|Hne].
      * exists data. cbn [commitScene scenes]. rewrite lookup_insert_eq. split; [reflexivity|].
        assert (el = elj) as -> by congruence. now apply body_regs in Hbody as (_ & _ & Hid).
      * destruct Hnot as [?|Hnot]; [contradiction|].
        destruct (Hst i el Hi Hnot) as (d & Hd & Hid). exists d.
        cbn [commitScene scenes]. rewrite lookup_insert_ne by congruence.
        apply sceneBody_frame in Hbody as [(Hsc & _) _]. now rewrite Hsc.
    + eapply IH; [|exact H]. intros i el Hi Hnot.
      apply sceneBody_frame in Hbody as [(Hsc & _ & _ & Hp & _) _].
      rewrite Hp in Hnot. rewrite Hsc. now apply Hst.
Qed.

Lemma loop_stored fuel : forall st st' : State,
  stored st -> loop fuel st = Some (Ok st') -> stored st' /\ pending st' = [].
Proof.
  induction fuel as [|fuel IH]; intros st st' Hst H; cbn [resolveLoop] in H.
  - destruct (pending st) eqn:Hp; [|discriminate]. injection H as <-.
    split; [now rewrite Hp|exact Hp].
  - destruct (pending st) as [|i0 p0] eqn:Hp; [injection H as <-; split; [now rewrite Hp|exact Hp]|].
    rewrite <- Hp in H, Hst.
    destruct (pass (pending st) st false) as [[st1 progressed]|err] eqn:Hpass; [|discriminate].
    destruct progressed; cbn [negb] in H; [|discriminate].
    destruct (_ <? _)%nat; [discriminate|].
    apply IH in H; [exact H|]. intros i el Hi Hnot. rewrite pending_addPass in Hnot.
    now apply (pass_stored _ _ _ _ _ Hst Hpass).
Qed.

Lemma scenesArray_ids (st : State) : forall n,
  (n <= length sceneElements)%nat ->
  (forall i el, sceneElements !! i = Some el ->
     exists data, scenes st !! i = Some data /\ attrIf el "id" = Some (sceneId data)) ->
  Some <$> (sceneId <$> scenesArray st n) = (fun el => attrIf el "id") <$> take n sceneElements.
Proof.
  intros n Hn Hall. unfold scenesArray. induction n as [|n IH]; [reflexivity|].
  rewrite seq_S, omap_app, !fmap_app, IH by lia.
  destruct (lookup_lt_is_Some_2 sceneElements n) as [el Hel]; [lia|].
  rewrite (take_S_r _ _ _ Hel), fmap_app. f_equal.
  destruct (Hall n el Hel) as (data & Hd & Hid). cbn. rewrite Hd. cbn. now rewrite Hid.
Qed.

End Scenes.

(** X15.  A composition that is loaded holds one scene for every scene element
    of the root, in document order and under the id of its element,
    whatever the order in which the passes have resolved them. *)
Theorem loaded_scenes_in_document_order {Json : Type} (JSON_parse : string -> option Json)
    (spread : Json -> Json -> Json) root c :
  loadVideoFileFromXml JSON_parse spread root = Ok c ->
  Some <$> (sceneId <$> compositionScenes c)
  = (fun el => attrIf el "id") <$> sceneElementsOf root
  /\ compositionScenes c <> [].
Proof.
  unfold loadVideoFileFromXml.
  destruct (negb _); [discriminate|].
  destruct (attrIf root "id") as [id|]; [|discriminate].
  destruct (timeAttr root "duration" _) as [dur|]; [|discriminate].
  destruct (timeAttr root "poster" _) as [poster|]; [|discriminate]. cbn.
  destruct (resolveScenes _ _ _ _) as [st|] eqn:Hres; [|discriminate]. cbn.
  destruct (parseVoiceover _ _ _) as [vo|]; [|discriminate]. cbn.
  destruct (sceneElementsOf root) as [|el0 els] eqn:Hels; [discriminate|].
  intros [= <-]. cbn [compositionScenes]. rewrite <- Hels in *.
  unfold resolveScenes in Hres.
  destruct (resolveLoop _ _ _ _ _ _) as [[st'|err]|] eqn:Hloop; try discriminate.
  injection Hres as ->.
  apply loop_stored in Hloop as [Hstored Hp].
  2:{ intros i el Hi Hnot. exfalso. apply Hnot. cbn. apply elem_of_seq.
      apply lookup_lt_Some in Hi. lia. }
  assert (Hids : Some <$> (sceneId <$> scenesArray st (length (sceneElementsOf root)))
                 = (fun el => attrIf el "id") <$> sceneElementsOf root).
  { rewrite (scenesArray_ids (sceneElementsOf root) st (length (sceneElementsOf root)));
      [now rewrite firstn_all|lia|].
    intros i el Hi. apply (Hstored i el Hi). rewrite Hp. apply not_elem_of_nil. }
  change (S (length els)) with (length (el0 :: els)). rewrite <- Hels.
  split; [exact Hids|].
  intros Hnil. rewrite Hnil, Hels in Hids. discriminate Hids.
Qed.

Lemma loaded_scenes_in_document_order_witness :
  exists c,
    loadVideoFileFromXml noJson noSpread referenceBeforeCue = Ok c
    /\ Some <$> (sceneId <$> compositionScenes c) = [Some "a"; Some "b"].
Proof.
  destruct (loadVideoFileFromXml noJson noSpread referenceBeforeCue) as [c|e] eqn:H;
    [|vm_compute in H; discriminate H].
  exists c. split; [reflexivity|].
  exact (proj1 (loaded_scenes_in_document_order noJson noSpread referenceBeforeCue c H)).
Defined.

End LoaderLaws.

Module DurationLaws.
Import Runtime Samples.

(** *** [parseTimeSeconds] *)

Lemma span_parts p l : l = (Str.span p l).1 ++ (Str.span p l).2.
Proof.
  induction l as [|c r IH]; [reflexivity|]. cbn [Str.span].
  destruct (p c); [|reflexivity]. destruct (Str.span p r) as [a b]. cbn in *. now f_equal.
Qed.

Lemma trimStart_subset l c : c ∈ Str.trimStart l -> c ∈ l.
Proof.
  unfold Str.trimStart. intros H. rewrite (span_parts Str.isSpace l). apply elem_of_app. now right.
Qed.

Lemma trimChars_subset l c : c ∈ Str.trimChars l -> c ∈ l.
Proof.
  unfold Str.trimChars. intros H. apply list_elem_of_In, in_rev, list_elem_of_In in H.
  apply trimStart_subset, list_elem_of_In, in_rev, list_elem_of_In in H.
  now apply trimStart_subset.
Qed.

Lemma timePattern_backslash suffix value g :
  timePattern suffix value = Some g -> Str.backslash ∈ value.
Proof.
  unfold timePattern. rewrite (span_parts Str.isDigit value) at 2.
  destruct (Str.span Str.isDigit value) as [pre r]. cbn [fst snd].
  destruct r as [|c r']; [discriminate|].
  destruct (Ascii.eqb_spec c Str.backslash) as [->|]; [|discriminate].
  intros _. apply elem_of_app. right. left.
Qed.

(** X16.  For a value that holds no backslash [parseTimeSeconds] applies no unit:
    the result is what [parseFloat] reads at the start of the trimmed
    value, whatever the suffix and whatever the frame rate. *)
Theorem parseTimeSeconds_applies_no_unit raw fps :
  Str.backslash ∉ Str.chars raw ->
  parseTimeSeconds (Some raw) fps
  = (let value := Str.trimChars (Str.chars raw) in
     if bool_decide (value = []) then None
     else if Num.isFinite (Str.parseFloatChars value) then Some (Str.parseFloatChars value)
          else None).
Proof.
  intros Hno. cbv zeta. unfold parseTimeSeconds.
  assert (Hpat : forall suffix, timePattern suffix (Str.trimChars (Str.chars raw)) = None).
  { intros suffix. destruct (timePattern suffix _) as [g|] eqn:Hg; [|reflexivity].
    apply timePattern_backslash, trimChars_subset in Hg. contradiction. }
  destruct (Str.trimChars (Str.chars raw)) as [|c r] eqn:Hv; [reflexivity|].
  rewrite !Hpat. rewrite bool_decide_eq_false_2 by discriminate. reflexivity.
Qed.

Lemma parseTimeSeconds_applies_no_unit_witness :
  parseTimeSeconds (Some "500ms") (Fin 30) = Some (Fin 500)
  /\ parseTimeSeconds (Some "24f") (Fin 30) = Some (Fin 24).
Proof.
  split.
  - rewrite (parseTimeSeconds_applies_no_unit "500ms" (Fin 30)); [reflexivity|].
    apply (bool_decide_unpack _). vm_compute. exact I.
  - rewrite (parseTimeSeconds_applies_no_unit "24f" (Fin 30)); [reflexivity|].
    apply (bool_decide_unpack _). vm_compute. exact I.
Defined.

(** *** [collectTimeScale] *)

(** *** [elementDuration] *)

Lemma sequence_total fps nodes ds :
  Forall2 (fun child d =>
             Dom.isElement child = true
             /\ timeSecondsAttr child "start" fps = None
             /\ elementDuration child fps = Some (Fin d) /\ (0 <= d)%Q) nodes ds ->
  forall c m, (m == c)%Q ->
  exists q,
    (fix sequence (nodes : list Node) (cursor maxEnd : number) : option number :=
       match nodes with
       | [] => Some maxEnd
       | child :: rest =>
           if negb (Dom.isElement child) then sequence rest cursor maxEnd
           else
             let localStart := default cursor (timeSecondsAttr child "start" fps) in
             match elementDuration child fps with
             | None => None
             | Some childDur =>
                 let localEnd := Num.add localStart childDur in
                 sequence rest localEnd (if Num.gt localEnd maxEnd then localEnd else maxEnd)
             end
       end) nodes (Fin c) (Fin m) = Some (Fin q)
    /\ (q == c + fold_right Qplus 0 ds)%Q.
Proof.
  induction 1 as [|child d rest ds' (Hel & Hstart & Hdur & Hd) _ IH]; intros c m Hm.
  - exists m. split; [reflexivity|]. cbn. rewrite Hm. ring.
  - rewrite Hel, Hstart, Hdur. cbn [negb default Num.add Num.lift2].
    set (e := Qred (c + d)).
    assert (He : (e == c + d)%Q) by apply Qred_correct.
    change (Num.gt (Fin e) (Fin m)) with (negb (Qle_bool e m)).
    destruct (Qle_bool e m) eqn:Hle; cbn [negb].
    + destruct (IH e m) as (q & Hq & Hsum).
      { apply Qle_bool_iff in Hle. apply Qle_antisym; [|exact Hle].
        rewrite Hm, He. rewrite <- (Qplus_0_r c) at 1. now apply Qplus_le_r. }
      exists q. split; [exact Hq|]. rewrite Hsum, He. cbn. ring.
    + destruct (IH e e) as (q & Hq & Hsum); [reflexivity|].
      exists q. split; [exact Hq|]. rewrite Hsum, He. cbn. ring.
Qed.

(** X18.  A [sequence] without [duration] and [end] attribute, whose children are
    elements without [start] that last [d1], ..., [dn] seconds (none of
    them negative), lasts [d1 + ... + dn] seconds. *)
Theorem sequence_lasts_as_its_children tag attrs nodes fps ds :
  Str.toLowerCase tag = "sequence" ->
  timeSecondsAttr (Element tag attrs nodes) "duration" fps = None ->
  timeSecondsAttr (Element tag attrs nodes) "end" fps = None ->
  nodes <> [] ->
  Forall2 (fun child d =>
             Dom.isElement child = true
             /\ timeSecondsAttr child "start" fps = None
             /\ elementDuration child fps = Some (Fin d) /\ (0 <= d)%Q) nodes ds ->
  exists q,
    elementDuration (Element tag attrs nodes) fps = Some (Fin q)
    /\ (q == fold_right Qplus 0 ds)%Q.
Proof.
  intros Htag Hduration Hend Hne Hchildren.
  destruct (sequence_total fps nodes ds Hchildren 0 0) as (q & Hq & Hsum); [reflexivity|].
  exists q. split; [|rewrite Hsum; ring].
  cbn [elementDuration]. rewrite Hduration, Hend.
  rewrite bool_decide_eq_false_2.
  - unfold lowerTag. cbn [Dom.tagName]. rewrite Htag. cbn [String.eqb]. exact Hq.
  - unfold Dom.children. cbn [Dom.childNodes]. destruct Hchildren as [|child d rest ds' (Hel & _) _];
      [contradiction|].
    rewrite filter_cons, Hel. now destruct (decide (true = true)).
Qed.

Lemma sequence_lasts_as_its_children_witness :
  exists q,
    elementDuration
      (Element "sequence" []
         [Element "title" [("duration", "2")] []; Element "title" [("duration", "1.5")] []])
      (Fin 30) = Some (Fin q)
    /\ (q == 2 + ((3 # 2) + 0))%Q.
Proof.
  apply (sequence_lasts_as_its_children "sequence" []
           [Element "title" [("duration", "2")] []; Element "title" [("duration", "1.5")] []]
           (Fin 30) [2; 3 # 2]%Q); try reflexivity; [discriminate|].
  repeat constructor; discriminate.
Defined.

End DurationLaws.

Module ArithmeticLaws.
Import TimeExpr ArithmeticSpec.

Lemma parseUnary_literal fuel x ts :
  parseUnary (S (S fuel)) (literalToken x :: ts) = Some (Ok (literalAst x, ts)).
Proof. reflexivity. Qed.

Lemma parseTermLoop_step fuel node d ts :
  parseTermLoop (S fuel) node (TOperator (mulOp d) :: ts)
  = match parseUnary fuel ts with
    | Some (Ok (rhs, ts')) => parseTermLoop fuel (ABinary (mulOp d) node rhs) ts'
    | r => r
    end.
Proof. now destruct d. Qed.

Lemma parseTermLoop_stop fuel node rest :
  startsTerm rest = false -> parseTermLoop (S fuel) node rest = Some (Ok (node, rest)).
Proof. destruct rest as [|[| |[]| | |] rest]; try reflexivity; discriminate. Qed.

Lemma parseTermLoop_factors fs : forall fuel node rest,
  startsTerm rest = false ->
  (length fs + 2 <= fuel)%nat ->
  parseTermLoop fuel node (factorTokens fs ++ rest)
  = Some (Ok (foldl (fun acc f => ABinary (mulOp f.1) acc (literalAst f.2)) node fs, rest)).
Proof.
  induction fs as [|[d y] fs IH]; intros fuel node rest Hrest Hfuel.
  - destruct fuel as [|fuel]; [cbn in Hfuel; lia|]. now apply parseTermLoop_stop.
  - cbn [length] in Hfuel.
    destruct fuel as [|[|[|fuel]]]; [lia|lia|lia|].
    change (factorTokens ((d, y) :: fs) ++ rest)
      with (TOperator (mulOp d) :: literalToken y :: (factorTokens fs ++ rest)).
    rewrite parseTermLoop_step, parseUnary_literal.
    rewrite IH by (assumption || lia). reflexivity.
Qed.

Lemma parseTerm_product p fuel rest :
  startsTerm rest = false ->
  (length p.2 + 3 <= fuel)%nat ->
  parseTerm fuel (productTokens p ++ rest) = Some (Ok (productAst p, rest)).
Proof.
  destruct p as [x fs]. cbn [fst snd]. intros Hrest Hfuel.
  destruct fuel as [|[|[|fuel]]]; [lia|lia|lia|].
  change (productTokens (x, fs) ++ rest) with (literalToken x :: (factorTokens fs ++ rest)).
  change (parseTerm (S (S (S fuel))) (literalToken x :: (factorTokens fs ++ rest)))
    with (match parseUnary (S (S fuel)) (literalToken x :: (factorTokens fs ++ rest)) with
          | Some (Ok (node, ts')) => parseTermLoop (S (S fuel)) node ts'
          | r => r
          end).
  rewrite parseUnary_literal. now apply parseTermLoop_factors; [|lia].
Qed.

Lemma productTokens_length p : length (productTokens p) = S (2 * length p.2).
Proof.
  destruct p as [x fs]. cbn [productTokens fst snd length]. f_equal.
  induction fs as [|f fs IH]; [reflexivity|]. cbn [factorTokens flat_map app length] in *.
  unfold factorTokens in IH. rewrite IH. lia.
Qed.

Lemma parseExpressionLoop_step fuel node m ts :
  parseExpressionLoop (S fuel) node (TOperator (addOp m) :: ts)
  = match parseTerm fuel ts with
    | Some (Ok (rhs, ts')) => parseExpressionLoop fuel (ABinary (addOp m) node rhs) ts'
    | r => r
    end.
Proof. now destruct m. Qed.

Lemma parseExpressionLoop_terms ps : forall fuel node,
  (length (flat_map (fun t => TOperator (addOp t.1) :: productTokens t.2) ps) + 4 <= fuel)%nat ->
  parseExpressionLoop fuel node
    (flat_map (fun t => TOperator (addOp t.1) :: productTokens t.2) ps)
  = Some (Ok (foldl (fun acc t => ABinary (addOp t.1) acc (productAst t.2)) node ps, [])).
Proof.
  induction ps as [|[m q] ps IH]; intros fuel node Hfuel.
  - destruct fuel as [|fuel]; [cbn in Hfuel; lia|]. reflexivity.
  - cbn [flat_map fst snd] in *. rewrite length_app in Hfuel. cbn [length] in Hfuel.
    rewrite productTokens_length in Hfuel.
    destruct fuel as [|fuel]; [lia|].
    change ((TOperator (addOp m) :: productTokens q) ++ ?r)
      with (TOperator (addOp m) :: (productTokens q ++ r)).
    rewrite parseExpressionLoop_step, parseTerm_product.
    + rewrite IH by lia. reflexivity.
    + destruct ps as [|[m' q'] ps]; [reflexivity|]. cbn. now destruct m'.
    + lia.
Qed.

Lemma parseTokens_sum (s : Sum) :
  parseTokens (sumTokens s) = Some (Ok (sumAst s, [])).
Proof.
  destruct s as [p ps]. unfold parseTokens, parseFuel, sumTokens, sumAst. cbn [fst snd].
  set (tail := flat_map (fun t => TOperator (addOp t.1) :: productTokens t.2) ps).
  assert (Hlen : length (productTokens p ++ tail) = (S (2 * length p.2) + length tail)%nat)
    by now rewrite length_app, productTokens_length.
  rewrite Hlen.
  assert (Hparse : parseExpression (6 * (S (2 * length p.2) + length tail) + 6)
                     (productTokens p ++ tail)
                   = Some (Ok (foldl (fun acc t => ABinary (addOp t.1) acc (productAst t.2))
                                 (productAst p) ps, []))).
  { replace (6 * (S (2 * length p.2) + length tail) + 6)%nat
      with (S (6 * (S (2 * length p.2) + length tail) + 5)) by lia.
    cbn [parseExpression]. rewrite parseTerm_product.
    - apply parseExpressionLoop_terms. fold tail. lia.
    - unfold tail. destruct ps as [|[m' q'] ps]; [reflexivity|]. cbn. now destruct m'.
    - lia. }
  now rewrite Hparse.
Qed.

(** X19.  Number literals joined by the four operators are read with the usual
    rules: [*] and [/] bind tighter than [+] and [-], and operators of the
    same rank group from the left, so [10 - 3 - 2] is [(10 - 3) - 2] and
    [1 + 2 * 3] is [1 + (2 * 3)]. *)
Theorem arithmetic_precedence_and_grouping input (s : Sum) :
  tokenizeTime input = Ok (sumTokens s) ->
  parseTimeExpression input = Ok (sumAst s).
Proof.
  intros Htokens. unfold parseTimeExpression. rewrite Htokens.
  unfold mbind, result_bind. now rewrite parseTokens_sum.
Qed.

Lemma arithmetic_precedence_and_grouping_witness :
  parseTimeExpression "10 - 3 - 2 * 4"
  = Ok (ABinary Minus
          (ABinary Minus (ANumber (Fin 10) None) (ANumber (Fin 3) None))
          (ABinary Times (ANumber (Fin 2) None) (ANumber (Fin 4) None))).
Proof.
  apply (arithmetic_precedence_and_grouping "10 - 3 - 2 * 4"
           ((Fin 10, None), [],
            [(true, ((Fin 3, None), [])); (true, ((Fin 2, None), [(false, (Fin 4, None))]))])).
  reflexivity.
Defined.

End ArithmeticLaws.

Module NamingLaws.
Import TimeExpr Xml Samples.

Lemma chars_app a b : Str.chars (a +:+ b) = Str.chars a ++ Str.chars b.
Proof.
  unfold Str.chars. induction a as [|c a IH]; [reflexivity|].
  change (String c a +:+ b) with (String c (a +:+ b)). cbn. f_equal. exact IH.
Qed.

Lemma of_chars_app l1 l2 : Str.of_chars (l1 ++ l2) = Str.of_chars l1 +:+ Str.of_chars l2.
Proof.
  unfold Str.of_chars. induction l1 as [|c l1 IH]; [reflexivity|].
  cbn [app string_of_list_ascii]. rewrite IH. reflexivity.
Qed.

Lemma chars_of_chars l : Str.chars (Str.of_chars l) = l.
Proof. apply list_ascii_of_string_of_list_ascii. Qed.

Lemma isLower_range d :
  Str.isLower d = true -> (97 <= nat_of_ascii d <= 122)%nat.
Proof.
  unfold Str.isLower, Str.between. intros H.
  apply andb_true_iff in H as [Hlo Hhi]. apply Nat.leb_le in Hlo, Hhi.
  change (nat_of_ascii "a") with 97%nat in Hlo.
  change (nat_of_ascii "z") with 122%nat in Hhi. lia.
Qed.

Lemma upper_not_lower d : Str.isLower d = true -> Str.isLower (Str.toUpperChar d) = false.
Proof.
  intros H. unfold Str.toUpperChar. rewrite H. apply isLower_range in H.
  unfold Str.isLower, Str.between. rewrite nat_ascii_embedding by lia.
  change (nat_of_ascii "a") with 97%nat.
  apply andb_false_iff. left. apply Nat.leb_gt. lia.
Qed.

Lemma upper_not_dash c : c <> "-"%char -> Str.toUpperChar c <> "-"%char.
Proof.
  intros Hc. unfold Str.toUpperChar. destruct (Str.isLower c) eqn:H; [|exact Hc].
  apply isLower_range in H.
  intros Heq. apply (f_equal nat_of_ascii) in Heq. rewrite nat_ascii_embedding in Heq by lia.
  change (nat_of_ascii "-") with 45%nat in Heq. lia.
Qed.

(** *** [toPascalCase] *)

Lemma toPascalChars_app a b : forall start,
  toPascalChars (a ++ "-"%char :: b) start = toPascalChars a start ++ toPascalChars b true.
Proof.
  induction a as [|c a IH]; intros start; [reflexivity|].
  cbn [app toPascalChars]. destruct (Ascii.eqb c "-"); [apply IH|].
  cbn [app]. now rewrite IH.
Qed.

Lemma toPascalChars_no_dash l : forall start, "-"%char ∉ toPascalChars l start.
Proof.
  induction l as [|c l IH]; intros start; [apply not_elem_of_nil|].
  cbn [toPascalChars]. destruct (Ascii.eqb_spec c "-") as [->|Hc]; [apply IH|].
  apply not_elem_of_cons. split; [|apply IH].
  destruct start; [|congruence]. intros Heq. symmetry in Heq. now apply upper_not_dash in Heq.
Qed.

(** X20.  The dashes of a tag name separate its parts and leave no trace: the
    type of [a-b] is the type of [a] followed by the type of [b], and no
    type holds a dash. *)
Theorem toPascalCase_joins_parts a b :
  toPascalCase (a +:+ "-" +:+ b) = toPascalCase a +:+ toPascalCase b
  /\ "-"%char ∉ Str.chars (toPascalCase a).
Proof.
  unfold toPascalCase. split.
  - rewrite chars_app. change (Str.chars ("-" +:+ b)) with ("-"%char :: Str.chars b).
    now rewrite toPascalChars_app, of_chars_app.
  - rewrite chars_of_chars. apply toPascalChars_no_dash.
Qed.

(** *** [toCamelCase] *)

Lemma toCamelChars_head c r :
  exists h t, toCamelChars (c :: r) = h :: t
              /\ (h = c \/ (Str.isLower h = false /\ h <> "-"%char)).
Proof.
  destruct r as [|d r']; [exists c, []; now split; [|left]|].
  cbn [toCamelChars]. destruct (Ascii.eqb c "-" && Str.isLower d) eqn:Hm.
  - apply andb_true_iff in Hm as [_ Hd]. eexists. eexists. split; [reflexivity|]. right.
    split; [now apply upper_not_lower|]. apply upper_not_dash. intros ->. discriminate.
  - eexists. eexists. split; [reflexivity|]. now left.
Qed.

Lemma toCamelChars_fixed n : forall l,
  (length l <= n)%nat -> toCamelChars (toCamelChars l) = toCamelChars l.
Proof.
  induction n as [|n IH]; intros l Hlen.
  - destruct l; [reflexivity|cbn in Hlen; lia].
  - destruct l as [|c [|d r']]; [reflexivity|reflexivity|].
    cbn [length] in Hlen.
    change (toCamelChars (c :: d :: r'))
      with (if Ascii.eqb c "-" && Str.isLower d
            then Str.toUpperChar d :: toCamelChars r'
            else c :: toCamelChars (d :: r')).
    destruct (Ascii.eqb c "-" && Str.isLower d) eqn:Hm.
    + apply andb_true_iff in Hm as [_ Hd].
      assert (Hrest : toCamelChars (toCamelChars r') = toCamelChars r') by (apply IH; lia).
      destruct (toCamelChars r') as [|x X] eqn:HX; [reflexivity|].
      change (toCamelChars (Str.toUpperChar d :: x :: X))
        with (if Ascii.eqb (Str.toUpperChar d) "-" && Str.isLower x
              then Str.toUpperChar x :: toCamelChars X
              else Str.toUpperChar d :: toCamelChars (x :: X)).
      destruct (Ascii.eqb_spec (Str.toUpperChar d) "-") as [Heq|_].
      * exfalso. revert Heq. apply upper_not_dash. intros ->. discriminate.
      * cbn [andb]. now rewrite Hrest.
    + assert (Hrest : toCamelChars (toCamelChars (d :: r')) = toCamelChars (d :: r'))
        by (apply IH; cbn [length]; lia).
      destruct (toCamelChars_head d r') as (y & Y & HY & Hy).
      rewrite HY in *.
      change (toCamelChars (c :: y :: Y))
        with (if Ascii.eqb c "-" && Str.isLower y
              then Str.toUpperChar y :: toCamelChars Y
              else c :: toCamelChars (y :: Y)).
      assert (Hno : Ascii.eqb c "-" && Str.isLower y = false).
      { destruct (Ascii.eqb c "-") eqn:Hc; [|reflexivity]. cbn [andb] in *.
        destruct Hy as [->|[Hy _]]; assumption. }
      now rewrite Hno, Hrest.
Qed.

(** X21.  [toCamelCase] leaves a name that it has produced as it is: applied
    twice it gives what it gives applied once. *)
Theorem toCamelCase_idempotent value : toCamelCase (toCamelCase value) = toCamelCase value.
Proof.
  unfold toCamelCase. rewrite chars_of_chars. f_equal.
  now apply (toCamelChars_fixed (length (Str.chars value))).
Qed.

End NamingLaws.

Module LayoutLaws.
Import TimeExpr Xml LayoutSpec Samples.

Section Layout.
Context {Json : Type}.
Variable JSON_parse : string -> option Json.
Variable spread : Json -> Json -> Json.
Variable ctx : TimeEvalContext.

Local Abbreviation Component := (Xml.Component (Json := Json)).

Lemma bind_Ok {A B} (m : result A) (f : A -> result B) b :
  m ≫= f = Ok b -> exists a, m = Ok a /\ f a = Ok b.
Proof. destruct m as [a|e]; [intros H; now exists a|discriminate]. Qed.

Lemma backToBack_app start (a b : list Component) middle finish :
  backToBack start a middle -> backToBack middle b finish -> backToBack start (a ++ b) finish.
Proof.
  revert start. induction a as [|c a IH]; intros start Ha Hb.
  - cbn in Ha. subst middle. exact Hb.
  - destruct Ha as (e & Hc & Ha). exists e. split; [exact Hc|]. now apply IH.
Qed.

Lemma parseComponentElement_override el idx t c :
  parseComponentElement JSON_parse el ctx idx (Some t) = Ok c ->
  compTiming c = Some t
  /\ compId c = default (Dom.tagName el +:+ "-" +:+ pretty idx) (getAttr el "id")
  /\ compType c = toPascalCase (Dom.tagName el).
Proof.
  unfold parseComponentElement. intros H.
  apply bind_Ok in H as (props & _ & H). cbn in H.
  apply bind_Ok in H as (styles & _ & H).
  apply bind_Ok in H as (markup & _ & H).
  injection H as <-. now cbn.
Qed.

Lemma sequence_chain el : forall idx start styles markup r,
  sequenceOnly el = true ->
  parseContainerChildren JSON_parse spread el ctx idx start Sequence styles markup = Ok r ->
  exists finish, crMaxEnd r = Some finish /\ backToBack start (crComponents r) finish.
Proof.
  induction el as [d|t a cs IH] using RuntimeFacts.Node_forall;
    intros idx start styles markup r Hseq Hr; [discriminate|].
  cbn [parseContainerChildren] in Hr.
  apply bind_Ok in Hr as (containerStyles & _ & Hr).
  apply bind_Ok in Hr as (containerMarkup & _ & Hr).
  cbn [sequenceOnly] in Hseq.
  match type of Hr with
  | ?f _ _ _ _ _ = _ =>
      assert (Hloop : forall components componentIndex cursor maxEnd,
                 f cs components componentIndex cursor maxEnd = Ok r ->
                 backToBack start components cursor ->
                 exists finish, crMaxEnd r = Some finish
                                /\ backToBack start (crComponents r) finish);
      [|apply (Hloop _ _ _ _ Hr); reflexivity]
  end.
  clear Hr. revert Hseq.
  induction IH as [|child rest Hchild _ IHrest]; intros Hseq components componentIndex cursor maxEnd Hr Hchain.
  - injection Hr as <-. now exists cursor.
  - cbn [forallb] in Hseq. apply andb_true_iff in Hseq as [Hc Hseq].
    specialize (IHrest Hseq).
    cbn fix beta iota in Hr.
    destruct (negb (Dom.isElement child) || inList (Dom.tagName child) skippedTags) eqn:Hskip.
    { now apply IHrest in Hr. }
    cbn [orb] in Hc.
    destruct (isContainerTag (Dom.tagName child)) as [[|]|] eqn:Htag; [| discriminate |].
    + apply bind_Ok in Hr as (childTiming & _ & Hr).
      apply bind_Ok in Hr as (nested & Hnested & Hr).
      apply Hchild in Hnested as (finish & Hmax & Hn); [|exact Hc].
      apply IHrest in Hr; [exact Hr|].
      rewrite Hmax. cbn [default]. now apply backToBack_app with cursor.
    + apply bool_decide_eq_true in Hc.
      assert (Hs : timeAttr child "start" ctx = Ok None) by (unfold timeAttr; now rewrite Hc).
      rewrite Hs in Hr.
      apply bind_Ok in Hr as (startOffset & [= <-] & Hr).
      apply bind_Ok in Hr as (endOffset & _ & Hr).
      apply bind_Ok in Hr as (durationValue & _ & Hr).
      apply bind_Ok in Hr as (parsed & Hparsed & Hr).
      apply parseComponentElement_override in Hparsed as (Htiming & _ & _).
      cbn [default] in *.
      apply IHrest in Hr; [exact Hr|].
      apply backToBack_app with cursor; [exact Hchain|].
      rewrite Htiming.
      destruct durationValue as [dv|], endOffset as [e|]; cbn [default];
        (eexists; split; [reflexivity|reflexivity]).
Qed.

Lemma container_index el : forall idx start flow styles markup r,
  parseContainerChildren JSON_parse spread el ctx idx start flow styles markup = Ok r ->
  crComponentIndex r = (idx + length (crComponents r))%nat
  /\ (fun c : Component => (compId c, compType c)) <$> crComponents r
     = imap (fun k => componentName (idx + k)) (componentElements el).
Proof.
  induction el as [d|t a cs IH] using RuntimeFacts.Node_forall;
    intros idx start flow styles markup r Hr.
  { cbn [parseContainerChildren] in Hr.
    apply bind_Ok in Hr as (containerStyles & _ & Hr).
    apply bind_Ok in Hr as (containerMarkup & _ & Hr).
    injection Hr as <-. cbn. split; [lia|reflexivity]. }
  cbn [parseContainerChildren] in Hr.
  apply bind_Ok in Hr as (containerStyles & _ & Hr).
  apply bind_Ok in Hr as (containerMarkup & _ & Hr).
  cbn [componentElements].
  set (each := fun child : Node =>
         if negb (Dom.isElement child) || inList (Dom.tagName child) skippedTags
         then []
         else match isContainerTag (Dom.tagName child) with
              | Some _ => componentElements child
              | None => [child]
              end).
  set (good := fun (pre : list Node) (components : list Component) (componentIndex : nat) =>
         componentIndex = (idx + length components)%nat
         /\ (fun c : Component => (compId c, compType c)) <$> components
            = imap (fun k => componentName (idx + k)) pre).
  assert (Hgrow : forall pre components more (elements : list Node),
             good pre components (idx + length components)%nat ->
             (fun c : Component => (compId c, compType c)) <$> more
             = imap (fun k => componentName (idx + length components + k)) elements ->
             good (pre ++ elements) (components ++ more)
               (idx + length components + length more)%nat).
  { intros pre components more elements [_ Hcs] Hmore. split.
    - rewrite length_app. lia.
    - rewrite fmap_app, imap_app, Hcs, Hmore. f_equal.
      assert (Hlen : length pre = length components).
      { apply (f_equal length) in Hcs. now rewrite length_fmap, length_imap in Hcs. }
      apply imap_ext. intros k x _. cbn. rewrite Hlen. f_equal. lia. }
  match type of Hr with
  | ?f _ _ _ _ _ = _ =>
      assert (Hloop : forall pre components componentIndex cursor maxEnd,
                 f cs components componentIndex cursor maxEnd = Ok r ->
                 good pre components componentIndex ->
                 good (pre ++ flat_map each cs) (crComponents r) (crComponentIndex r));
      [|apply (Hloop [] _ _ _ _ Hr); split; [cbn; lia|reflexivity]]
  end.
  clear Hr.
  induction IH as [|child rest Hchild _ IHrest];
    intros pre components componentIndex cursor maxEnd Hr Hgood.
  - injection Hr as <-. cbn [flat_map]. now rewrite app_nil_r.
  - cbn fix beta iota in Hr. cbn [flat_map]. rewrite app_assoc. unfold each at 1.
    destruct (negb (Dom.isElement child) || inList (Dom.tagName child) skippedTags) eqn:Hskip.
    { rewrite app_nil_r. eapply IHrest; eassumption. }
    destruct Hgood as [-> Hcs].
    destruct (isContainerTag (Dom.tagName child)) as [childFlow|] eqn:Htag.
    + apply bind_Ok in Hr as (childTiming & _ & Hr).
      apply bind_Ok in Hr as (nested & Hnested & Hr).
      apply Hchild in Hnested as [Hidx Hn].
      assert (Hnext : good (pre ++ componentElements child) (components ++ crComponents nested)
                        (crComponentIndex nested)).
      { rewrite Hidx. apply Hgrow; [now split|exact Hn]. }
      destruct flow; eapply IHrest; eassumption.
    + apply bind_Ok in Hr as (startOffset & _ & Hr).
      apply bind_Ok in Hr as (endOffset & _ & Hr).
      apply bind_Ok in Hr as (durationValue & _ & Hr).
      apply bind_Ok in Hr as (parsed & Hparsed & Hr).
      apply parseComponentElement_override in Hparsed as (_ & Hid & Hty).
      match type of Hr with
      | context [components ++ [?pc]] =>
          assert (Hnext : good (pre ++ [child]) (components ++ [pc])
                            (S (idx + length components)))
      end.
      { replace (S (idx + length components))
          with (idx + length components + length [child])%nat by (cbn; lia).
        apply Hgrow; [now split|].
        cbn. unfold componentName. now rewrite Nat.add_0_r, Hid, Hty. }
      destruct flow; eapply IHrest; eassumption.
Qed.

End Layout.

(** X22.  In a sequence whose components carry no [start] attribute and whose
    nested containers are such sequences too, the components play back to
    back: the first one starts at the start of the container, each of the
    others at the end of the one before it, and the container ends where
    the last one ends. *)
Theorem sequence_plays_back_to_back {Json} (JSON_parse : string -> option Json)
    (spread : Json -> Json -> Json) ctx el idx start styles markup r :
  sequenceOnly el = true ->
  parseContainerChildren JSON_parse spread el ctx idx start Sequence styles markup = Ok r ->
  exists finish, crMaxEnd r = Some finish /\ backToBack start (crComponents r) finish.
Proof. apply sequence_chain. Qed.

Lemma sequence_plays_back_to_back_witness :
  exists r,
    parseContainerChildren noJson noSpread threeInARow (baseCtx (Fin 30)) 0 (Fin 10)
      Sequence None None = Ok r
    /\ (compTiming <$> crComponents r)
       = [ Some {| startSec := Some (Fin 10); endSec := Some (Fin 12) |};
           Some {| startSec := Some (Fin 12); endSec := Some (Fin 16) |};
           Some {| startSec := Some (Fin 16); endSec := Some (Fin 17) |} ]
    /\ exists finish,
         crMaxEnd r = Some finish /\ backToBack (Fin 10) (crComponents r) finish.
Proof.
  eexists. split; [reflexivity|]. split; [reflexivity|].
  apply (sequence_plays_back_to_back noJson noSpread (baseCtx (Fin 30)) threeInARow
           0%nat (Fin 10) None None); reflexivity.
Defined.

(** X23.  The components of a container are numbered in the order in which they
    are produced, nested containers included: there is one component for
    every element of [componentElements], in that order; the k-th has the
    identifier of its element, or the tag of its element and the number
    [componentIndex + k] when the element has none, and the type of its
    tag; and the index that the container returns is [componentIndex] plus
    the number of its components. *)
Theorem container_numbers_its_components {Json} (JSON_parse : string -> option Json)
    (spread : Json -> Json -> Json) ctx el idx start flow styles markup r :
  parseContainerChildren JSON_parse spread el ctx idx start flow styles markup = Ok r ->
  crComponentIndex r = (idx + length (crComponents r))%nat
  /\ (fun c => (compId c, compType c)) <$> crComponents r
     = imap (fun k => componentName (idx + k)) (componentElements el).
Proof. apply container_index. Qed.

Lemma container_numbers_its_components_witness :
  exists r,
    parseContainerChildren noJson noSpread threeInARow (baseCtx (Fin 30)) 4 (Fin 10)
      Sequence None None = Ok r
    /\ (fun c => (compId c, compType c)) <$> crComponents r
       = [("title-4", "Title"); ("image-5", "Image"); ("c", "Caption")]
    /\ crComponentIndex r = 7%nat.
Proof.
  eexists. split; [reflexivity|].
  destruct (container_numbers_its_components noJson noSpread (baseCtx (Fin 30)) threeInARow
              4%nat (Fin 10) Sequence None None _ eq_refl) as [Hidx Hnames].
  split; [exact Hnames|exact Hidx].
Defined.

End LayoutLaws.

Module SerializeLaws.
Import Patch Serialize Samples.

Local Abbreviation kept :=
  (fun kv : string * string =>
     (kv.1 ≠ "data-runtime-seen" ∧ kv.1 ≠ "data-runtime-active")
     ∧ kv.1 ≠ "data-runtime-hidden").

Lemma strip_Element t a cs :
  stripRuntimeAttrs (Element t a cs)
  = Element t (filter kept a) (map stripRuntimeAttrs cs).
Proof.
  cbn [stripRuntimeAttrs]. rewrite !list_filter_filter. f_equal.
  apply map_ext. now intros [].
Qed.

Lemma kept_runtime name value : In name runtimeAttrs -> ~ kept (name, value).
Proof. cbn. intros [<-|[<-|[<-|[]]]] [[H1 H2] H3]; congruence. Qed.

Lemma filter_setAttrList name value a :
  In name runtimeAttrs -> filter kept (setAttrList name value a) = filter kept a.
Proof.
  intros Hin. induction a as [|[k v] r IH]; cbn [setAttrList].
  - rewrite filter_cons_False; [reflexivity|now apply kept_runtime].
  - destruct (String.eqb_spec k name) as [->|Hk].
    + rewrite !filter_cons_False; [reflexivity|now apply kept_runtime..].
    + rewrite !filter_cons. destruct (decide (kept (k, v))); now rewrite IH.
Qed.

Lemma filter_removed name (a : list (string * string)) :
  In name runtimeAttrs -> filter kept (filter (fun kv => kv.1 ≠ name) a) = filter kept a.
Proof.
  intros Hin. rewrite list_filter_filter. apply list_filter_iff. intros [k v]. cbn.
  split; [tauto|]. intros Hk. split; [exact Hk|]. intros ->.
  now apply (kept_runtime name v Hin).
Qed.

Lemma strip_updateAt f :
  (forall n, stripRuntimeAttrs (f n) = stripRuntimeAttrs n) ->
  forall p root, stripRuntimeAttrs (updateAt f root p) = stripRuntimeAttrs root.
Proof.
  intros Hf. induction p as [|i p IH]; intros root; [apply Hf|].
  destruct root as [t a cs|d]; [|reflexivity].
  cbn [updateAt]. rewrite !strip_Element. f_equal.
  revert i. induction cs as [|c cs IHcs]; intros [|i]; cbn; try reflexivity.
  - now rewrite IH.
  - f_equal. apply IHcs.
Qed.

Lemma nodeAt_strip p : forall root,
  nodeAt (stripRuntimeAttrs root) p = stripRuntimeAttrs <$> nodeAt root p.
Proof.
  induction p as [|i p IH]; intros root; [reflexivity|].
  destruct root as [t a cs|d]; [|reflexivity].
  rewrite strip_Element. cbn [nodeAt]. rewrite list_lookup_fmap.
  destruct (cs !! i) as [c|]; [apply IH|reflexivity].
Qed.

Lemma lookupAttr_filter name (a : list (string * string)) :
  Dom.lookupAttr name (filter kept a)
  = if bool_decide (In name runtimeAttrs) then None else Dom.lookupAttr name a.
Proof.
  induction a as [|[k v] r IH]; [now destruct (bool_decide _)|].
  rewrite filter_cons. cbn [Dom.lookupAttr].
  destruct (decide (kept (k, v))) as [Hk|Hk]; cbn [Dom.lookupAttr].
  - destruct (String.eqb_spec k name) as [->|Hne]; [|exact IH].
    rewrite bool_decide_eq_false_2; [reflexivity|].
    intros Hin. now apply (kept_runtime name v Hin).
  - rewrite IH. destruct (String.eqb_spec k name) as [->|Hne]; [|reflexivity].
    rewrite bool_decide_eq_true_2; [reflexivity|].
    cbn in Hk.
    destruct (decide (name = "data-runtime-seen")) as [->|]; [cbn; tauto|].
    destruct (decide (name = "data-runtime-active")) as [->|]; [cbn; tauto|].
    destruct (decide (name = "data-runtime-hidden")) as [->|]; [cbn; tauto|].
    exfalso. apply Hk. now split_and!.
Qed.

(** X24.  The three flags that the player writes on the elements never reach the
    serialized document: setting or removing one of them on any node leaves
    the tree that [serializeXml] serializes as it was. *)
Theorem runtime_flags_are_not_serialized root p name value :
  In name runtimeAttrs ->
  stripRuntimeAttrs (updateAt (setAttribute name value) root p) = stripRuntimeAttrs root
  /\ stripRuntimeAttrs (updateAt (removeAttribute name) root p) = stripRuntimeAttrs root.
Proof.
  intros Hin. split; apply strip_updateAt; intros [t a cs|d]; try reflexivity.
  - cbn [setAttribute]. rewrite !strip_Element. now rewrite filter_setAttrList.
  - cbn [removeAttribute]. rewrite !strip_Element. now rewrite filter_removed.
Qed.

Lemma runtime_flags_are_not_serialized_witness :
  stripRuntimeAttrs
    (updateAt (setAttribute "data-runtime-hidden" "true") sealedDoc [1; 0]%nat)
  = stripRuntimeAttrs sealedDoc
  /\ updateAt (setAttribute "data-runtime-hidden" "true") sealedDoc [1; 0]%nat <> sealedDoc.
Proof.
  split; [|vm_compute; discriminate].
  apply (runtime_flags_are_not_serialized sealedDoc [1; 0]%nat "data-runtime-hidden" "true").
  cbn. tauto.
Defined.

(** X25.  The tree that [serializeXml] serializes has the nodes of the document
    at the same places, with the same tags and the same attributes, the
    three runtime flags apart: those are on no element of it. *)
Theorem serialized_tree_keeps_all_but_runtime_flags root p :
  match nodeAt root p with
  | Some n0 =>
      exists n,
        nodeAt (stripRuntimeAttrs root) p = Some n
        /\ Dom.tagName n = Dom.tagName n0
        /\ Dom.textContent n = Dom.textContent n0
        /\ forall name,
             Dom.getAttribute n name
             = if bool_decide (In name runtimeAttrs) then None else Dom.getAttribute n0 name
  | None => nodeAt (stripRuntimeAttrs root) p = None
  end.
Proof.
  rewrite nodeAt_strip. destruct (nodeAt root p) as [n0|]; [|reflexivity].
  exists (stripRuntimeAttrs n0). split; [reflexivity|].
  clear root p. split_and!.
  - now destruct n0.
  - induction n0 as [d|t a cs IH] using RuntimeFacts.Node_forall; [reflexivity|].
    rewrite strip_Element. cbn [Dom.textContent].
    induction IH as [|c cs Hc _ IHcs]; [reflexivity|]. cbn. now rewrite Hc, IHcs.
  - intros name. destruct n0 as [t a cs|d].
    + rewrite strip_Element. apply lookupAttr_filter.
    + cbn. now destruct (bool_decide _).
Qed.

End SerializeLaws.

Module TimingLaws.
Import TimeExpr Xml Runtime Samples.

(** X26.  An [end] attribute decides the end: with a [start] and an [end] that
    evaluate, the three readers of a timing give that start and that end,
    whatever the [duration] attribute holds; it is not evaluated. *)
Theorem end_overrides_duration el ctx label startRaw endRaw s e :
  attrIf el "start" = Some startRaw ->
  attrIf el "end" = Some endRaw ->
  parseTimeValue startRaw ctx = Ok s ->
  parseTimeValue endRaw ctx = Ok e ->
  parseContainerTiming el ctx = Ok {| cStartSec := s; cEndSec := Some e |}
  /\ parseTiming el ctx = Ok (Some {| startSec := Some s; endSec := Some e |})
  /\ parseTimeRange el ctx label = Ok (Some {| rangeStart := s; rangeEnd := Some e |}).
Proof.
  intros Hs He Hsv Hev.
  unfold parseContainerTiming, parseTiming, parseTimeRange, timeAttr.
  rewrite Hs, He, Hsv, Hev. cbn.
  split_and!; now destruct (attrIf el "duration").
Qed.

Lemma end_overrides_duration_witness :
  let el := Element "title" [("start", "1"); ("end", "3"); ("duration", "1 +")] [] in
  parseTiming el (baseCtx (Fin 30))
  = Ok (Some {| startSec := Some (Fin 1); endSec := Some (Fin 3) |})
  /\ isOk (parseTimeValue "1 +" (baseCtx (Fin 30))) = false.
Proof.
  cbv zeta. split; [|reflexivity].
  refine (proj1 (proj2 (end_overrides_duration _ (baseCtx (Fin 30)) "" "1" "3" _ _ _ _ _ _)));
    reflexivity.
Defined.

(** X27.  A [duration] with no [start] and no [end]: a container and a component
    start at zero and end after the duration; a cue is refused. *)
Theorem duration_without_start el ctx label raw d :
  attrIf el "start" = None ->
  attrIf el "end" = None ->
  attrIf el "duration" = Some raw ->
  parseTimeValue raw ctx = Ok d ->
  parseContainerTiming el ctx
  = Ok {| cStartSec := Num.of_Z 0; cEndSec := Some (Num.add (Num.of_Z 0) d) |}
  /\ parseTiming el ctx
     = Ok (Some {| startSec := Some (Num.of_Z 0); endSec := Some (Num.add (Num.of_Z 0) d) |})
  /\ parseTimeRange el ctx label
     = Throw (Error (label +:+ " timing requires start when end or duration is provided.")).
Proof.
  intros Hs He Hd Hdv.
  unfold parseContainerTiming, parseTiming, parseTimeRange, timeAttr.
  rewrite Hs, He, Hd, Hdv. now cbn.
Qed.

Lemma duration_without_start_witness :
  let el := Element "title" [("duration", "2")] [] in
  parseTiming el (baseCtx (Fin 30))
  = Ok (Some {| startSec := Some (Fin 0); endSec := Some (Fin 2) |})
  /\ isOk (parseTimeRange el (baseCtx (Fin 30)) "cue") = false.
Proof.
  cbv zeta.
  destruct (duration_without_start (Element "title" [("duration", "2")] [])
              (baseCtx (Fin 30)) "cue" "2" (Fin 2)) as (_ & Ht & Hr);
    try reflexivity.
  split; [exact Ht|]. now rewrite Hr.
Defined.

(** *** The duration of the player *)

Lemma totalDuration_from (timing : list SceneTiming) : forall pre acc,
  (forall scene e, scene ∈ timing -> sceneEnd scene = Some e -> Num.isFinite e = true) ->
  match acc with
  | None => forall scene, scene ∈ pre -> sceneEnd scene = None
  | Some d =>
      Num.isFinite d = true
      /\ (exists scene, scene ∈ pre /\ sceneEnd scene = Some d)
      /\ forall scene e, scene ∈ pre -> sceneEnd scene = Some e -> Num.le e d = true
  end ->
  match foldl (fun duration scene =>
                 match sceneEnd scene, duration with
                 | Some e, None => Some e
                 | Some e, Some d => if Num.gt e d then Some e else duration
                 | None, _ => duration
                 end) acc timing with
  | None => forall scene, scene ∈ pre ++ timing -> sceneEnd scene = None
  | Some d =>
      (exists scene, scene ∈ pre ++ timing /\ sceneEnd scene = Some d)
      /\ forall scene e, scene ∈ pre ++ timing -> sceneEnd scene = Some e -> Num.le e d = true
  end.
Proof.
  induction timing as [|scene timing IH]; intros pre acc Hfin Hacc.
  - rewrite app_nil_r. cbn. destruct acc as [d|]; [tauto|exact Hacc].
  - cbn [foldl].
    replace (pre ++ scene :: timing) with ((pre ++ [scene]) ++ timing)
      by now rewrite <- app_assoc.
    apply IH; [intros s e Hs; apply Hfin; now right|].
    assert (Hle : forall x y, Num.isFinite x = true -> Num.isFinite y = true ->
                    Num.gt x y = false -> Num.le x y = true).
    { intros [x|] [y|] Hx Hy; try discriminate. cbn. now intros ->%negb_false_iff. }
    assert (Hgt : forall x y, Num.gt x y = true -> Num.le y x = true).
    { intros [x|] [y|]; try discriminate. cbn. intros H%negb_true_iff.
      apply Qle_bool_iff. apply Qlt_le_weak. apply Qnot_le_lt. intros Hc.
      apply Qle_bool_iff in Hc. congruence. }
    assert (Hrefl : forall x, Num.isFinite x = true -> Num.le x x = true).
    { intros [x|]; [|discriminate]. intros _. apply Qle_bool_iff. apply Qle_refl. }
    assert (Htrans : forall x y z, Num.le x y = true -> Num.le y z = true -> Num.le x z = true).
    { intros [x|] [y|] [z|]; try discriminate. cbn. rewrite !Qle_bool_iff. apply Qle_trans. }
    destruct (sceneEnd scene) as [e|] eqn:He.
    + assert (Hfe : Num.isFinite e = true) by (apply (Hfin scene e); [now left|exact He]).
      destruct acc as [d|].
      * destruct Hacc as (Hfd & (s0 & Hs0 & He0) & Hmax).
        destruct (Num.gt e d) eqn:Hcmp.
        -- split_and!; [exact Hfe|exists scene; split; [set_solver|exact He]|].
           intros s x [Hs| ->%list_elem_of_singleton]%elem_of_app Hx.
           ++ apply Htrans with d; [now apply (Hmax s)|now apply Hgt].
           ++ rewrite He in Hx. injection Hx as <-. now apply Hrefl.
        -- split_and!; [exact Hfd|exists s0; split; [set_solver|exact He0]|].
           intros s x [Hs| ->%list_elem_of_singleton]%elem_of_app Hx.
           ++ now apply (Hmax s).
           ++ rewrite He in Hx. injection Hx as <-. now apply Hle.
      * split_and!; [exact Hfe|exists scene; split; [set_solver|exact He]|].
        intros s x [Hs| ->%list_elem_of_singleton]%elem_of_app Hx.
        -- rewrite (Hacc s Hs) in Hx. discriminate.
        -- rewrite He in Hx. injection Hx as <-. now apply Hrefl.
    + destruct acc as [d|].
      * destruct Hacc as (Hfd & (s0 & Hs0 & He0) & Hmax).
        split_and!; [exact Hfd|exists s0; split; [set_solver|exact He0]|].
        intros s x [Hs| ->%list_elem_of_singleton]%elem_of_app Hx; [now apply (Hmax s)|congruence].
      * intros s [Hs| ->%list_elem_of_singleton]%elem_of_app; [now apply Hacc|exact He].
Qed.

(** X28.  The duration of the player is the latest end of a scene: when the ends
    that the scenes have are finite, it is the end of one of the scenes
    and no scene ends after it; there is none exactly when no scene has an
    end. *)
Theorem duration_is_latest_scene_end (timing : list SceneTiming) :
  (forall scene e, scene ∈ timing -> sceneEnd scene = Some e -> Num.isFinite e = true) ->
  match totalDuration timing with
  | None => forall scene, scene ∈ timing -> sceneEnd scene = None
  | Some d =>
      (exists scene, scene ∈ timing /\ sceneEnd scene = Some d)
      /\ forall scene e, scene ∈ timing -> sceneEnd scene = Some e -> Num.le e d = true
  end.
Proof.
  intros Hfin. apply (totalDuration_from timing [] None Hfin).
  intros scene Hin. now apply elem_of_nil in Hin.
Qed.

Lemma duration_is_latest_scene_end_witness :
  let scene id e := {| sceneId := id; sceneStart := Fin 0; sceneEnd := e; sceneElement := [] |} in
  let timing := [scene "a" (Some (Fin 4)); scene "b" None; scene "c" (Some (Fin 9));
                 scene "d" (Some (Fin 6))] in
  totalDuration timing = Some (Fin 9)
  /\ forall s e, s ∈ timing -> sceneEnd s = Some e -> Num.le e (Fin 9) = true.
Proof.
  cbv zeta. split; [reflexivity|].
  match goal with |- forall s e, s ∈ ?l -> _ => set (timing := l) end.
  assert (Hfin : forall s e, s ∈ timing -> sceneEnd s = Some e -> Num.isFinite e = true).
  { intros s e Hin He. subst timing.
    repeat (apply elem_of_cons in Hin as [->|Hin];
            [cbn in He; try discriminate He; now injection He as <-|]).
    now apply elem_of_nil in Hin. }
  pose proof (duration_is_latest_scene_end timing Hfin) as H.
  change (totalDuration timing) with (Some (Fin 9)) in H.
  exact (proj2 H).
Defined.

End TimingLaws.
